(** * Bitset<NBits>: a shallow embedding of the fixed-width bit set

    The class template [Bitset] packs [NBits] boolean flags into an array of
    unsigned words.  The template parameter becomes an explicit argument
    [NBits : Z]; the only data member, [storage_t bits], becomes a
    [list Z] in storage order (least-significant word first).  Unsigned
    arithmetic is modelled on [Z] with the wrap-around written out;
    arithmetic on [int] is checked, because signed overflow and oversized
    shifts are undefined in C++. *)

From Stdlib Require Import ZArith Lia Bool List Ascii String.
From stdpp Require Import base list.

Local Open Scope Z_scope.

(** ** Outcomes of running a piece of the program *)

(** [Ok a]: the code ran and produced [a].  [AssertFail]: an [assert]
    fired (builds without NDEBUG).  [Undefined]: the C++ standard gives
    the execution no meaning (signed overflow, oversized shift, array
    index out of range, flowing off the end of a value-returning
    function). *)
Inductive result (A : Type) : Type :=
  | Ok (a : A)
  | AssertFail
  | Undefined.
Arguments Ok {A} a.
Arguments AssertFail {A}.
Arguments Undefined {A}.

#[global] Instance result_ret : MRet result := fun _ a => Ok a.
#[global] Instance result_bind : MBind result := fun _ _ f m =>
  match m with
  | Ok a => f a
  | AssertFail => AssertFail
  | Undefined => Undefined
  end.

(** ** Machine integers *)

(** [std::size_t] is 64 bits wide. *)
Definition to_size_t (x : Z) : Z := x mod 2 ^ 64.

(** [int] is 32 bits wide, two's complement. *)
Definition int_min : Z := - 2 ^ 31.
Definition int_max : Z := 2 ^ 31 - 1.
Definition in_int (x : Z) : bool := (int_min <=? x) && (x <=? int_max).

(** The value of type [int] congruent to [x] modulo [2^32]. *)
Definition wrap_int (x : Z) : Z := (x + 2 ^ 31) mod 2 ^ 32 - 2 ^ 31.

(** [a << k] with [a] of type [int]: undefined when the count is negative
    or at least the width of [int]; otherwise the value congruent to
    [a * 2^k] modulo [2^32]. *)
Definition int_shl (a k : Z) : result Z :=
  if (0 <=? k) && (k <? 32) then Ok (wrap_int (a * 2 ^ k)) else Undefined.

(** [a - b] on [int]: undefined when the difference is not representable. *)
Definition int_sub (a b : Z) : result Z :=
  if in_int (a - b) then Ok (a - b) else Undefined.

(** [std::countr_zero] on a [w]-bit unsigned value: number of consecutive
    zero bits starting at the least-significant bit; [w] when the value
    is zero. *)
Fixpoint countr_zero_aux (fuel : nat) (x : Z) : Z :=
  match fuel with
  | O => 0
  | S fuel' => if Z.odd x then 0 else 1 + countr_zero_aux fuel' (Z.div2 x)
  end.
Definition countr_zero (w x : Z) : Z := countr_zero_aux (Z.to_nat w) x.

(** [std::countr_one]: number of consecutive one bits starting at the
    least-significant bit. *)
Fixpoint countr_one_aux (fuel : nat) (x : Z) : Z :=
  match fuel with
  | O => 0
  | S fuel' => if Z.odd x then 1 + countr_one_aux fuel' (Z.div2 x) else 0
  end.
Definition countr_one (w x : Z) : Z := countr_one_aux (Z.to_nat w) x.

(** [std::popcount]: number of one bits. *)
Fixpoint popcount_aux (fuel : nat) (x : Z) : Z :=
  match fuel with
  | O => 0
  | S fuel' => Z.b2z (Z.odd x) + popcount_aux fuel' (Z.div2 x)
  end.
Definition popcount (w x : Z) : Z := popcount_aux (Z.to_nat w) x.

(** ** Arrays *)

(** [a[i]] on a [std::array]: no bounds check, an index outside the array
    is undefined. *)
Definition at_index (a : list Z) (i : Z) : result Z :=
  if (0 <=? i) && (i <? Z.of_nat (length a))
  then from_option Ok Undefined (a !! Z.to_nat i)
  else Undefined.

(** [a[i] = v]. *)
Definition store_index (a : list Z) (i v : Z) : result (list Z) :=
  if (0 <=? i) && (i <? Z.of_nat (length a))
  then Ok (<[Z.to_nat i := v]> a)
  else Undefined.

(** ** The class template *)

Section Bitset.
Variable NBits : Z.

(** [underlying_t] is chosen by nested [std::conditional_t]; this is
    [std::numeric_limits<underlying_t>::digits]. *)
Definition bits_per_word : Z :=
  if 32 <? NBits then 64
  else if 16 <? NBits then 32
  else if 8 <? NBits then 16
  else 8.

(** Conversion to [underlying_t]. *)
Definition to_word (x : Z) : Z := x mod 2 ^ bits_per_word.

Definition all_ones : Z := 2 ^ bits_per_word - 1.
Definition all_zero : Z := 0.

Definition arr_size : Z := to_size_t (NBits + 63) / 64.

(** [sizeof(storage_t)]: [arr_size] elements of [sizeof(underlying_t)]
    bytes each, no padding. *)
Definition sizeof_storage : Z := arr_size * (bits_per_word / 8).

Definition bits_in_storage : Z := to_size_t (sizeof_storage * 8).

Definition size : Z := NBits.

(** [get_msb_mask]: the literal [1] in the else branch has type [int],
    so the shift and the subtraction are carried out on [int] and the
    result is converted to [underlying_t] on return. *)
Definition get_msb_mask : result Z :=
  if NBits =? bits_in_storage then Ok all_ones
  else
    s ← int_shl 1 (to_size_t NBits mod bits_per_word);
    m ← int_sub s 1;
    Ok (to_word m).

Definition which_word (pos : Z) : Z := pos / bits_per_word.
Definition which_bit (pos : Z) : Z := pos mod bits_per_word.

(** [underlying_t(1) << which_bit(pos)]; the count is below the width
    of the (promoted) left operand for every [pos]. *)
Definition mask_bit (pos : Z) : Z := to_word (Z.shiftl 1 (which_bit pos)).

Definition to_bool (w : Z) : bool := negb (Z.land w 1 =? 0).

(** [get_word]: the assertion, then the unchecked array access. *)
Definition get_word (bits : list Z) (pos : Z) : result Z :=
  if pos <? size then at_index bits (which_word pos) else AssertFail.

(** [get_msb_word]: [bits[arr_size - 1]], the subtraction being on
    [std::size_t]. *)
Definition get_msb_word (bits : list Z) : result Z :=
  at_index bits (to_size_t (arr_size - 1)).

(** The statement [get_msb_word() &= get_msb_mask();] shared by [set()]
    and the two converting constructors.  Both operands are values of
    [underlying_t], so the conjunction needs no conversion. *)
Definition mask_msb_word (bits : list Z) : result (list Z) :=
  m ← get_msb_mask;
  w ← get_msb_word bits;
  store_index bits (to_size_t (arr_size - 1)) (Z.land w m).

(** Default constructor: [storage_t bits{0}]. *)
Definition default_bits : list Z := replicate (Z.to_nat arr_size) 0.

(** [Bitset(underlying_t bits) requires(NBits <= 64)]: the first array
    element is the argument, the rest is zero-filled. *)
Definition from_word (v : Z) : result (list Z) :=
  mask_msb_word (v :: replicate (Z.to_nat (arr_size - 1)) 0).

(** [Bitset(storage_t bits) requires(NBits > 64)]: the argument is in
    reading order, most-significant word first. *)
Definition from_array (a : list Z) : result (list Z) :=
  mask_msb_word (reverse a).

Definition all (bits : list Z) : bool :=
  forallb (fun word => word =? all_ones) bits.

Definition any (bits : list Z) : bool :=
  existsb (fun word => negb (word =? all_zero)) bits.

Definition none (bits : list Z) : bool :=
  forallb (fun word => word =? all_zero) bits.

Definition count (bits : list Z) : Z :=
  fold_left (fun acc word => to_size_t (acc + popcount bits_per_word word)) bits 0.

(** [test(pos)].  (The source marks [test] const but not [get_word] and
    [to_bool]; const-qualification has no run-time content and is not
    modelled.) *)
Definition test (bits : list Z) (pos : Z) : result bool :=
  w ← get_word bits pos;
  Ok (to_bool (to_word (Z.shiftr w (which_bit pos)))).

(** [set()]. *)
Definition set_all (bits : list Z) : result (list Z) :=
  mask_msb_word (map (fun _ => all_ones) bits).

(** [set(pos, value)]. *)
Definition set_bit (bits : list Z) (pos : Z) (value : bool) : result (list Z) :=
  w ← get_word bits pos;
  store_index bits (which_word pos)
    (if value then to_word (Z.lor w (mask_bit pos))
     else to_word (Z.land w (Z.lnot (mask_bit pos)))).

(** [reset()]. *)
Definition reset_all (bits : list Z) : result (list Z) :=
  Ok (map (fun _ => all_zero) bits).

(** [reset(pos)]. *)
Definition reset_bit (bits : list Z) (pos : Z) : result (list Z) :=
  set_bit bits pos false.

(** The one statement in the body of [flip()]: every word is
    complemented.  No mask is applied afterwards. *)
Definition flip_all_body (bits : list Z) : list Z :=
  map (fun word => to_word (Z.lnot word)) bits.

(** [flip()] as a call: the body has no [return] statement although the
    function is declared to return [Bitset&], so control flows off its
    end once the words have been complemented. *)
Definition flip_all (bits : list Z) : result (list Z) :=
  let _ := flip_all_body bits in Undefined.

(** [flip(pos)]. *)
Definition flip_bit (bits : list Z) (pos : Z) : result (list Z) :=
  w ← get_word bits pos;
  store_index bits (which_word pos) (to_word (Z.lxor w (mask_bit pos))).

(** The loop of [find_first_one], started at word index [i] with [ws]
    the words not yet visited. *)
Fixpoint find_first_one_from (i : Z) (ws : list Z) : Z :=
  match ws with
  | [] => size
  | word :: ws' =>
      if negb (word =? all_zero)
      then to_size_t (countr_zero bits_per_word word + to_size_t (i * bits_per_word))
      else find_first_one_from (i + 1) ws'
  end.
Definition find_first_one (bits : list Z) : Z := find_first_one_from 0 bits.

Fixpoint find_first_zero_from (i : Z) (ws : list Z) : Z :=
  match ws with
  | [] => size
  | word :: ws' =>
      if negb (word =? all_ones)
      then to_size_t (countr_one bits_per_word word + to_size_t (i * bits_per_word))
      else find_first_zero_from (i + 1) ws'
  end.
Definition find_first_zero (bits : list Z) : Z := find_first_zero_from 0 bits.

(** ** Specification-level notions *)

(** The storage bit at absolute position [p]: bit [p mod bits_per_word]
    of word [p / bits_per_word]. *)
Definition storage_bit (bits : list Z) (p : Z) : bool :=
  from_option (fun w => Z.testbit w (p mod bits_per_word)) false
    (bits !! Z.to_nat (p / bits_per_word)).

(** A value of [underlying_t]. *)
Definition word_ok (w : Z) : Prop := 0 <= w < 2 ^ bits_per_word.

(** The shape the type [storage_t] enforces: [arr_size] words, each a
    value of [underlying_t]. *)
Definition well_formed (bits : list Z) : Prop :=
  Z.of_nat (length bits) = arr_size /\ Forall word_ok bits.

(** Number of logical bits held by the last storage word. *)
Definition msb_word_bits : Z := NBits - (arr_size - 1) * bits_per_word.

(** The mathematical ceiling of [a / b]. *)
Definition ceil_div (a b : Z) : Z := - ((- a) / b).

(** MSB masking invariant: no storage bit at a position from [NBits]
    upwards is set. *)
Definition msb_invariant (bits : list Z) : Prop :=
  forall p, NBits <= p -> storage_bit bits p = false.

End Bitset.

(** States a program can bring a [Bitset<NBits>] into: construction,
    then any sequence of mutators.  [flip()] contributes the effect of
    its body; [with_flip] tells whether calls of [flip()] are admitted. *)
Inductive reachable (NBits : Z) (with_flip : bool) : list Z -> Prop :=
  | reach_default : reachable NBits with_flip (default_bits NBits)
  | reach_from_word v bits :
      NBits <= 64 -> from_word NBits v = Ok bits ->
      reachable NBits with_flip bits
  | reach_from_array a bits :
      64 < NBits -> Z.of_nat (length a) = arr_size NBits ->
      from_array NBits a = Ok bits -> reachable NBits with_flip bits
  | reach_set_all b bits :
      reachable NBits with_flip b -> set_all NBits b = Ok bits ->
      reachable NBits with_flip bits
  | reach_set_bit b pos value bits :
      reachable NBits with_flip b -> 0 <= pos ->
      set_bit NBits b pos value = Ok bits -> reachable NBits with_flip bits
  | reach_reset_all b bits :
      reachable NBits with_flip b -> reset_all b = Ok bits ->
      reachable NBits with_flip bits
  | reach_reset_bit b pos bits :
      reachable NBits with_flip b -> 0 <= pos ->
      reset_bit NBits b pos = Ok bits -> reachable NBits with_flip bits
  | reach_flip_all b :
      with_flip = true -> reachable NBits with_flip b ->
      reachable NBits with_flip (flip_all_body NBits b)
  | reach_flip_bit b pos bits :
      reachable NBits with_flip b -> 0 <= pos ->
      flip_bit NBits b pos = Ok bits -> reachable NBits with_flip bits.

(** ** Further specification-level notions for the bit set *)

(** Number of positions in [lo, lo + n) at which [f] holds. *)
Fixpoint count_true (f : Z -> bool) (lo : Z) (n : nat) : Z :=
  match n with
  | O => 0
  | S n' => Z.b2z (f lo) + count_true f (lo + 1) n'
  end.

(** What [test(q)] answers, read as a plain boolean ([false] when the
    call does not return). *)
Definition test_true (NBits : Z) (bits : list Z) (q : Z) : bool :=
  match test NBits bits q with
  | Ok b => b
  | _ => false
  end.

(** The MSB masking invariant as a check that runs: every storage bit
    from [NBits] up to the end of the storage is clear. *)
Definition msb_invariantb (NBits : Z) (bits : list Z) : bool :=
  forallb (fun p => negb (storage_bit NBits bits p))
    (seqZ NBits (bits_in_storage NBits - NBits)).

(** * The UTF-8 glyph reader: [Cursor], [decode_glyph], [Stream] *)

Module Utf8.

Definition utf8_sequence_length (lead_byte : Z) : Z :=
  if lead_byte <=? 127 then 1
  else if lead_byte <=? 128 + 63 then 2
  else if lead_byte <=? 128 + 64 + 31 then 3
  else if lead_byte <=? 128 + 64 + 32 + 15 then 4
  else 0.

(** [Cursor<char>]: two pointers into an array of [char].  The array is
    [mem], one raw byte (0..255) per [char] object; the pointers are
    offsets into it. *)
Record Cursor : Type := { mem : list Z; begin_ : Z; end_ : Z }.

(** [Cursor(std::span<const T> span)]. *)
Definition of_span (span : list Z) : Cursor :=
  {| mem := span; begin_ := 0; end_ := Z.of_nat (length span) |}.

(** [remaining()]: the pointer difference, converted to [size_t]. *)
Definition remaining (c : Cursor) : Z := to_size_t (end_ c - begin_ c).

Definition ended (c : Cursor) : bool := remaining c =? 0.

(** [next()]: binds the result to [*begin_], increments, asserts, and
    returns the element.  Moving the pointer further than one past the end
    of the array is undefined. *)
Definition next (c : Cursor) : result (Z * Cursor) :=
  if Z.of_nat (length (mem c)) <? begin_ c + 1 then Undefined
  else if begin_ c + 1 <=? end_ c then
    x ← at_index (mem c) (begin_ c);
    Ok (x, {| mem := mem c; begin_ := begin_ c + 1; end_ := end_ c |})
  else AssertFail.

(** The replacement character stored on failure. *)
Definition replacement : Z := 0xFFFD.

Section Char.
(** Whether plain [char] is signed is left to the implementation. *)
Variable char_signed : bool.

(** The value of a [char] object holding the raw byte [b]. *)
Definition char_value (b : Z) : Z :=
  if char_signed && (128 <=? b) then b - 256 else b.

(** Conversion to [unsigned char]. *)
Definition to_uchar (x : Z) : Z := x mod 256.

(** [decode_glyph(in, c)]: the returned triple is the boolean result, the
    content of [in] afterwards ([None]: indeterminate) and the cursor
    afterwards. *)
Definition decode_glyph (in_ : option Z) (c : Cursor)
  : result (bool * option Z * Cursor) :=
  if remaining c =? 0 then Ok (false, Some replacement, c)
  else
    '(x1, c1) ← next c;
    let b1 := to_uchar (char_value x1) in
    if utf8_sequence_length b1 =? 0 then Ok (false, Some replacement, c1)
    else if to_size_t (remaining c1 + 1) <? utf8_sequence_length b1
    then Ok (false, Some replacement, c1)
    else if b1 <=? 127 then Ok (true, Some b1, c1)
    else if b1 <=? 128 + 63 then
      '(x2, c2) ← next c1;
      Ok (true,
          Some (Z.lor (Z.shiftl (Z.land 0x1f b1) 6)
                      (Z.land 0x3f (char_value x2))),
          c2)
    else if b1 <=? 128 + 64 + 31 then
      '(x2, c2) ← next c1;
      '(x3, c3) ← next c2;
      Ok (true,
          Some (Z.lor (Z.lor (Z.shiftl (Z.land 0x0f b1) 12)
                             (Z.shiftl (Z.land 0x3f (char_value x2)) 6))
                      (Z.land 0x3f (char_value x3))),
          c3)
    else if b1 <=? 128 + 64 + 32 + 15 then
      '(x2, c2) ← next c1;
      '(x3, c3) ← next c2;
      '(x4, c4) ← next c3;
      Ok (true,
          Some (Z.lor (Z.lor (Z.lor (Z.shiftl (Z.land 0x07 b1) 18)
                                    (Z.shiftl (Z.land 0x3f (char_value x2)) 12))
                             (Z.shiftl (Z.land 0x3f (char_value x3)) 6))
                      (Z.land 0x3f (char_value x4))),
          c4)
    else Ok (true, in_, c1).

(** The callable of [iterGraphemes]: [in] starts indeterminate and is read
    only when [decode_glyph] returned true. *)
Definition grapheme_next (c : Cursor) : result (option Z * Cursor) :=
  '(ok, in_, c') ← decode_glyph None c;
  if ok : bool then
    match in_ with
    | Some v => Ok (Some v, c')
    | None => Undefined
    end
  else Ok (None, c').

(** The callable of [iterChars]; the element is handed out as its raw
    byte. *)
Definition char_next (c : Cursor) : result (option Z * Cursor) :=
  if negb (ended c) then '(x, c') ← next c; Ok (Some x, c')
  else Ok (None, c).
End Char.

(** A range-for over a [Stream]: [begin()] calls the callable once, each
    [++] calls it again, and the loop ends at the first empty item.
    [None]: the fuel ran out. *)
Fixpoint run_stream {A : Type} (next_ : Cursor -> result (option A * Cursor))
    (fuel : nat) (c : Cursor) : option (result (list A)) :=
  match fuel with
  | O => None
  | S fuel' =>
      match next_ c with
      | Ok (Some x, c') =>
          match run_stream next_ fuel' c' with
          | Some (Ok l) => Some (Ok (x :: l))
          | other => other
          end
      | Ok (None, _) => Some (Ok [])
      | AssertFail => Some AssertFail
      | Undefined => Some Undefined
      end
  end.

Definition iterGraphemes (char_signed : bool) (fuel : nat) (str : list Z)
  : option (result (list Z)) :=
  run_stream (grapheme_next char_signed) fuel (of_span str).

Definition iterChars (fuel : nat) (str : list Z) : option (result (list Z)) :=
  run_stream char_next fuel (of_span str).

(** The cursor that has walked over [pre], still has [seen] before it
    and whose array goes on with [post] beyond its end pointer. *)
Definition cursor_at (pre seen post : list Z) : Cursor :=
  {| mem := pre ++ seen ++ post;
     begin_ := Z.of_nat (length pre);
     end_ := Z.of_nat (length pre) + Z.of_nat (length seen) |}.

(** The number a successful [decode_glyph] assembles from the lead byte
    [b1] and the bytes [rest] after it, in plain arithmetic on the raw
    bytes. *)
Definition glyph_value (b1 : Z) (rest : list Z) : Z :=
  let b2 := nth 0 rest 0 in
  let b3 := nth 1 rest 0 in
  let b4 := nth 2 rest 0 in
  if b1 <=? 127 then b1
  else if b1 <=? 191 then (b1 mod 32) * 64 + b2 mod 64
  else if b1 <=? 223 then ((b1 mod 16) * 64 + b2 mod 64) * 64 + b3 mod 64
  else (((b1 mod 8) * 64 + b2 mod 64) * 64 + b3 mod 64) * 64 + b4 mod 64.

(** What [decode_glyph] does, told on the list of bytes before the
    cursor: the boolean result, the value left in [in], and the number of
    bytes consumed. *)
Definition decode_outcome (seen : list Z) : bool * Z * nat :=
  match seen with
  | [] => (false, replacement, 0%nat)
  | b1 :: rest =>
      let len := utf8_sequence_length b1 in
      if (len =? 0) || (Z.of_nat (length seen) <? len)
      then (false, replacement, 1%nat)
      else (true, glyph_value b1 rest, Z.to_nat len)
  end.

(** The length RFC 3629 gives to a sequence that starts with a
    multi-byte lead byte ([0xC0..0xDF]: 2, [0xE0..0xEF]: 3,
    [0xF0..0xF7]: 4). *)
Definition rfc3629_length (lead_byte : Z) : Z :=
  if lead_byte <? 0xE0 then 2 else if lead_byte <? 0xF0 then 3 else 4.

End Utf8.

(** * The byte streams: [ByteBuffer], [OByteStream], [IByteStream] *)

Module ByteStream.

(** [ByteBuffer]: its only member is the vector [bytes_]. *)
Record ByteBuffer : Type := { bytes_ : list Z }.

Definition size (b : ByteBuffer) : Z := Z.of_nat (length (bytes_ b)).

Definition clear (b : ByteBuffer) : ByteBuffer := {| bytes_ := [] |}.

(** [ByteBuffer::write(ByteSpan)]: appends and returns the growth of the
    vector. *)
Definition write_span (b : ByteBuffer) (span : list Z) : Z * ByteBuffer :=
  let old_size := size b in
  let b' := {| bytes_ := bytes_ b ++ span |} in
  (to_size_t (size b' - old_size), b').

(** [IByteStream]: three pointers into the bytes it was made from; [data]
    is that array and the pointers are offsets into it. *)
Record IByteStream : Type :=
  { data : list Z; begin_ : Z; current_ : Z; end_ : Z }.

(** [IByteStream(ByteSpan bytes)] and [IByteStream(ByteBuffer &buf)]. *)
Definition of_span (bytes : list Z) : IByteStream :=
  {| data := bytes; begin_ := 0; current_ := 0; end_ := Z.of_nat (length bytes) |}.
Definition of_buffer (buf : ByteBuffer) : IByteStream := of_span (bytes_ buf).

Section Object.
(** A trivially copyable type [T]: its size and the two directions of
    [std::bit_cast] between a [T] and an array of [sizeof(T)] bytes, which
    the implementation fixes. *)
Variable T : Type.
Variable sizeof_T : Z.
Variable bit_cast_to : list Z -> T.
Variable bit_cast_from : T -> list Z.

(** [fromBytesTo<T>(bytes)]: a zeroed array of [sizeof(T)] bytes receives
    the span from its start; a longer span runs past the array. *)
Definition fromBytesTo (bytes : list Z) : result T :=
  if sizeof_T <? Z.of_nat (length bytes) then Undefined
  else Ok (bit_cast_to
             (bytes ++ replicate (Z.to_nat sizeof_T - length bytes) 0)).

Definition toBytes (t : T) : list Z := bit_cast_from t.

(** [asBytes(t)]: the bytes of the object itself. *)
Definition asBytes (t : T) : list Z := bit_cast_from t.

(** [OByteStream::write(const T &)] and [operator<<], on the buffer the
    stream refers to. *)
Definition write (buffer_ : ByteBuffer) (t : T) : ByteBuffer :=
  snd (write_span buffer_ (asBytes t)).

(** [IByteStream::operator>>]: the assertion, the conversion of the next
    [sizeof(T)] bytes, the advance.  Forming a pointer further than one
    past the end of the array is undefined. *)
Definition read (s : IByteStream) : result (T * IByteStream) :=
  if Z.of_nat (length (data s)) <? current_ s + sizeof_T then Undefined
  else if current_ s + sizeof_T <=? end_ s then
    t ← fromBytesTo (take (Z.to_nat sizeof_T) (drop (Z.to_nat (current_ s)) (data s)));
    Ok (t, {| data := data s; begin_ := begin_ s;
              current_ := current_ s + sizeof_T; end_ := end_ s |})
  else AssertFail.
End Object.

End ByteStream.

(** * The level generator's index arithmetic *)

Module Level.

(** Conversions between [uint32_t] and [int] (modular). *)
Definition to_u32 (x : Z) : Z := x mod 2 ^ 32.
Definition to_int (x : Z) : Z := wrap_int x.

(** [a % b] on [int]: truncating; undefined for a zero divisor and for
    [INT_MIN % -1]. *)
Definition int_rem (a b : Z) : result Z :=
  if b =? 0 then Undefined
  else if (a =? int_min) && (b =? -1) then Undefined
  else Ok (Z.rem a b).

(** [a + b] on [int]. *)
Definition int_add (a b : Z) : result Z :=
  if in_int (a + b) then Ok (a + b) else Undefined.

(** [int mod(int x, int m) { return (x % m + m) % m; }] *)
Definition mod_ (x m : Z) : result Z :=
  r ← int_rem x m;
  s ← int_add r m;
  int_rem s m.

Section LevelGen.
(** The element type of [values] ([float] in the source). *)
Variable A : Type.

(** [v[i]] on a [std::vector]: unchecked. *)
Definition vec_at (v : list A) (i : Z) : result A :=
  if (0 <=? i) && (i <? Z.of_nat (length v))
  then match v !! Z.to_nat i with Some a => Ok a | None => Undefined end
  else Undefined.

Definition vec_store (v : list A) (i : Z) (a : A) : result (list A) :=
  if (0 <=? i) && (i <? Z.of_nat (length v))
  then Ok (<[Z.to_nat i := a]> v)
  else Undefined.

(** The index expression [mod(x, w) + mod(y, h) * w] of [sample] and
    [setSample]: the [uint32_t] arguments are converted to [int] for
    [mod], and its [int] results are converted back to [uint32_t] by the
    product and the sum. *)
Definition sample_index (w h x y : Z) : result Z :=
  mx ← mod_ (to_int x) (to_int w);
  my ← mod_ (to_int y) (to_int h);
  Ok (to_u32 (to_u32 mx + to_u32 (to_u32 my * w))).

Definition sample (values : list A) (w h x y : Z) : result A :=
  i ← sample_index w h x y;
  vec_at values i.

Definition setSample (values : list A) (w h x y : Z) (value : A) : result (list A) :=
  i ← sample_index w h x y;
  vec_store values i value.
End LevelGen.

End Level.

(** * Type names cut out of a function signature *)

Module NameOf.

(** [std::string_view::npos]. *)
Definition npos : Z := 2 ^ 64 - 1.

Fixpoint starts_with (p s : list ascii) : bool :=
  match p, s with
  | [], _ => true
  | a :: p', b :: s' => if Ascii.eqb a b then starts_with p' s' else false
  | _ :: _, [] => false
  end.

Fixpoint find_from (p s : list ascii) (i : Z) : Z :=
  if starts_with p s then i
  else match s with
       | [] => npos
       | _ :: s' => find_from p s' (i + 1)
       end.

(** [s.find(p)]: the first position at which [p] occurs, or [npos]. *)
Definition find (s p : list ascii) : Z := find_from p s 0.

(** [s.substr(pos, n)]: [None] stands for the [std::out_of_range] thrown
    when [pos] lies beyond the end. *)
Definition substr (s : list ascii) (pos n : Z) : option (list ascii) :=
  if Z.of_nat (length s) <? pos then None
  else Some (take (Z.to_nat (Z.min n (Z.of_nat (length s) - pos)))
               (drop (Z.to_nat pos) s)).

Definition prefix : list ascii := list_ascii_of_string "T = ".

(** The template arguments that [main] instantiates [nameOf] with:
    fundamental types and classes. *)
Inductive cpp_type : Type :=
  | ty_void
  | ty_int
  | ty_float
  | ty_double
  | ty_unsigned_int
  | ty_unsigned_long
  | ty_class (name : list ascii).

Definition cpp_type_eq_dec (a b : cpp_type) : {a = b} + {a <> b}.
Proof. decide equality. apply (List.list_eq_dec Ascii.ascii_dec). Defined.

Section Compiler.

(** [functionName<T>()]: the text of
    [std::source_location::current().function_name()] is chosen by the
    compiler. *)
Variable functionName : cpp_type -> list ascii.

(** The type that [uint32_t] is declared an alias of. *)
Variable uint32_t : cpp_type.

(** The primary template of [nameOf<T>()]. *)
Definition nameOf_primary (T : cpp_type) : option (list ascii) :=
  let name := functionName T in
  let prefix_len := to_size_t (find name prefix + Z.of_nat (length prefix)) in
  let suffix_len :=
    to_size_t (Z.of_nat (length (functionName ty_void)) - prefix_len - 4) in
  let length_ := to_size_t (Z.of_nat (length name) - prefix_len - suffix_len) in
  substr name prefix_len length_.

(** The explicit specialisation [nameOf<uint32_t>()]. *)
Definition nameOf_uint32_t : option (list ascii) :=
  Some (list_ascii_of_string "uint32_t").

(** [nameOf<T>()]: the explicit specialisation is the one called when
    [T] is the type named [uint32_t], under whatever spelling; every
    other [T] instantiates the primary template. *)
Definition nameOf (T : cpp_type) : option (list ascii) :=
  if cpp_type_eq_dec T uint32_t then nameOf_uint32_t else nameOf_primary T.

End Compiler.

(** An input for the examples: GCC's wording of the signature of
    [functionName<T>], on a target where [uint32_t] is [unsigned int]
    and [std::size_t] is [unsigned long]. *)
Definition gcc_type_name (T : cpp_type) : list ascii :=
  match T with
  | ty_void => list_ascii_of_string "void"
  | ty_int => list_ascii_of_string "int"
  | ty_float => list_ascii_of_string "float"
  | ty_double => list_ascii_of_string "double"
  | ty_unsigned_int => list_ascii_of_string "unsigned int"
  | ty_unsigned_long => list_ascii_of_string "long unsigned int"
  | ty_class name => name
  end.

Definition gcc_pre : list ascii :=
  list_ascii_of_string "consteval std::string_view functionName() [with ".

Definition gcc_suf : list ascii :=
  list_ascii_of_string "; std::string_view = std::basic_string_view<char>]".

Definition gcc_functionName (T : cpp_type) : list ascii :=
  gcc_pre ++ prefix ++ gcc_type_name T ++ gcc_suf.

End NameOf.

(** ** The compile-time checks of the source's [test()] hold in the model *)

Example sizeof_table :
  map sizeof_storage [1; 8; 9; 16; 17; 32; 33; 64; 65; 128]
  = [1; 1; 2; 2; 4; 4; 8; 8; 16; 16].
Proof. reflexivity. Qed.

Example count_b65 :
  (b ← from_array 65 [0x10000F000000000F; 0xFFFFFFFFFFFFFFFF]; Ok (count 65 b)) = Ok 65.
Proof. vm_compute. reflexivity. Qed.

Example count_c64 :
  (c ← from_word 64 0x0FFFFFFFFFFFFFFF; Ok (count 64 c)) = Ok 60.
Proof. vm_compute. reflexivity. Qed.

Example msb_mask_asserts :
  map get_msb_mask [8; 9; 15; 16; 64; 65]
  = [Ok 0xFF; Ok 0x01FF; Ok 0x7FFF; Ok 0xFFFF; Ok 0xFFFFFFFFFFFFFFFF; Ok 0x0001].
Proof. vm_compute. reflexivity. Qed.

(** ** Arithmetic of the layout *)

Lemma result_bind_Ok {A B} (f : A -> result B) (a : A) : (Ok a ≫= f) = f a.
Proof. reflexivity. Qed.

Lemma bits_per_word_cases NBits :
  (NBits <= 8 /\ bits_per_word NBits = 8) \/
  (8 < NBits <= 16 /\ bits_per_word NBits = 16) \/
  (16 < NBits <= 32 /\ bits_per_word NBits = 32) \/
  (32 < NBits /\ bits_per_word NBits = 64).
Proof.
  unfold bits_per_word.
  destruct (Z.ltb_spec 32 NBits); [lia|].
  destruct (Z.ltb_spec 16 NBits); [lia|].
  destruct (Z.ltb_spec 8 NBits); lia.
Qed.

Lemma bits_per_word_pos NBits : 0 < bits_per_word NBits.
Proof. destruct (bits_per_word_cases NBits) as [H|[H|[H|H]]]; lia. Qed.

Lemma pow2_bits_per_word_pos NBits : 0 < 2 ^ bits_per_word NBits.
Proof. apply Z.pow_pos_nonneg; [lia | pose proof (bits_per_word_pos NBits); lia]. Qed.

Section Layout.
Context (NBits : Z) (NBits_pos : 0 < NBits) (NBits_max : NBits + 63 < 2 ^ 64).

Lemma arr_size_eq : arr_size NBits = (NBits + 63) / 64.
Proof. unfold arr_size, to_size_t. rewrite Z.mod_small; [reflexivity | lia]. Qed.

Lemma arr_size_ceil : 64 * (arr_size NBits - 1) < NBits <= 64 * arr_size NBits.
Proof.
  rewrite arr_size_eq.
  pose proof (Z.div_mod (NBits + 63) 64 ltac:(lia)).
  pose proof (Z.mod_pos_bound (NBits + 63) 64 ltac:(lia)). lia.
Qed.

Lemma arr_size_pos : 0 < arr_size NBits.
Proof. pose proof arr_size_ceil. lia. Qed.

Lemma arr_size_small : NBits <= 64 -> arr_size NBits = 1.
Proof. pose proof arr_size_ceil. lia. Qed.

Lemma bits_in_storage_eq :
  bits_in_storage NBits = arr_size NBits * bits_per_word NBits.
Proof.
  unfold bits_in_storage, sizeof_storage, to_size_t.
  pose proof arr_size_ceil as Hc.
  destruct (bits_per_word_cases NBits) as [[? E]|[[? E]|[[? E]|[? E]]]]; rewrite E;
    try (rewrite (arr_size_small ltac:(lia)); reflexivity).
  change (64 / 8) with 8. rewrite Z.mod_small; lia.
Qed.

Lemma storage_covers : NBits <= bits_in_storage NBits.
Proof.
  rewrite bits_in_storage_eq. pose proof arr_size_ceil.
  destruct (bits_per_word_cases NBits) as [[? E]|[[? E]|[[? E]|[? E]]]]; rewrite E;
    try (rewrite (arr_size_small ltac:(lia)); lia). lia.
Qed.

Lemma msb_word_start : (arr_size NBits - 1) * bits_per_word NBits < NBits.
Proof.
  pose proof arr_size_ceil.
  destruct (bits_per_word_cases NBits) as [[? E]|[[? E]|[[? E]|[? E]]]]; rewrite E;
    try (rewrite (arr_size_small ltac:(lia)); lia). lia.
Qed.

Lemma which_word_in_bounds pos :
  0 <= pos < NBits -> 0 <= which_word NBits pos < arr_size NBits.
Proof.
  intros Hp. unfold which_word.
  pose proof (bits_per_word_pos NBits) as Hw.
  pose proof storage_covers as Hs. rewrite bits_in_storage_eq in Hs.
  split; [apply Z.div_pos; lia|].
  apply Z.div_lt_upper_bound; lia.
Qed.

Lemma which_bit_bound pos : 0 <= which_bit NBits pos < bits_per_word NBits.
Proof. apply Z.mod_pos_bound, bits_per_word_pos. Qed.

Lemma msb_index_eq : to_size_t (arr_size NBits - 1) = arr_size NBits - 1.
Proof.
  unfold to_size_t. pose proof arr_size_ceil. rewrite Z.mod_small; lia.
Qed.
End Layout.

(** ** Words and single bits *)

Lemma to_bool_testbit w : to_bool w = Z.testbit w 0.
Proof.
  unfold to_bool. change 1 with (Z.ones 1). rewrite Z.land_ones by lia.
  change (2 ^ 1) with 2. rewrite <- Z.bit0_mod.
  destruct (Z.testbit w 0); reflexivity.
Qed.

Lemma to_word_testbit NBits x j :
  0 <= j < bits_per_word NBits -> Z.testbit (to_word NBits x) j = Z.testbit x j.
Proof. intros Hj. unfold to_word. apply Z.mod_pow2_bits_low. lia. Qed.

Lemma to_word_range NBits x : 0 <= to_word NBits x < 2 ^ bits_per_word NBits.
Proof. apply Z.mod_pos_bound, pow2_bits_per_word_pos. Qed.

Lemma to_word_small NBits x :
  0 <= x < 2 ^ bits_per_word NBits -> to_word NBits x = x.
Proof. apply Z.mod_small. Qed.

Lemma shifted_word_bit NBits w k :
  0 <= k -> to_bool (to_word NBits (Z.shiftr w k)) = Z.testbit w k.
Proof.
  intros Hk. rewrite to_bool_testbit, to_word_testbit.
  - rewrite Z.shiftr_spec by lia. reflexivity.
  - pose proof (bits_per_word_pos NBits). lia.
Qed.

Lemma mask_bit_testbit NBits pos j :
  0 <= j < bits_per_word NBits ->
  Z.testbit (mask_bit NBits pos) j = (j =? which_bit NBits pos).
Proof.
  intros Hj. unfold mask_bit. rewrite to_word_testbit by assumption.
  pose proof (which_bit_bound NBits pos).
  rewrite Z.shiftl_1_l, Z.pow2_bits_eqb by lia. apply Z.eqb_sym.
Qed.

Lemma at_index_Ok (a : list Z) i :
  0 <= i < Z.of_nat (length a) ->
  exists w, a !! Z.to_nat i = Some w /\ at_index a i = Ok w.
Proof.
  intros Hi. unfold at_index.
  destruct (lookup_lt_is_Some_2 a (Z.to_nat i) ltac:(lia)) as [w Hw].
  exists w. split; [assumption|].
  replace ((0 <=? i) && (i <? Z.of_nat (length a))) with true by (symmetry; apply andb_true_iff; lia).
  rewrite Hw. reflexivity.
Qed.

Lemma store_index_Ok (a : list Z) i v :
  0 <= i < Z.of_nat (length a) ->
  store_index a i v = Ok (<[Z.to_nat i := v]> a).
Proof.
  intros Hi. unfold store_index.
  replace ((0 <=? i) && (i <? Z.of_nat (length a))) with true by (symmetry; apply andb_true_iff; lia).
  reflexivity.
Qed.

(** Positions are decomposed into a word index and a bit index. *)
Lemma position_split w p q :
  0 < w -> p / w = q / w -> p mod w = q mod w -> p = q.
Proof.
  intros Hw Hd Hm.
  rewrite (Z.div_mod p w), (Z.div_mod q w) by lia. congruence.
Qed.

Lemma storage_bit_insert NBits (bits : list Z) i v p :
  0 <= i < Z.of_nat (length bits) -> 0 <= p ->
  storage_bit NBits (<[Z.to_nat i := v]> bits) p =
    if p / bits_per_word NBits =? i
    then Z.testbit v (p mod bits_per_word NBits)
    else storage_bit NBits bits p.
Proof.
  intros Hi Hp. unfold storage_bit.
  pose proof (bits_per_word_pos NBits) as Hw.
  assert (0 <= p / bits_per_word NBits) by (apply Z.div_pos; lia).
  destruct (Z.eqb_spec (p / bits_per_word NBits) i) as [->|Hne].
  - rewrite list_lookup_insert_eq by lia. reflexivity.
  - rewrite list_lookup_insert_ne by lia. reflexivity.
Qed.

Section SingleBit.
Context (NBits : Z) (NBits_pos : 0 < NBits) (NBits_max : NBits + 63 < 2 ^ 64).
Context (bits : list Z) (shape : Z.of_nat (length bits) = arr_size NBits).

Lemma get_word_Ok pos :
  0 <= pos < NBits ->
  exists w, bits !! Z.to_nat (which_word NBits pos) = Some w /\
            get_word NBits bits pos = Ok w.
Proof using NBits_pos NBits_max shape.
  intros Hp. unfold get_word, size.
  destruct (Z.ltb_spec pos NBits); [|lia].
  apply at_index_Ok. rewrite shape. apply which_word_in_bounds; assumption.
Qed.

Lemma test_storage_bit pos :
  0 <= pos < NBits -> test NBits bits pos = Ok (storage_bit NBits bits pos).
Proof using NBits_pos NBits_max shape.
  intros Hp. unfold test.
  destruct (get_word_Ok pos Hp) as (w & Hl & ->).
  rewrite result_bind_Ok, shifted_word_bit by apply which_bit_bound.
  unfold storage_bit, which_word, which_bit in *. rewrite Hl. reflexivity.
Qed.

Lemma set_bit_spec pos value :
  0 <= pos < NBits ->
  exists bits', set_bit NBits bits pos value = Ok bits' /\
    length bits' = length bits /\
    forall p, 0 <= p ->
      storage_bit NBits bits' p = if p =? pos then value else storage_bit NBits bits p.
Proof using NBits_pos NBits_max shape.
  intros Hp. unfold set_bit.
  destruct (get_word_Ok pos Hp) as (w & Hl & ->).
  pose proof (which_word_in_bounds NBits NBits_pos NBits_max pos Hp) as Hw.
  rewrite result_bind_Ok, store_index_Ok by lia.
  eexists. split; [reflexivity|]. split; [apply length_insert|].
  intros p Hp0. rewrite storage_bit_insert by lia.
  pose proof (bits_per_word_pos NBits) as Hbw.
  pose proof (Z.mod_pos_bound p (bits_per_word NBits) Hbw) as Hpm.
  unfold which_word in *.
  destruct (Z.eqb_spec (p / bits_per_word NBits) (pos / bits_per_word NBits)) as [Hd|Hd].
  - assert (Hsame : storage_bit NBits bits p = Z.testbit w (p mod bits_per_word NBits)).
    { unfold storage_bit. rewrite Hd, Hl. reflexivity. }
    destruct value; rewrite to_word_testbit by assumption.
    + rewrite Z.lor_spec, mask_bit_testbit by assumption. unfold which_bit.
      destruct (Z.eqb_spec p pos) as [->|Hne].
      * rewrite Z.eqb_refl. apply orb_true_r.
      * destruct (Z.eqb_spec (p mod bits_per_word NBits) (pos mod bits_per_word NBits)) as [Hm|Hm].
        -- exfalso. apply Hne. eapply position_split; eassumption.
        -- rewrite orb_false_r. symmetry. exact Hsame.
    + rewrite Z.land_spec, Z.lnot_spec, mask_bit_testbit by lia. unfold which_bit.
      destruct (Z.eqb_spec p pos) as [->|Hne].
      * rewrite Z.eqb_refl. apply andb_false_r.
      * destruct (Z.eqb_spec (p mod bits_per_word NBits) (pos mod bits_per_word NBits)) as [Hm|Hm].
        -- exfalso. apply Hne. eapply position_split; eassumption.
        -- rewrite andb_true_r. symmetry. exact Hsame.
  - destruct (Z.eqb_spec p pos) as [->|Hne]; [congruence | reflexivity].
Qed.

Lemma flip_bit_spec pos :
  0 <= pos < NBits ->
  exists bits', flip_bit NBits bits pos = Ok bits' /\
    length bits' = length bits /\
    forall p, 0 <= p ->
      storage_bit NBits bits' p =
        if p =? pos then negb (storage_bit NBits bits p) else storage_bit NBits bits p.
Proof using NBits_pos NBits_max shape.
  intros Hp. unfold flip_bit.
  destruct (get_word_Ok pos Hp) as (w & Hl & ->).
  pose proof (which_word_in_bounds NBits NBits_pos NBits_max pos Hp) as Hw.
  rewrite result_bind_Ok, store_index_Ok by lia.
  eexists. split; [reflexivity|]. split; [apply length_insert|].
  intros p Hp0. rewrite storage_bit_insert by lia.
  pose proof (bits_per_word_pos NBits) as Hbw.
  pose proof (Z.mod_pos_bound p (bits_per_word NBits) Hbw) as Hpm.
  unfold which_word in *.
  destruct (Z.eqb_spec (p / bits_per_word NBits) (pos / bits_per_word NBits)) as [Hd|Hd].
  - assert (Hsame : storage_bit NBits bits p = Z.testbit w (p mod bits_per_word NBits)).
    { unfold storage_bit. rewrite Hd, Hl. reflexivity. }
    rewrite to_word_testbit, Z.lxor_spec, mask_bit_testbit by assumption.
    unfold which_bit. rewrite Hsame.
    destruct (Z.eqb_spec p pos) as [->|Hne].
    + rewrite Z.eqb_refl. apply xorb_true_r.
    + destruct (Z.eqb_spec (p mod bits_per_word NBits) (pos mod bits_per_word NBits)) as [Hm|Hm].
      * exfalso. apply Hne. eapply position_split; eassumption.
      * apply xorb_false_r.
  - destruct (Z.eqb_spec p pos) as [->|Hne]; [congruence | reflexivity].
Qed.
End SingleBit.

Lemma storage_bit_reset NBits (bits : list Z) p :
  storage_bit NBits (map (fun _ => all_zero) bits) p = false.
Proof.
  unfold storage_bit. rewrite list_lookup_fmap.
  destruct (bits !! Z.to_nat (p / bits_per_word NBits)); simpl; [apply Z.testbit_0_l | reflexivity].
Qed.

(** ** Single-bit operations *)

(** C4: for every size and every position [pos] below it, after [reset()]
    and then [set(pos)], [test(pos)] is true and [test(q)] is false for
    every other position [q] below the size. *)
Theorem reset_then_set_isolates_bit (NBits : Z) (bits : list Z) (pos : Z) :
  0 < NBits -> NBits + 63 < 2 ^ 64 ->
  Z.of_nat (length bits) = arr_size NBits ->
  0 <= pos < NBits ->
  exists b, (reset_all bits ≫= fun b0 => set_bit NBits b0 pos true) = Ok b /\
    test NBits b pos = Ok true /\
    forall q, 0 <= q < NBits -> q <> pos -> test NBits b q = Ok false.
Proof.
  intros Hpos Hmax Hshape Hp. unfold reset_all. rewrite result_bind_Ok.
  assert (Hshape0 : Z.of_nat (length (map (fun _ : Z => all_zero) bits)) = arr_size NBits)
    by (rewrite length_map; exact Hshape).
  destruct (set_bit_spec NBits Hpos Hmax _ Hshape0 pos true Hp) as (b & Hb & Hlen & Hbits).
  exists b. split; [exact Hb|].
  assert (Hshape1 : Z.of_nat (length b) = arr_size NBits) by congruence.
  split.
  - rewrite (test_storage_bit NBits Hpos Hmax b Hshape1 pos Hp), Hbits by lia.
    rewrite Z.eqb_refl. reflexivity.
  - intros q Hq Hne.
    rewrite (test_storage_bit NBits Hpos Hmax b Hshape1 q Hq), Hbits by lia.
    destruct (Z.eqb_spec q pos); [contradiction|].
    rewrite storage_bit_reset. reflexivity.
Qed.

Lemma reset_then_set_isolates_bit_witness :
  exists b, (reset_all [5; 7] ≫= fun b0 => set_bit 70 b0 66 true) = Ok b /\
    test 70 b 66 = Ok true /\
    forall q, 0 <= q < 70 -> q <> 66 -> test 70 b q = Ok false.
Proof.
  apply (reset_then_set_isolates_bit 70 [5; 7] 66); [lia | lia | reflexivity | lia].
Defined.

(** C9: an index at or beyond the size makes [test], [set(pos)],
    [reset(pos)] and [flip(pos)] stop at the assertion in [get_word]; no
    value is returned and the index is neither wrapped nor clamped.  For
    an index below the size the assertion passes and the word index
    [pos / bits_per_word] lies inside the storage array, so each of the
    four operations completes. *)
Theorem index_contract (NBits : Z) :
  0 < NBits -> NBits + 63 < 2 ^ 64 ->
  (forall bits pos value, NBits <= pos ->
     test NBits bits pos = AssertFail /\
     set_bit NBits bits pos value = AssertFail /\
     reset_bit NBits bits pos = AssertFail /\
     flip_bit NBits bits pos = AssertFail) /\
  (forall bits pos value,
     Z.of_nat (length bits) = arr_size NBits -> 0 <= pos < NBits ->
     0 <= which_word NBits pos < arr_size NBits /\
     (exists w, get_word NBits bits pos = Ok w) /\
     (exists r, test NBits bits pos = Ok r) /\
     (exists b, set_bit NBits bits pos value = Ok b) /\
     (exists b, reset_bit NBits bits pos = Ok b) /\
     (exists b, flip_bit NBits bits pos = Ok b)).
Proof.
  intros Hpos Hmax. split.
  - intros bits pos value Hge.
    assert (Hg : get_word NBits bits pos = AssertFail).
    { unfold get_word, size. destruct (Z.ltb_spec pos NBits); [lia | reflexivity]. }
    unfold test, reset_bit, set_bit, flip_bit. rewrite Hg. repeat split; reflexivity.
  - intros bits pos value Hshape Hp. split; [apply which_word_in_bounds; assumption|].
    destruct (get_word_Ok NBits Hpos Hmax bits Hshape pos Hp) as (w & _ & Hw).
    destruct (set_bit_spec NBits Hpos Hmax bits Hshape pos value Hp) as (b1 & H1 & _).
    destruct (set_bit_spec NBits Hpos Hmax bits Hshape pos false Hp) as (b2 & H2 & _).
    destruct (flip_bit_spec NBits Hpos Hmax bits Hshape pos Hp) as (b3 & H3 & _).
    repeat split; eauto.
    rewrite (test_storage_bit NBits Hpos Hmax bits Hshape pos Hp). eauto.
Qed.

Lemma index_contract_witness :
  (test 9 [0x01FF] 9 = AssertFail /\
   set_bit 9 [0x01FF] 9 true = AssertFail /\
   reset_bit 9 [0x01FF] 9 = AssertFail /\
   flip_bit 9 [0x01FF] 9 = AssertFail) /\
  (0 <= which_word 9 8 < arr_size 9 /\
   (exists w, get_word 9 [0x01FF] 8 = Ok w) /\
   (exists r, test 9 [0x01FF] 8 = Ok r) /\
   (exists b, set_bit 9 [0x01FF] 8 true = Ok b) /\
   (exists b, reset_bit 9 [0x01FF] 8 = Ok b) /\
   (exists b, flip_bit 9 [0x01FF] 8 = Ok b)).
Proof.
  destruct (index_contract 9) as [Hbad Hok]; [lia | lia |].
  split; [apply Hbad; lia | apply Hok; [reflexivity | lia]].
Defined.

(** C10: the single-bit mutators leave every other position alone: for
    distinct positions [pos] and [q] below the size, [test(q)] gives the
    same answer after [set(pos, value)], [reset(pos)] or [flip(pos)] as
    before. *)
Theorem single_bit_frame (NBits : Z) (bits : list Z) (pos q : Z) (value : bool) :
  0 < NBits -> NBits + 63 < 2 ^ 64 ->
  Z.of_nat (length bits) = arr_size NBits ->
  0 <= pos < NBits -> 0 <= q < NBits -> q <> pos ->
  (exists b, set_bit NBits bits pos value = Ok b /\ test NBits b q = test NBits bits q) /\
  (exists b, reset_bit NBits bits pos = Ok b /\ test NBits b q = test NBits bits q) /\
  (exists b, flip_bit NBits bits pos = Ok b /\ test NBits b q = test NBits bits q).
Proof.
  intros Hpos Hmax Hshape Hp Hq Hne.
  assert (Hset : forall v, exists b,
    set_bit NBits bits pos v = Ok b /\ test NBits b q = test NBits bits q).
  { intros v.
    destruct (set_bit_spec NBits Hpos Hmax bits Hshape pos v Hp) as (b & Hb & Hlen & Hbits).
    exists b. split; [exact Hb|].
    rewrite (test_storage_bit NBits Hpos Hmax b ltac:(congruence) q Hq).
    rewrite (test_storage_bit NBits Hpos Hmax bits Hshape q Hq), Hbits by lia.
    destruct (Z.eqb_spec q pos); [contradiction | reflexivity]. }
  split; [apply Hset|]. split; [apply Hset|].
  destruct (flip_bit_spec NBits Hpos Hmax bits Hshape pos Hp) as (b & Hb & Hlen & Hbits).
  exists b. split; [exact Hb|].
  rewrite (test_storage_bit NBits Hpos Hmax b ltac:(congruence) q Hq).
  rewrite (test_storage_bit NBits Hpos Hmax bits Hshape q Hq), Hbits by lia.
  destruct (Z.eqb_spec q pos); [contradiction | reflexivity].
Qed.

Lemma single_bit_frame_witness :
  (exists b, set_bit 65 [0xF0; 1] 64 false = Ok b /\ test 65 b 4 = test 65 [0xF0; 1] 4) /\
  (exists b, reset_bit 65 [0xF0; 1] 64 = Ok b /\ test 65 b 4 = test 65 [0xF0; 1] 4) /\
  (exists b, flip_bit 65 [0xF0; 1] 64 = Ok b /\ test 65 b 4 = test 65 [0xF0; 1] 4).
Proof.
  apply (single_bit_frame 65 [0xF0; 1] 64 4 false); [lia | lia | reflexivity | lia | lia | lia].
Defined.

(** ** Storage size *)

Lemma ceil_div_64 n : ceil_div n 64 = (n + 63) / 64.
Proof.
  unfold ceil_div.
  pose proof (Z.div_mod (- n) 64 ltac:(lia)).
  pose proof (Z.mod_pos_bound (- n) 64 ltac:(lia)).
  pose proof (Z.div_mod (n + 63) 64 ltac:(lia)).
  pose proof (Z.mod_pos_bound (n + 63) 64 ltac:(lia)).
  lia.
Qed.

(** C8, as stated, fails: [Bitset<1>] occupies one byte, not the eight
    bytes of a whole 64-bit block. *)
Lemma footprint_not_whole_blocks : sizeof_storage 1 <> 8 * ceil_div 1 64.
Proof. vm_compute. discriminate. Qed.

(** C8, amended: the array has [ceil(NBits / 64)] words, and its footprint
    is that many words of [bits_per_word / 8] bytes: [8 * ceil(NBits / 64)]
    bytes when [NBits > 32], and 4, 2 or 1 bytes for [NBits] in 17..32,
    9..16 and 1..8; this agrees with the size table checked in the
    source. *)
Theorem storage_footprint (NBits : Z) :
  0 < NBits -> NBits + 63 < 2 ^ 64 ->
  arr_size NBits = ceil_div NBits 64 /\
  sizeof_storage NBits =
    (if 32 <? NBits then 8 * ceil_div NBits 64
     else if 16 <? NBits then 4
     else if 8 <? NBits then 2
     else 1) /\
  map sizeof_storage [1; 8; 9; 16; 17; 32; 33; 64; 65; 128]
    = [1; 1; 2; 2; 4; 4; 8; 8; 16; 16].
Proof.
  intros Hpos Hmax. rewrite ceil_div_64, <- arr_size_eq by assumption.
  split; [reflexivity|]. split; [|reflexivity].
  unfold sizeof_storage, bits_per_word.
  destruct (Z.ltb_spec 32 NBits); [change (64 / 8) with 8; lia|].
  rewrite (arr_size_small NBits Hpos Hmax) by lia.
  destruct (Z.ltb_spec 16 NBits); [reflexivity|].
  destruct (Z.ltb_spec 8 NBits); reflexivity.
Qed.

Lemma storage_footprint_witness :
  arr_size 200 = ceil_div 200 64 /\
  sizeof_storage 200 =
    (if 32 <? 200 then 8 * ceil_div 200 64
     else if 16 <? 200 then 4
     else if 8 <? 200 then 2
     else 1) /\
  map sizeof_storage [1; 8; 9; 16; 17; 32; 33; 64; 65; 128]
    = [1; 1; 2; 2; 4; 4; 8; 8; 16; 16].
Proof. apply (storage_footprint 200); lia. Defined.

(** ** The most-significant-word mask *)

Section MsbMask.
Context (NBits : Z) (NBits_pos : 0 < NBits) (NBits_max : NBits + 63 < 2 ^ 64).

Lemma msb_word_bits_range : 0 < msb_word_bits NBits <= bits_per_word NBits.
Proof using NBits_pos NBits_max.
  unfold msb_word_bits.
  pose proof (msb_word_start NBits NBits_pos NBits_max).
  pose proof (storage_covers NBits NBits_pos NBits_max) as Hc.
  rewrite bits_in_storage_eq in Hc by assumption. lia.
Qed.

Lemma full_storage_iff :
  NBits = bits_in_storage NBits <-> msb_word_bits NBits = bits_per_word NBits.
Proof using NBits_pos NBits_max.
  rewrite bits_in_storage_eq by assumption. unfold msb_word_bits. lia.
Qed.

Lemma partial_word_bits :
  NBits <> bits_in_storage NBits ->
  to_size_t NBits mod bits_per_word NBits = msb_word_bits NBits.
Proof using NBits_pos NBits_max.
  intros Hne. unfold to_size_t. rewrite (Z.mod_small NBits) by lia.
  pose proof msb_word_bits_range as Hr.
  assert (msb_word_bits NBits <> bits_per_word NBits) by (rewrite <- full_storage_iff; exact Hne).
  unfold msb_word_bits in *.
  symmetry. apply (Z.mod_unique _ _ (arr_size NBits - 1)); lia.
Qed.

(** Where the [int] computation stays in range the mask keeps exactly
    the logical bits of the last word. *)
Lemma get_msb_mask_defined :
  NBits mod bits_per_word NBits < 31 ->
  get_msb_mask NBits = Ok (Z.ones (msb_word_bits NBits)).
Proof using NBits_pos NBits_max.
  intros Hk. unfold get_msb_mask.
  pose proof msb_word_bits_range as Hr.
  destruct (Z.eqb_spec NBits (bits_in_storage NBits)) as [Hfull|Hpart].
  - apply full_storage_iff in Hfull. rewrite Hfull.
    unfold all_ones. rewrite Z.ones_equiv. f_equal; lia.
  - pose proof (partial_word_bits Hpart) as Hm. rewrite Hm.
    unfold to_size_t in Hm. rewrite (Z.mod_small NBits) in Hm by lia.
    rewrite Hm in Hk.
    assert (Hpow : 0 < 2 ^ msb_word_bits NBits <= 2 ^ 30).
    { split; [apply Z.pow_pos_nonneg; lia | apply Z.pow_le_mono_r; lia]. }
    unfold int_shl.
    replace ((0 <=? msb_word_bits NBits) && (msb_word_bits NBits <? 32)) with true
      by (symmetry; apply andb_true_iff; lia).
    rewrite result_bind_Ok. unfold wrap_int.
    rewrite Z.mul_1_l, Z.mod_small by lia.
    unfold int_sub, in_int, int_min, int_max.
    replace ((- 2 ^ 31 <=? 2 ^ msb_word_bits NBits + 2 ^ 31 - 2 ^ 31 - 1)
             && (2 ^ msb_word_bits NBits + 2 ^ 31 - 2 ^ 31 - 1 <=? 2 ^ 31 - 1)) with true
      by (symmetry; apply andb_true_iff; lia).
    rewrite result_bind_Ok. f_equal. rewrite Z.ones_equiv.
    rewrite to_word_small; [lia|].
    assert (2 ^ msb_word_bits NBits <= 2 ^ bits_per_word NBits)
      by (apply Z.pow_le_mono_r; lia).
    lia.
Qed.

(** Everywhere else the [int] computation leaves the defined range. *)
Lemma get_msb_mask_undefined :
  31 <= NBits mod bits_per_word NBits -> get_msb_mask NBits = Undefined.
Proof using NBits_pos NBits_max.
  intros Hk. unfold get_msb_mask.
  destruct (Z.eqb_spec NBits (bits_in_storage NBits)) as [Hfull|Hpart].
  - exfalso. rewrite bits_in_storage_eq in Hfull by assumption.
    pose proof (bits_per_word_pos NBits) as Hw.
    pose proof (Z.mod_mul (arr_size NBits) (bits_per_word NBits) ltac:(lia)) as Hz.
    rewrite <- Hfull in Hz. lia.
  - unfold to_size_t. rewrite (Z.mod_small NBits) by lia.
    unfold int_shl.
    destruct (Z.ltb_spec (NBits mod bits_per_word NBits) 32) as [Hlt|Hge].
    + assert (E : NBits mod bits_per_word NBits = 31) by lia. rewrite E. reflexivity.
    + rewrite andb_false_r. reflexivity.
Qed.
End MsbMask.

(** C3: [get_msb_mask] gives the values the source checks (0xFF for 8,
    0x01FF for 9, all 64 bits for 64, 0x0001 for 65), but for
    [Bitset<33>] the expression [(1 << 33) - 1] shifts a 32-bit [int] by
    33 places, which has no defined value, where the claim expects the
    low 33 bits set. *)
Theorem get_msb_mask_int_shift :
  map get_msb_mask [8; 9; 64; 65]
    = [Ok 0xFF; Ok 0x01FF; Ok 0xFFFFFFFFFFFFFFFF; Ok 0x0001] /\
  bits_per_word 33 = 64 /\ bits_in_storage 33 = 64 /\
  int_shl 1 (to_size_t 33 mod bits_per_word 33) = Undefined /\
  get_msb_mask 33 = Undefined.
Proof. vm_compute. repeat split; reflexivity. Qed.

(** ** Masking the last word *)

Lemma storage_bit_out_of_range NBits (bits : list Z) p :
  Z.of_nat (length bits) * bits_per_word NBits <= p -> storage_bit NBits bits p = false.
Proof.
  intros Hp. unfold storage_bit.
  pose proof (bits_per_word_pos NBits) as Hw.
  rewrite lookup_ge_None_2; [reflexivity|].
  assert (Z.of_nat (length bits) <= p / bits_per_word NBits)
    by (apply Z.div_le_lower_bound; lia).
  lia.
Qed.

Section Masking.
Context (NBits : Z) (NBits_pos : 0 < NBits) (NBits_max : NBits + 63 < 2 ^ 64).
Context (mask_in_range : NBits mod bits_per_word NBits < 31).
Context (bits : list Z) (shape : Z.of_nat (length bits) = arr_size NBits).

Lemma mask_msb_word_spec :
  exists w, bits !! Z.to_nat (arr_size NBits - 1) = Some w /\
    mask_msb_word NBits bits =
      Ok (<[Z.to_nat (arr_size NBits - 1) := Z.land w (Z.ones (msb_word_bits NBits))]> bits).
Proof using NBits_pos NBits_max mask_in_range shape.
  unfold mask_msb_word, get_msb_word.
  rewrite (get_msb_mask_defined NBits NBits_pos NBits_max mask_in_range), result_bind_Ok.
  rewrite msb_index_eq by assumption.
  pose proof (arr_size_pos NBits NBits_pos NBits_max).
  destruct (at_index_Ok bits (arr_size NBits - 1) ltac:(lia)) as (w & Hl & ->).
  exists w. split; [exact Hl|].
  rewrite result_bind_Ok. apply store_index_Ok. lia.
Qed.

Lemma mask_msb_word_bits :
  exists bits', mask_msb_word NBits bits = Ok bits' /\
    length bits' = length bits /\
    forall p, 0 <= p ->
      storage_bit NBits bits' p = storage_bit NBits bits p && (p <? NBits).
Proof using NBits_pos NBits_max mask_in_range shape.
  destruct mask_msb_word_spec as (w & Hl & ->).
  eexists. split; [reflexivity|]. split; [apply length_insert|].
  intros p Hp.
  pose proof (arr_size_pos NBits NBits_pos NBits_max) as Ha.
  pose proof (bits_per_word_pos NBits) as Hw.
  pose proof (msb_word_bits_range NBits NBits_pos NBits_max) as Hr.
  pose proof (Z.mod_pos_bound p (bits_per_word NBits) Hw) as Hpm.
  pose proof (Z.div_mod p (bits_per_word NBits) ltac:(lia)) as Hdm.
  rewrite storage_bit_insert by lia.
  destruct (Z.eqb_spec (p / bits_per_word NBits) (arr_size NBits - 1)) as [Hd|Hd].
  - rewrite Z.land_spec, Z.testbit_ones_nonneg by lia.
    unfold storage_bit. rewrite Hd, Hl. simpl. f_equal.
    unfold msb_word_bits. rewrite Hd in Hdm.
    destruct (Z.ltb_spec (p mod bits_per_word NBits)
                (NBits - (arr_size NBits - 1) * bits_per_word NBits));
      destruct (Z.ltb_spec p NBits); try reflexivity; lia.
  - destruct (Z.ltb_spec p NBits) as [Hlt|Hge]; [symmetry; apply andb_true_r|].
    rewrite andb_false_r. apply storage_bit_out_of_range.
    rewrite shape.
    assert (arr_size NBits - 1 <= p / bits_per_word NBits).
    { apply Z.div_le_lower_bound; [lia|].
      pose proof (msb_word_start NBits NBits_pos NBits_max). lia. }
    assert (arr_size NBits <= p / bits_per_word NBits) by lia.
    nia.
Qed.

End Masking.

Lemma all_ones_ones NBits : all_ones NBits = Z.ones (bits_per_word NBits).
Proof. unfold all_ones. rewrite Z.ones_equiv. lia. Qed.

Section BulkSet.
Context (NBits : Z) (NBits_pos : 0 < NBits) (NBits_max : NBits + 63 < 2 ^ 64).
Context (bits : list Z) (shape : Z.of_nat (length bits) = arr_size NBits).

Lemma storage_bit_all_ones p :
  0 <= p < bits_in_storage NBits ->
  storage_bit NBits (map (fun _ => all_ones NBits) bits) p = true.
Proof using NBits_pos NBits_max shape.
  intros Hp. rewrite bits_in_storage_eq in Hp by assumption.
  pose proof (bits_per_word_pos NBits) as Hw.
  unfold storage_bit. rewrite list_lookup_fmap.
  assert (0 <= p / bits_per_word NBits < arr_size NBits)
    by (split; [apply Z.div_pos; lia | apply Z.div_lt_upper_bound; lia]).
  destruct (lookup_lt_is_Some_2 bits (Z.to_nat (p / bits_per_word NBits)) ltac:(lia)) as [w ->].
  simpl. rewrite all_ones_ones.
  pose proof (Z.mod_pos_bound p (bits_per_word NBits) Hw).
  rewrite Z.testbit_ones_nonneg by lia. apply Z.ltb_lt. lia.
Qed.

(** [set()]: exactly the positions below [NBits] are set. *)
Lemma set_all_bits :
  NBits mod bits_per_word NBits < 31 ->
  exists bits', set_all NBits bits = Ok bits' /\
    length bits' = length bits /\
    forall p, 0 <= p -> storage_bit NBits bits' p = (p <? NBits).
Proof using NBits_pos NBits_max shape.
  intros Hmask. unfold set_all.
  destruct (mask_msb_word_bits NBits NBits_pos NBits_max Hmask
              (map (fun _ => all_ones NBits) bits))
    as (b & Hb & Hlen & Hbits); [rewrite length_map; exact shape|].
  exists b. split; [exact Hb|]. split; [rewrite Hlen; apply length_map|].
  intros p Hp. rewrite Hbits by assumption.
  destruct (Z.ltb_spec p NBits) as [Hlt|Hge]; [|apply andb_false_r].
  rewrite storage_bit_all_ones; [reflexivity|].
  pose proof (storage_covers NBits NBits_pos NBits_max). lia.
Qed.
End BulkSet.

(** ** The MSB masking invariant *)

Lemma default_bits_invariant NBits : msb_invariant NBits (default_bits NBits).
Proof.
  intros p _. unfold storage_bit, default_bits.
  destruct (replicate _ _ !! _) as [w|] eqn:E; [|reflexivity].
  apply lookup_replicate_1 in E as [-> _]. apply Z.testbit_0_l.
Qed.

Lemma reset_all_invariant NBits (bits : list Z) :
  msb_invariant NBits (map (fun _ => all_zero) bits).
Proof. intros p _. apply storage_bit_reset. Qed.

Section Invariant.
Context (NBits : Z) (NBits_pos : 0 < NBits) (NBits_max : NBits + 63 < 2 ^ 64).
Context (bits : list Z) (shape : Z.of_nat (length bits) = arr_size NBits).

Lemma mask_msb_word_invariant bits' :
  NBits mod bits_per_word NBits < 31 ->
  mask_msb_word NBits bits = Ok bits' -> msb_invariant NBits bits'.
Proof using NBits_pos NBits_max shape.
  intros Hmask Hrun p Hp.
  destruct (mask_msb_word_bits NBits NBits_pos NBits_max Hmask bits shape)
    as (b & Hb & _ & Hbits).
  assert (b = bits') by congruence. subst b.
  rewrite Hbits by lia.
  destruct (Z.ltb_spec p NBits); [lia | apply andb_false_r].
Qed.

Lemma set_bit_invariant pos value bits' :
  msb_invariant NBits bits -> 0 <= pos ->
  set_bit NBits bits pos value = Ok bits' -> msb_invariant NBits bits'.
Proof using NBits_pos NBits_max shape.
  intros Hinv Hp0 Hrun p Hp.
  destruct (Z.ltb_spec pos NBits) as [Hlt|Hge].
  - destruct (set_bit_spec NBits NBits_pos NBits_max bits shape pos value ltac:(lia))
      as (b & Hb & _ & Hbits).
    assert (b = bits') by congruence. subst b.
    rewrite Hbits by lia. destruct (Z.eqb_spec p pos); [lia | apply Hinv; lia].
  - unfold set_bit, get_word, size in Hrun.
    destruct (Z.ltb_spec pos NBits); [lia | discriminate].
Qed.

Lemma flip_bit_invariant pos bits' :
  msb_invariant NBits bits -> 0 <= pos ->
  flip_bit NBits bits pos = Ok bits' -> msb_invariant NBits bits'.
Proof using NBits_pos NBits_max shape.
  intros Hinv Hp0 Hrun p Hp.
  destruct (Z.ltb_spec pos NBits) as [Hlt|Hge].
  - destruct (flip_bit_spec NBits NBits_pos NBits_max bits shape pos ltac:(lia))
      as (b & Hb & _ & Hbits).
    assert (b = bits') by congruence. subst b.
    rewrite Hbits by lia. destruct (Z.eqb_spec p pos); [lia | apply Hinv; lia].
  - unfold flip_bit, get_word, size in Hrun.
    destruct (Z.ltb_spec pos NBits); [lia | discriminate].
Qed.

(** The body of [flip()] complements every storage bit, the unused ones
    included. *)
Lemma flip_all_body_bits p :
  0 <= p < bits_in_storage NBits ->
  storage_bit NBits (flip_all_body NBits bits) p = negb (storage_bit NBits bits p).
Proof using NBits_pos NBits_max shape.
  intros Hp. rewrite bits_in_storage_eq in Hp by assumption.
  pose proof (bits_per_word_pos NBits) as Hw.
  unfold storage_bit, flip_all_body. rewrite list_lookup_fmap.
  assert (0 <= p / bits_per_word NBits < arr_size NBits)
    by (split; [apply Z.div_pos; lia | apply Z.div_lt_upper_bound; lia]).
  destruct (lookup_lt_is_Some_2 bits (Z.to_nat (p / bits_per_word NBits)) ltac:(lia)) as [w ->].
  simpl. pose proof (Z.mod_pos_bound p (bits_per_word NBits) Hw).
  rewrite to_word_testbit, Z.lnot_spec by lia. reflexivity.
Qed.

(** So whenever the last word has unused bits, [flip()] on a state that
    satisfies the invariant produces one that does not. *)
Lemma flip_all_body_breaks_invariant :
  NBits <> bits_in_storage NBits ->
  msb_invariant NBits bits -> ~ msb_invariant NBits (flip_all_body NBits bits).
Proof using NBits_pos NBits_max shape.
  intros Hpart Hinv Hflip.
  pose proof (storage_covers NBits NBits_pos NBits_max).
  specialize (Hflip NBits ltac:(lia)).
  rewrite flip_all_body_bits, Hinv in Hflip by lia. discriminate.
Qed.

(** [all()] compares the last word with the full all-ones pattern, which
    a state satisfying the invariant never shows when the last word has
    unused bits. *)
Lemma all_false_when_partial :
  NBits <> bits_in_storage NBits ->
  msb_invariant NBits bits -> all NBits bits = false.
Proof using NBits_pos NBits_max shape.
  intros Hpart Hinv.
  pose proof (storage_covers NBits NBits_pos NBits_max) as Hc.
  pose proof (bits_per_word_pos NBits) as Hw.
  specialize (Hinv NBits ltac:(lia)).
  destruct (all NBits bits) eqn:Hall; [|reflexivity].
  enough (storage_bit NBits bits NBits = true) by congruence.
  clear Hinv. rewrite bits_in_storage_eq in * by assumption.
  unfold storage_bit.
  assert (0 <= NBits / bits_per_word NBits < arr_size NBits)
    by (split; [apply Z.div_pos; lia | apply Z.div_lt_upper_bound; lia]).
  destruct (lookup_lt_is_Some_2 bits (Z.to_nat (NBits / bits_per_word NBits)) ltac:(lia))
    as [w Hl].
  rewrite Hl. simpl.
  unfold all in Hall. rewrite forallb_forall in Hall.
  assert (Hin : In w bits) by (apply list_elem_of_In; eapply list_elem_of_lookup_2; exact Hl).
  apply Hall, Z.eqb_eq in Hin. subst w.
  pose proof (Z.mod_pos_bound NBits (bits_per_word NBits) Hw).
  rewrite all_ones_ones, Z.testbit_ones_nonneg by lia.
  apply Z.ltb_lt. lia.
Qed.
End Invariant.

Lemma get_msb_mask_Ok_in_range NBits m :
  0 < NBits -> NBits + 63 < 2 ^ 64 ->
  get_msb_mask NBits = Ok m -> NBits mod bits_per_word NBits < 31.
Proof.
  intros Hpos Hmax Hm.
  destruct (Z.lt_ge_cases (NBits mod bits_per_word NBits) 31) as [Hlt|Hge]; [exact Hlt|].
  rewrite (get_msb_mask_undefined NBits Hpos Hmax Hge) in Hm. discriminate.
Qed.

Lemma mask_msb_word_Ok NBits (bits bits' : list Z) :
  mask_msb_word NBits bits = Ok bits' ->
  (exists m, get_msb_mask NBits = Ok m) /\ length bits' = length bits.
Proof.
  unfold mask_msb_word.
  destruct (get_msb_mask NBits) as [m| |]; try discriminate.
  rewrite result_bind_Ok.
  destruct (get_msb_word NBits bits) as [w| |]; try discriminate.
  rewrite result_bind_Ok. unfold store_index.
  destruct (_ && _); [|discriminate].
  intros [= <-]. split; [eauto | apply length_insert].
Qed.

Lemma set_bit_length NBits (bits bits' : list Z) pos value :
  set_bit NBits bits pos value = Ok bits' -> length bits' = length bits.
Proof.
  unfold set_bit.
  destruct (get_word NBits bits pos) as [w| |]; try discriminate.
  rewrite result_bind_Ok. unfold store_index.
  destruct (_ && _); [|discriminate].
  intros [= <-]. apply length_insert.
Qed.

Lemma flip_bit_length NBits (bits bits' : list Z) pos :
  flip_bit NBits bits pos = Ok bits' -> length bits' = length bits.
Proof.
  unfold flip_bit.
  destruct (get_word NBits bits pos) as [w| |]; try discriminate.
  rewrite result_bind_Ok. unfold store_index.
  destruct (_ && _); [|discriminate].
  intros [= <-]. apply length_insert.
Qed.

(** Every operation keeps the array at [arr_size] words. *)
Lemma reachable_shape NBits with_flip bits :
  0 < NBits -> NBits + 63 < 2 ^ 64 ->
  reachable NBits with_flip bits -> Z.of_nat (length bits) = arr_size NBits.
Proof.
  intros Hpos Hmax Hreach.
  pose proof (arr_size_pos NBits Hpos Hmax) as Ha.
  induction Hreach as
    [ | v bits Hsmall Hrun | a bits Hbig Hlen Hrun | b bits _ IH Hrun
    | b pos value bits _ IH _ Hrun | b bits _ IH Hrun | b pos bits _ IH _ Hrun
    | b _ _ IH | b pos bits _ IH _ Hrun ].
  - unfold default_bits. rewrite length_replicate. lia.
  - apply mask_msb_word_Ok in Hrun as [_ ->].
    simpl. rewrite length_replicate. lia.
  - apply mask_msb_word_Ok in Hrun as [_ ->]. rewrite length_reverse. exact Hlen.
  - apply mask_msb_word_Ok in Hrun as [_ ->]. rewrite length_map. exact IH.
  - apply set_bit_length in Hrun. congruence.
  - injection Hrun as <-. rewrite length_map. exact IH.
  - apply set_bit_length in Hrun. congruence.
  - unfold flip_all_body. rewrite length_map. exact IH.
  - apply flip_bit_length in Hrun. congruence.
Qed.

(** As long as [flip()] is never called, every reachable state satisfies
    the invariant. *)
Lemma reachable_without_flip_invariant NBits bits :
  0 < NBits -> NBits + 63 < 2 ^ 64 ->
  reachable NBits false bits -> msb_invariant NBits bits.
Proof.
  intros Hpos Hmax Hreach.
  pose proof (arr_size_pos NBits Hpos Hmax) as Ha.
  induction Hreach as
    [ | v bits Hsmall Hrun | a bits Hbig Hlen Hrun | b bits Hb IH Hrun
    | b pos value bits Hb IH Hp Hrun | b bits Hb IH Hrun | b pos bits Hb IH Hp Hrun
    | b Hflag _ _ | b pos bits Hb IH Hp Hrun ].
  - apply default_bits_invariant.
  - destruct (mask_msb_word_Ok _ _ _ Hrun) as [[m Hm] _].
    eapply (mask_msb_word_invariant NBits Hpos Hmax); [| | exact Hrun].
    + simpl. rewrite length_replicate. lia.
    + eapply get_msb_mask_Ok_in_range; eassumption.
  - destruct (mask_msb_word_Ok _ _ _ Hrun) as [[m Hm] _].
    eapply (mask_msb_word_invariant NBits Hpos Hmax); [| | exact Hrun].
    + rewrite length_reverse. exact Hlen.
    + eapply get_msb_mask_Ok_in_range; eassumption.
  - destruct (mask_msb_word_Ok _ _ _ Hrun) as [[m Hm] _].
    eapply (mask_msb_word_invariant NBits Hpos Hmax); [| | exact Hrun].
    + rewrite length_map. eapply reachable_shape; eassumption.
    + eapply get_msb_mask_Ok_in_range; eassumption.
  - eapply (set_bit_invariant NBits Hpos Hmax b); try eassumption.
    eapply reachable_shape; eassumption.
  - injection Hrun as <-. apply reset_all_invariant.
  - eapply (set_bit_invariant NBits Hpos Hmax b); try eassumption.
    eapply reachable_shape; eassumption.
  - discriminate.
  - eapply (flip_bit_invariant NBits Hpos Hmax b); try eassumption.
    eapply reachable_shape; eassumption.
Qed.

(** C1: the invariant is lost in [flip()].  On a default-constructed
    [Bitset<9>] (one 16-bit word) the body of [flip()] leaves all sixteen
    storage bits set, so the reachable state [0xFFFF] has bit 9 set, and
    the call then flows off the end of the function without returning the
    instance; [set()] on the same object masks the word down to [0x01FF]
    and returns.  ([reachable_without_flip_invariant]: no other operation
    breaks the invariant.) *)
Theorem flip_all_skips_mask :
  flip_all_body 9 (default_bits 9) = [0xFFFF] /\
  reachable 9 true [0xFFFF] /\
  storage_bit 9 [0xFFFF] 9 = true /\
  ~ msb_invariant 9 [0xFFFF] /\
  flip_all 9 (default_bits 9) = Undefined /\
  set_all 9 (default_bits 9) = Ok [0x01FF] /\
  msb_invariant 9 [0x01FF].
Proof.
  assert (Hflip : flip_all_body 9 (default_bits 9) = [0xFFFF]) by (vm_compute; reflexivity).
  assert (Hset : set_all 9 (default_bits 9) = Ok [0x01FF]) by (vm_compute; reflexivity).
  split; [exact Hflip|].
  split; [rewrite <- Hflip; apply reach_flip_all; [reflexivity | apply reach_default]|].
  split; [vm_compute; reflexivity|].
  split.
  { intros Hinv. specialize (Hinv 9 ltac:(lia)). vm_compute in Hinv. discriminate. }
  split; [reflexivity|].
  split; [exact Hset|].
  apply (mask_msb_word_invariant 9 ltac:(lia) ltac:(lia) [0xFFFF]);
    [reflexivity | vm_compute; reflexivity | vm_compute; reflexivity].
Qed.

(** C2: [all()] is false on a [Bitset<9>] whose nine logical bits are all
    one: after [set()] the single 16-bit word is [0x01FF], every
    [test(q)] for [q] below 9 is true, yet the word differs from the
    all-ones pattern [0xFFFF] that [all()] compares against. *)
Theorem all_misses_partial_word :
  set_all 9 (default_bits 9) = Ok [0x01FF] /\
  (forall q, 0 <= q < 9 -> test 9 [0x01FF] q = Ok true) /\
  all_ones 9 = 0xFFFF /\
  all 9 [0x01FF] = false.
Proof.
  split; [vm_compute; reflexivity|].
  split; [|split; vm_compute; reflexivity].
  intros q Hq.
  assert (Hcases : q = 0 \/ q = 1 \/ q = 2 \/ q = 3 \/ q = 4 \/ q = 5 \/ q = 6 \/ q = 7 \/ q = 8)
    by lia.
  repeat (destruct Hcases as [-> | Hcases]; [vm_compute; reflexivity|]).
  subst q. vm_compute. reflexivity.
Qed.

(** ** Construction from a word array *)

(** C7, as stated, fails: for [Bitset<65>] built from [{1, 0}] the top
    bit, [test(64)], is one, while the most-significant bit (bit 63) of
    the first element supplied is zero. *)
Lemma top_bit_not_msb_of_first_word :
  (from_array 65 [1; 0] ≫= fun b => test 65 b 64)
    <> Ok (Z.testbit (hd 0 [1; 0]) (bits_per_word 65 - 1)).
Proof. vm_compute. discriminate. Qed.

(** C7, amended: for a size above 64 whose mask computation stays in
    range, building the set from a word array in reading order and
    reading bit [NBits - 1] yields bit [(NBits - 1) mod 64] of the first
    element supplied; that is the element's most-significant bit exactly
    when [NBits] is a multiple of 64. *)
Theorem top_bit_of_first_word (NBits : Z) (a : list Z) :
  64 < NBits -> NBits + 63 < 2 ^ 64 ->
  Z.of_nat (length a) = arr_size NBits ->
  NBits mod 64 < 31 ->
  (from_array NBits a ≫= fun b => test NBits b (NBits - 1))
    = Ok (Z.testbit (hd 0 a) ((NBits - 1) mod 64)) /\
  ((NBits - 1) mod 64 = 63 <-> NBits mod 64 = 0).
Proof.
  intros Hbig Hmax Hshape Hmask.
  assert (Hpos : 0 < NBits) by lia.
  assert (Hbw : bits_per_word NBits = 64).
  { destruct (bits_per_word_cases NBits) as [[? E]|[[? E]|[[? E]|[? E]]]]; lia. }
  pose proof (arr_size_ceil NBits Hpos Hmax) as Hceil.
  split.
  - unfold from_array.
    destruct (mask_msb_word_bits NBits Hpos Hmax ltac:(rewrite Hbw; exact Hmask) (reverse a))
      as (b & Hb & Hlen & Hbits); [rewrite length_reverse; exact Hshape|].
    rewrite Hb, result_bind_Ok.
    rewrite length_reverse in Hlen.
    rewrite (test_storage_bit NBits Hpos Hmax b ltac:(congruence)) by lia.
    f_equal. rewrite Hbits by lia.
    destruct (Z.ltb_spec (NBits - 1) NBits); [|lia]. rewrite andb_true_r.
    unfold storage_bit. rewrite Hbw.
    assert (Hdiv : (NBits - 1) / 64 = arr_size NBits - 1).
    { symmetry. apply (Z.div_unique _ _ _ (NBits - 1 - 64 * (arr_size NBits - 1))); lia. }
    rewrite Hdiv, reverse_lookup by lia.
    replace (length a - S (Z.to_nat (arr_size NBits - 1)))%nat with 0%nat by lia.
    destruct a as [|first rest]; [simpl in Hshape; lia | reflexivity].
  - pose proof (Z.div_mod NBits 64 ltac:(lia)).
    pose proof (Z.mod_pos_bound NBits 64 ltac:(lia)).
    pose proof (Z.div_mod (NBits - 1) 64 ltac:(lia)).
    pose proof (Z.mod_pos_bound (NBits - 1) 64 ltac:(lia)).
    lia.
Qed.

Lemma top_bit_of_first_word_witness :
  (from_array 70 [0x25; 0xFFFFFFFFFFFFFFFF] ≫= fun b => test 70 b 69)
    = Ok (Z.testbit (hd 0 [0x25; 0xFFFFFFFFFFFFFFFF]) (69 mod 64)) /\
  (69 mod 64 = 63 <-> 70 mod 64 = 0).
Proof.
  apply (top_bit_of_first_word 70 [0x25; 0xFFFFFFFFFFFFFFFF]);
    [lia | lia | reflexivity | reflexivity].
Defined.

(** ** Scanning for the first one and the first zero *)

Lemma countr_zero_aux_spec fuel : forall x c,
  0 <= c < Z.of_nat fuel ->
  Z.testbit x c = true ->
  (forall j, 0 <= j < c -> Z.testbit x j = false) ->
  countr_zero_aux fuel x = c.
Proof.
  induction fuel as [|fuel IH]; intros x c Hc Hset Hlow; [lia|].
  simpl countr_zero_aux. rewrite <- Z.bit0_odd.
  destruct (Z.eq_dec c 0) as [->|Hc0].
  - rewrite Hset. reflexivity.
  - rewrite (Hlow 0) by lia.
    rewrite (IH (Z.div2 x) (c - 1)); [lia | lia | |].
    + rewrite Z.div2_div, Z.div2_bits by lia. replace (Z.succ (c - 1)) with c by lia. exact Hset.
    + intros j Hj. rewrite Z.div2_div, Z.div2_bits by lia. apply Hlow. lia.
Qed.

Lemma countr_one_aux_spec fuel : forall x c,
  0 <= c < Z.of_nat fuel ->
  Z.testbit x c = false ->
  (forall j, 0 <= j < c -> Z.testbit x j = true) ->
  countr_one_aux fuel x = c.
Proof.
  induction fuel as [|fuel IH]; intros x c Hc Hclear Hlow; [lia|].
  simpl countr_one_aux. rewrite <- Z.bit0_odd.
  destruct (Z.eq_dec c 0) as [->|Hc0].
  - rewrite Hclear. reflexivity.
  - rewrite (Hlow 0) by lia.
    rewrite (IH (Z.div2 x) (c - 1)); [lia | lia | |].
    + rewrite Z.div2_div, Z.div2_bits by lia. replace (Z.succ (c - 1)) with c by lia. exact Hclear.
    + intros j Hj. rewrite Z.div2_div, Z.div2_bits by lia. apply Hlow. lia.
Qed.

(** A word is determined by its bits below the word width. *)
Lemma word_bits_inj n x y :
  0 <= n -> 0 <= x < 2 ^ n -> 0 <= y < 2 ^ n ->
  (forall j, 0 <= j < n -> Z.testbit x j = Z.testbit y j) -> x = y.
Proof.
  intros Hn Hx Hy Hbits.
  rewrite <- (Z.mod_small x (2 ^ n)), <- (Z.mod_small y (2 ^ n)) by assumption.
  apply Z.bits_inj'. intros j Hj.
  destruct (Z.lt_ge_cases j n).
  - rewrite !Z.mod_pow2_bits_low by lia. apply Hbits. lia.
  - rewrite !Z.mod_pow2_bits_high by lia. reflexivity.
Qed.

Lemma storage_bit_cons_low NBits w (ws : list Z) p :
  0 <= p < bits_per_word NBits -> storage_bit NBits (w :: ws) p = Z.testbit w p.
Proof.
  intros Hp. unfold storage_bit.
  rewrite Z.div_small, Z.mod_small by lia. reflexivity.
Qed.

Lemma storage_bit_cons_high NBits w (ws : list Z) p :
  bits_per_word NBits <= p ->
  storage_bit NBits (w :: ws) p = storage_bit NBits ws (p - bits_per_word NBits).
Proof.
  intros Hp. pose proof (bits_per_word_pos NBits) as Hw. unfold storage_bit.
  assert (Hd : p / bits_per_word NBits = (p - bits_per_word NBits) / bits_per_word NBits + 1).
  { rewrite <- Z.div_add by lia. f_equal. lia. }
  assert (Hm : p mod bits_per_word NBits = (p - bits_per_word NBits) mod bits_per_word NBits).
  { rewrite <- (Z.mod_add (p - bits_per_word NBits) 1) by lia. f_equal. lia. }
  rewrite Hd, Hm.
  assert (0 <= (p - bits_per_word NBits) / bits_per_word NBits) by (apply Z.div_pos; lia).
  replace (Z.to_nat ((p - bits_per_word NBits) / bits_per_word NBits + 1))
    with (S (Z.to_nat ((p - bits_per_word NBits) / bits_per_word NBits))) by lia.
  reflexivity.
Qed.

Section Scan.
Context (NBits : Z).

Lemma find_first_one_from_spec (ws : list Z) : forall i k,
  Forall (word_ok NBits) ws -> 0 <= i -> 0 <= k ->
  i * bits_per_word NBits + k < 2 ^ 64 ->
  storage_bit NBits ws k = true ->
  (forall j, 0 <= j < k -> storage_bit NBits ws j = false) ->
  find_first_one_from NBits i ws = i * bits_per_word NBits + k.
Proof using Type.
  pose proof (bits_per_word_pos NBits) as Hw.
  induction ws as [|w ws IH]; intros i k Hok Hi Hk Hfit Hset Hlow.
  - unfold storage_bit in Hset. rewrite lookup_nil in Hset. discriminate.
  - apply Forall_cons in Hok as [Hwok Hok]. simpl find_first_one_from.
    destruct (Z.lt_ge_cases k (bits_per_word NBits)) as [Hin|Hout].
    + rewrite storage_bit_cons_low in Hset by lia.
      assert (w <> all_zero) by (intros ->; rewrite Z.testbit_0_l in Hset; discriminate).
      destruct (Z.eqb_spec w all_zero); [contradiction|]. simpl negb. cbv iota.
      unfold countr_zero. rewrite (countr_zero_aux_spec _ w k); [| lia | exact Hset |].
      * unfold to_size_t. rewrite (Z.mod_small (i * _)) by nia.
        rewrite Z.mod_small by nia. lia.
      * intros j Hj. rewrite <- (storage_bit_cons_low NBits w ws) by lia. apply Hlow. lia.
    + assert (w = all_zero).
      { apply (word_bits_inj (bits_per_word NBits)); [lia | exact Hwok | | ].
        - unfold all_zero. split; [lia | apply pow2_bits_per_word_pos].
        - intros j Hj. unfold all_zero. rewrite Z.testbit_0_l.
          rewrite <- (storage_bit_cons_low NBits w ws) by lia. apply Hlow. lia. }
      subst w. rewrite Z.eqb_refl. simpl negb. cbv iota.
      rewrite (IH (i + 1) (k - bits_per_word NBits)); [lia | exact Hok | lia | lia | lia | |].
      * rewrite <- (storage_bit_cons_high NBits all_zero) by lia. exact Hset.
      * intros j Hj.
        replace j with (j + bits_per_word NBits - bits_per_word NBits) by lia.
        rewrite <- (storage_bit_cons_high NBits all_zero) by lia. apply Hlow. lia.
Qed.

Lemma find_first_zero_from_spec (ws : list Z) : forall i k,
  Forall (word_ok NBits) ws -> 0 <= i -> 0 <= k ->
  i * bits_per_word NBits + k < 2 ^ 64 ->
  k < Z.of_nat (length ws) * bits_per_word NBits ->
  storage_bit NBits ws k = false ->
  (forall j, 0 <= j < k -> storage_bit NBits ws j = true) ->
  find_first_zero_from NBits i ws = i * bits_per_word NBits + k.
Proof using Type.
  pose proof (bits_per_word_pos NBits) as Hw.
  induction ws as [|w ws IH]; intros i k Hok Hi Hk Hfit Hlen Hclear Hlow.
  - simpl in Hlen. lia.
  - apply Forall_cons in Hok as [Hwok Hok]. simpl find_first_zero_from.
    destruct (Z.lt_ge_cases k (bits_per_word NBits)) as [Hin|Hout].
    + rewrite storage_bit_cons_low in Hclear by lia.
      assert (w <> all_ones NBits).
      { intros ->. rewrite all_ones_ones, Z.testbit_ones_nonneg in Hclear by lia.
        apply Z.ltb_ge in Hclear. lia. }
      destruct (Z.eqb_spec w (all_ones NBits)); [contradiction|]. simpl negb. cbv iota.
      unfold countr_one. rewrite (countr_one_aux_spec _ w k); [| lia | exact Hclear |].
      * unfold to_size_t. rewrite (Z.mod_small (i * _)) by nia.
        rewrite Z.mod_small by nia. lia.
      * intros j Hj. rewrite <- (storage_bit_cons_low NBits w ws) by lia. apply Hlow. lia.
    + assert (w = all_ones NBits).
      { apply (word_bits_inj (bits_per_word NBits)); [lia | exact Hwok | | ].
        - unfold all_ones. pose proof (pow2_bits_per_word_pos NBits). lia.
        - intros j Hj. rewrite all_ones_ones, Z.testbit_ones_nonneg by lia.
          rewrite <- (storage_bit_cons_low NBits w ws) by lia.
          rewrite Hlow by lia. symmetry. apply Z.ltb_lt. lia. }
      subst w. rewrite Z.eqb_refl. simpl negb. cbv iota.
      simpl length in Hlen.
      rewrite (IH (i + 1) (k - bits_per_word NBits)); [lia | exact Hok | lia | lia | lia | nia | |].
      * rewrite <- (storage_bit_cons_high NBits (all_ones NBits)) by lia. exact Hclear.
      * intros j Hj.
        replace j with (j + bits_per_word NBits - bits_per_word NBits) by lia.
        rewrite <- (storage_bit_cons_high NBits (all_ones NBits)) by lia. apply Hlow. lia.
Qed.

Lemma find_first_one_from_zeros (ws : list Z) : forall i,
  none ws = true -> find_first_one_from NBits i ws = NBits.
Proof using Type.
  induction ws as [|w ws IH]; intros i Hnone; [reflexivity|].
  simpl in Hnone. apply andb_true_iff in Hnone as [Hw Hnone].
  simpl. rewrite Hw. simpl. apply IH, Hnone.
Qed.

Lemma find_first_zero_from_ones (ws : list Z) : forall i,
  all NBits ws = true -> find_first_zero_from NBits i ws = NBits.
Proof using Type.
  induction ws as [|w ws IH]; intros i Hall; [reflexivity|].
  simpl in Hall. apply andb_true_iff in Hall as [Hw Hall].
  simpl. rewrite Hw. simpl. apply IH, Hall.
Qed.

(** The scan skips leading zero words and applies [countr_zero] to the
    first word that is not zero. *)
Lemma find_first_one_first_nonzero (zeros rest : list Z) w : forall i,
  none zeros = true -> w <> all_zero ->
  find_first_one_from NBits i (zeros ++ w :: rest) =
    to_size_t (countr_zero (bits_per_word NBits) w
               + to_size_t ((i + Z.of_nat (length zeros)) * bits_per_word NBits)).
Proof using Type.
  induction zeros as [|z zeros IH]; intros i Hnone Hw.
  - simpl. destruct (Z.eqb_spec w all_zero); [contradiction|].
    simpl. rewrite Z.add_0_r. reflexivity.
  - simpl in Hnone. apply andb_true_iff in Hnone as [Hz Hnone].
    simpl app. simpl find_first_one_from. rewrite Hz. simpl negb. cbv iota.
    rewrite IH by assumption. simpl length.
    replace (i + 1 + Z.of_nat (length zeros)) with (i + Z.of_nat (S (length zeros))) by lia.
    reflexivity.
Qed.

End Scan.

(** C5: [find_first_one] returns the size on an all-zero set (the
    default-constructed one, or any state on which [none()] holds), and
    returns [k] on a set whose bit [k] is set while no bit below [k] is,
    which covers the set with exactly one bit at [k]; the scan skips the
    leading zero words and applies count-trailing-zeros to the first
    nonzero word. *)
Theorem find_first_one_correct (NBits : Z) :
  0 < NBits -> NBits + 63 < 2 ^ 64 ->
  find_first_one NBits (default_bits NBits) = NBits /\
  (forall bits, none bits = true -> find_first_one NBits bits = NBits) /\
  (forall bits k,
     well_formed NBits bits -> 0 <= k < NBits ->
     test NBits bits k = Ok true ->
     (forall q, 0 <= q < k -> test NBits bits q = Ok false) ->
     find_first_one NBits bits = k) /\
  (forall zeros w rest,
     none zeros = true -> w <> all_zero ->
     find_first_one NBits (zeros ++ w :: rest) =
       to_size_t (countr_zero (bits_per_word NBits) w
                  + to_size_t (Z.of_nat (length zeros) * bits_per_word NBits))).
Proof.
  intros Hpos Hmax.
  assert (Hnone : forall bits, none bits = true -> find_first_one NBits bits = NBits)
    by (intros bits; apply find_first_one_from_zeros).
  split; [|split; [exact Hnone|split]].
  - apply Hnone. unfold none, default_bits.
    apply forallb_forall. intros w Hin.
    apply list_elem_of_In, elem_of_replicate in Hin as [-> _]. reflexivity.
  - intros bits k [Hshape Hrange] Hk Hset Hlow.
    rewrite (test_storage_bit NBits Hpos Hmax bits Hshape k Hk) in Hset.
    unfold find_first_one.
    rewrite (find_first_one_from_spec NBits bits 0 k); [lia | exact Hrange | lia | lia | lia | congruence |].
    intros j Hj. specialize (Hlow j Hj).
    rewrite (test_storage_bit NBits Hpos Hmax bits Hshape j ltac:(lia)) in Hlow. congruence.
  - intros zeros w rest Hz Hw. unfold find_first_one.
    rewrite find_first_one_first_nonzero by assumption. reflexivity.
Qed.

Lemma find_first_one_correct_witness :
  find_first_one 9 (default_bits 9) = 9 /\ find_first_one 9 [0x08] = 3.
Proof.
  destruct (find_first_one_correct 9) as (Hdefault & _ & Hone & _); [lia | lia |].
  split; [exact Hdefault|].
  apply Hone.
  - split; [reflexivity | repeat constructor; lia].
  - lia.
  - reflexivity.
  - intros q Hq. assert (Hcases : q = 0 \/ q = 1 \/ q = 2) by lia.
    destruct Hcases as [-> | [-> | ->]]; reflexivity.
Defined.

Lemma all_of_bits NBits (ws : list Z) :
  Forall (word_ok NBits) ws ->
  (forall p, 0 <= p < Z.of_nat (length ws) * bits_per_word NBits ->
     storage_bit NBits ws p = true) ->
  all NBits ws = true.
Proof.
  pose proof (bits_per_word_pos NBits) as Hw.
  induction ws as [|w ws IH]; intros Hok Hbits; [reflexivity|].
  apply Forall_cons in Hok as [Hwok Hok]. simpl length in Hbits.
  simpl. apply andb_true_iff. split.
  - apply Z.eqb_eq, (word_bits_inj (bits_per_word NBits)); [lia | exact Hwok | |].
    + unfold all_ones. pose proof (pow2_bits_per_word_pos NBits). lia.
    + intros j Hj. rewrite all_ones_ones, Z.testbit_ones_nonneg by lia.
      rewrite <- (storage_bit_cons_low NBits w ws) by lia.
      rewrite Hbits by nia. symmetry. apply Z.ltb_lt. lia.
  - apply IH; [exact Hok|]. intros p Hp.
    replace p with (p + bits_per_word NBits - bits_per_word NBits) by lia.
    rewrite <- (storage_bit_cons_high NBits w) by lia. apply Hbits. nia.
Qed.

Lemma set_bit_range NBits (bits bits' : list Z) pos value :
  Forall (word_ok NBits) bits ->
  set_bit NBits bits pos value = Ok bits' ->
  Forall (word_ok NBits) bits'.
Proof.
  intros Hok. unfold set_bit.
  destruct (get_word NBits bits pos) as [w| |]; try discriminate.
  rewrite result_bind_Ok. unfold store_index.
  destruct (_ && _); [|discriminate].
  intros [= <-]. apply Forall_insert; [exact Hok|].
  destruct value; apply to_word_range.
Qed.

Section FirstZeroAfterSet.
Context (NBits : Z) (NBits_pos : 0 < NBits) (NBits_max : NBits + 63 < 2 ^ 64).
Context (mask_in_range : NBits mod bits_per_word NBits < 31).
Context (bits : list Z) (shape : Z.of_nat (length bits) = arr_size NBits).

Lemma set_all_range bits' :
  set_all NBits bits = Ok bits' ->
  Forall (word_ok NBits) bits'.
Proof using NBits_pos NBits_max mask_in_range shape.
  unfold set_all. intros Hrun.
  destruct (mask_msb_word_spec NBits NBits_pos NBits_max mask_in_range
              (map (fun _ => all_ones NBits) bits))
    as (w & Hl & Hm); [rewrite length_map; exact shape|].
  rewrite Hm in Hrun. injection Hrun as <-.
  pose proof (pow2_bits_per_word_pos NBits) as Hp2.
  assert (Hall : Forall (word_ok NBits)
                   (map (fun _ => all_ones NBits) bits)).
  { apply Forall_forall. intros x Hin. apply list_elem_of_In, in_map_iff in Hin as (? & <- & _).
    unfold word_ok, all_ones. lia. }
  apply Forall_insert; [exact Hall|].
  pose proof (msb_word_bits_range NBits NBits_pos NBits_max) as Hr.
  unfold word_ok. rewrite Z.land_ones by lia.
  pose proof (Z.mod_pos_bound w (2 ^ msb_word_bits NBits) ltac:(apply Z.pow_pos_nonneg; lia)).
  assert (2 ^ msb_word_bits NBits <= 2 ^ bits_per_word NBits) by (apply Z.pow_le_mono_r; lia).
  lia.
Qed.

End FirstZeroAfterSet.




(** On [Bitset<33>], a size whose mask computation is undefined, the
    filled storage gives these answers too. *)
Example find_first_zero_filled_33 :
  find_first_zero 33 [0xFFFFFFFFFFFFFFFF] = 33 /\
  (reset_bit 33 [0xFFFFFFFFFFFFFFFF] 5 ≫= fun b => Ok (find_first_zero 33 b)) = Ok 5.
Proof. split; reflexivity. Qed.

(** * Further properties of the bit set *)

(** ** Counting *)

Lemma count_true_ext f g : forall n lo,
  (forall j, lo <= j < lo + Z.of_nat n -> f j = g j) ->
  count_true f lo n = count_true g lo n.
Proof.
  induction n as [|n IH]; intros lo Hfg; [reflexivity|].
  simpl. rewrite (Hfg lo) by lia. f_equal. apply IH. intros j Hj. apply Hfg. lia.
Qed.

Lemma count_true_shift f d : forall n lo,
  count_true (fun j => f (j + d)) lo n = count_true f (lo + d) n.
Proof.
  induction n as [|n IH]; intros lo; [reflexivity|].
  simpl. rewrite IH. do 2 f_equal. lia.
Qed.

Lemma count_true_app f : forall a b lo,
  count_true f lo (a + b) = count_true f lo a + count_true f (lo + Z.of_nat a) b.
Proof.
  induction a as [|a IH]; intros b lo.
  - change (Z.of_nat 0) with 0. rewrite Z.add_0_r. reflexivity.
  - simpl. rewrite IH. replace (lo + 1 + Z.of_nat a) with (lo + Z.of_nat (S a)) by lia. lia.
Qed.

Lemma count_true_bounds f : forall n lo, 0 <= count_true f lo n <= Z.of_nat n.
Proof.
  induction n as [|n IH]; intros lo; simpl; [lia|].
  specialize (IH (lo + 1)). destruct (f lo); simpl; lia.
Qed.

Lemma count_true_none f : forall n lo,
  (forall j, lo <= j < lo + Z.of_nat n -> f j = false) -> count_true f lo n = 0.
Proof.
  induction n as [|n IH]; intros lo Hf; [reflexivity|].
  simpl. rewrite (Hf lo) by lia. rewrite IH; [reflexivity|].
  intros j Hj. apply Hf. lia.
Qed.

Lemma count_true_every f : forall n lo,
  (forall j, lo <= j < lo + Z.of_nat n -> f j = true) -> count_true f lo n = Z.of_nat n.
Proof.
  induction n as [|n IH]; intros lo Hf; [reflexivity|].
  simpl count_true. rewrite (Hf lo) by lia. rewrite IH; [simpl; lia|].
  intros j Hj. apply Hf. lia.
Qed.

(** Changing [f] at one position changes the count by that position. *)
Lemma count_true_update f g p : forall n lo,
  lo <= p < lo + Z.of_nat n ->
  (forall j, lo <= j < lo + Z.of_nat n -> j <> p -> g j = f j) ->
  count_true g lo n = count_true f lo n - Z.b2z (f p) + Z.b2z (g p).
Proof.
  induction n as [|n IH]; intros lo Hp Hfg; [lia|].
  simpl. destruct (Z.eq_dec lo p) as [->|Hne].
  - rewrite (count_true_ext g f); [lia|]. intros j Hj. apply Hfg; lia.
  - rewrite (Hfg lo) by lia. rewrite IH; [lia | lia |].
    intros j Hj Hjp. apply Hfg; lia.
Qed.

Lemma popcount_aux_count fuel : forall x,
  popcount_aux fuel x = count_true (Z.testbit x) 0 fuel.
Proof.
  induction fuel as [|fuel IH]; intros x; [reflexivity|].
  simpl. rewrite <- Z.bit0_odd, IH. f_equal.
  rewrite <- (count_true_shift (Z.testbit x) 1).
  apply count_true_ext. intros j Hj.
  rewrite Z.div2_div, Z.div2_bits by lia. f_equal.
Qed.

Lemma count_fold NBits (ws : list Z) : forall acc,
  0 <= acc ->
  acc + Z.of_nat (length ws) * bits_per_word NBits < 2 ^ 64 ->
  fold_left (fun a word => to_size_t (a + popcount (bits_per_word NBits) word)) ws acc
  = acc + count_true (storage_bit NBits ws) 0
            (length ws * Z.to_nat (bits_per_word NBits)).
Proof.
  pose proof (bits_per_word_pos NBits) as Hw.
  induction ws as [|w ws IH]; intros acc Hacc Hfit; [simpl; lia|].
  simpl length in *. simpl fold_left.
  assert (Hpc : popcount (bits_per_word NBits) w
                = count_true (storage_bit NBits (w :: ws)) 0 (Z.to_nat (bits_per_word NBits))).
  { unfold popcount. rewrite popcount_aux_count. apply count_true_ext.
    intros j Hj. rewrite storage_bit_cons_low by lia. reflexivity. }
  pose proof (count_true_bounds (storage_bit NBits (w :: ws)) (Z.to_nat (bits_per_word NBits)) 0) as Hb.
  rewrite <- Hpc in Hb.
  unfold to_size_t at 2. rewrite Z.mod_small by nia.
  rewrite IH by nia.
  replace (S (length ws) * Z.to_nat (bits_per_word NBits))%nat
    with (Z.to_nat (bits_per_word NBits) + length ws * Z.to_nat (bits_per_word NBits))%nat by lia.
  rewrite count_true_app, <- Hpc.
  enough (E : count_true (storage_bit NBits ws) 0
                (length ws * Z.to_nat (bits_per_word NBits))
              = count_true (storage_bit NBits (w :: ws))
                  (0 + Z.of_nat (Z.to_nat (bits_per_word NBits)))
                  (length ws * Z.to_nat (bits_per_word NBits))) by lia.
  rewrite <- count_true_shift.
  apply count_true_ext. intros j Hj.
  rewrite storage_bit_cons_high by lia. f_equal. lia.
Qed.

Section Counting.
Context (NBits : Z) (NBits_pos : 0 < NBits) (NBits_max : NBits + 63 < 2 ^ 64).
Context (bits : list Z) (shape : Z.of_nat (length bits) = arr_size NBits).

Lemma test_true_storage_bit q :
  0 <= q < NBits -> test_true NBits bits q = storage_bit NBits bits q.
Proof using NBits_pos NBits_max shape.
  intros Hq. unfold test_true.
  rewrite (test_storage_bit NBits NBits_pos NBits_max bits shape q Hq). reflexivity.
Qed.

(** [count()] is the number of storage bits that are set. *)
Lemma count_storage :
  count NBits bits
  = count_true (storage_bit NBits bits) 0 (Z.to_nat (bits_in_storage NBits)).
Proof using NBits_pos NBits_max shape.
  pose proof (bits_per_word_pos NBits) as Hw.
  pose proof (arr_size_ceil NBits NBits_pos NBits_max) as Hc.
  assert (Hfit : arr_size NBits * bits_per_word NBits < 2 ^ 64).
  { destruct (bits_per_word_cases NBits) as [[? E]|[[? E]|[[? E]|[? E]]]]; rewrite E;
      try (rewrite (arr_size_small NBits NBits_pos NBits_max) by lia; lia). lia. }
  unfold count. rewrite count_fold by (rewrite ?shape; lia).
  rewrite Z.add_0_l, bits_in_storage_eq by assumption. f_equal.
  rewrite <- shape. rewrite Z2Nat.inj_mul, Nat2Z.id by lia. reflexivity.
Qed.

(** Under the invariant only the logical bits count. *)
Lemma count_logical :
  msb_invariant NBits bits ->
  count NBits bits = count_true (test_true NBits bits) 0 (Z.to_nat NBits).
Proof using NBits_pos NBits_max shape.
  intros Hinv. rewrite count_storage.
  pose proof (storage_covers NBits NBits_pos NBits_max) as Hc.
  replace (Z.to_nat (bits_in_storage NBits))
    with (Z.to_nat NBits + Z.to_nat (bits_in_storage NBits - NBits))%nat by lia.
  rewrite count_true_app.
  rewrite (count_true_none _ (Z.to_nat (bits_in_storage NBits - NBits))).
  - rewrite Z.add_0_r. apply count_true_ext. intros j Hj.
    symmetry. apply test_true_storage_bit. lia.
  - intros j Hj. apply Hinv. lia.
Qed.
End Counting.

Lemma count_true_negb f : forall n lo,
  count_true (fun j => negb (f j)) lo n = Z.of_nat n - count_true f lo n.
Proof.
  induction n as [|n IH]; intros lo; [reflexivity|].
  simpl count_true. rewrite IH. destruct (f lo); simpl Z.b2z; lia.
Qed.

(** ** Words, bits and whole-array queries *)

(** Below any bound, a predicate on positions either never holds or has a
    least position at which it holds. *)
Lemma least_position (f : Z -> bool) (n : nat) :
  (forall j, 0 <= j < Z.of_nat n -> f j = false) \/
  (exists k, 0 <= k < Z.of_nat n /\ f k = true /\ forall j, 0 <= j < k -> f j = false).
Proof.
  induction n as [|n IH]; [left; intros j Hj; lia|].
  destruct IH as [Hnone|(k & Hk & Hfk & Hlow)].
  - destruct (f (Z.of_nat n)) eqn:Hn.
    + right. exists (Z.of_nat n). split; [lia|]. split; [exact Hn|]. exact Hnone.
    + left. intros j Hj. destruct (Z.eq_dec j (Z.of_nat n)) as [->|]; [exact Hn|].
      apply Hnone. lia.
  - right. exists k. split; [lia|]. split; assumption.
Qed.

Lemma none_of_bits NBits (ws : list Z) :
  Forall (word_ok NBits) ws ->
  (forall p, 0 <= p < Z.of_nat (length ws) * bits_per_word NBits ->
     storage_bit NBits ws p = false) ->
  none ws = true.
Proof.
  pose proof (bits_per_word_pos NBits) as Hw.
  induction ws as [|w ws IH]; intros Hok Hbits; [reflexivity|].
  apply Forall_cons in Hok as [Hwok Hok]. simpl length in Hbits.
  simpl. apply andb_true_iff. split.
  - apply Z.eqb_eq, (word_bits_inj (bits_per_word NBits)); [lia | exact Hwok | |].
    + unfold all_zero. pose proof (pow2_bits_per_word_pos NBits). lia.
    + intros j Hj. unfold all_zero. rewrite Z.testbit_0_l.
      rewrite <- (storage_bit_cons_low NBits w ws) by lia. apply Hbits. nia.
  - apply IH; [exact Hok|]. intros p Hp.
    replace p with (p + bits_per_word NBits - bits_per_word NBits) by lia.
    rewrite <- (storage_bit_cons_high NBits w) by lia. apply Hbits. nia.
Qed.

Lemma bits_of_none NBits (ws : list Z) p :
  none ws = true -> storage_bit NBits ws p = false.
Proof.
  intros Hnone. unfold storage_bit.
  destruct (ws !! Z.to_nat (p / bits_per_word NBits)) as [w|] eqn:Hl; [|reflexivity].
  simpl. unfold none in Hnone. rewrite forallb_forall in Hnone.
  assert (Hin : In w ws) by (apply list_elem_of_In; eapply list_elem_of_lookup_2; exact Hl).
  apply Hnone, Z.eqb_eq in Hin. subst w. apply Z.testbit_0_l.
Qed.

Lemma bits_of_all NBits (ws : list Z) p :
  all NBits ws = true ->
  0 <= p < Z.of_nat (length ws) * bits_per_word NBits ->
  storage_bit NBits ws p = true.
Proof.
  intros Hall Hp. pose proof (bits_per_word_pos NBits) as Hw. unfold storage_bit.
  assert (0 <= p / bits_per_word NBits < Z.of_nat (length ws))
    by (split; [apply Z.div_pos; lia | apply Z.div_lt_upper_bound; lia]).
  destruct (lookup_lt_is_Some_2 ws (Z.to_nat (p / bits_per_word NBits)) ltac:(lia)) as [w Hl].
  rewrite Hl. simpl. unfold all in Hall. rewrite forallb_forall in Hall.
  assert (Hin : In w ws) by (apply list_elem_of_In; eapply list_elem_of_lookup_2; exact Hl).
  apply Hall, Z.eqb_eq in Hin. subst w.
  pose proof (Z.mod_pos_bound p (bits_per_word NBits) Hw).
  rewrite all_ones_ones, Z.testbit_ones_nonneg by lia. apply Z.ltb_lt. lia.
Qed.

Lemma any_negb_none (ws : list Z) : any ws = negb (none ws).
Proof.
  induction ws as [|w ws IH]; [reflexivity|].
  simpl. rewrite IH. destruct (w =? all_zero); reflexivity.
Qed.

(** Two arrays of words with the same storage bits are the same array. *)
Lemma storage_ext NBits : forall (a b : list Z),
  length a = length b ->
  Forall (word_ok NBits) a -> Forall (word_ok NBits) b ->
  (forall p, 0 <= p -> storage_bit NBits a p = storage_bit NBits b p) ->
  a = b.
Proof.
  pose proof (bits_per_word_pos NBits) as Hw.
  induction a as [|x a IH]; intros [|y b] Hlen Ha Hb Hbits; try discriminate; [reflexivity|].
  apply Forall_cons in Ha as [Hx Ha]. apply Forall_cons in Hb as [Hy Hb].
  f_equal.
  - apply (word_bits_inj (bits_per_word NBits)); [lia | exact Hx | exact Hy |].
    intros j Hj.
    rewrite <- (storage_bit_cons_low NBits x a), <- (storage_bit_cons_low NBits y b) by lia.
    apply Hbits. lia.
  - apply IH; [simpl in Hlen; lia | exact Ha | exact Hb |].
    intros p Hp.
    replace p with (p + bits_per_word NBits - bits_per_word NBits) by lia.
    rewrite <- (storage_bit_cons_high NBits x), <- (storage_bit_cons_high NBits y) by lia.
    apply Hbits. lia.
Qed.

Lemma default_bits_word_ok NBits : Forall (word_ok NBits) (default_bits NBits).
Proof.
  apply Forall_forall. intros w Hin.
  apply elem_of_replicate in Hin as [-> _].
  unfold word_ok. pose proof (pow2_bits_per_word_pos NBits). lia.
Qed.

Lemma storage_bit_default NBits p : storage_bit NBits (default_bits NBits) p = false.
Proof.
  unfold storage_bit, default_bits.
  destruct (replicate _ _ !! _) as [w|] eqn:E; [|reflexivity].
  apply lookup_replicate_1 in E as [-> _]. apply Z.testbit_0_l.
Qed.

(** ** Construction *)

(** X1: a default-constructed set has [arr_size] zero words; it satisfies
    the MSB invariant, every [test(q)] is false, [none()] holds, [any()]
    does not, and [count()] is zero. *)
Theorem default_constructed_empty (NBits : Z) :
  0 < NBits -> NBits + 63 < 2 ^ 64 ->
  well_formed NBits (default_bits NBits) /\
  msb_invariant NBits (default_bits NBits) /\
  (forall q, 0 <= q < NBits -> test NBits (default_bits NBits) q = Ok false) /\
  none (default_bits NBits) = true /\
  any (default_bits NBits) = false /\
  count NBits (default_bits NBits) = 0.
Proof.
  intros Hpos Hmax.
  pose proof (arr_size_pos NBits Hpos Hmax) as Ha.
  assert (Hshape : Z.of_nat (length (default_bits NBits)) = arr_size NBits)
    by (unfold default_bits; rewrite length_replicate; lia).
  assert (Hnone : none (default_bits NBits) = true).
  { apply (none_of_bits NBits); [apply default_bits_word_ok|].
    intros p _. apply storage_bit_default. }
  split; [split; [exact Hshape | apply default_bits_word_ok]|].
  split; [apply default_bits_invariant|].
  split.
  { intros q Hq. rewrite (test_storage_bit NBits Hpos Hmax _ Hshape q Hq).
    rewrite storage_bit_default. reflexivity. }
  split; [exact Hnone|].
  split; [rewrite any_negb_none, Hnone; reflexivity|].
  rewrite (count_storage NBits Hpos Hmax _ Hshape).
  apply count_true_none. intros j _. apply storage_bit_default.
Qed.

Lemma default_constructed_empty_witness :
  well_formed 100 (default_bits 100) /\
  msb_invariant 100 (default_bits 100) /\
  (forall q, 0 <= q < 100 -> test 100 (default_bits 100) q = Ok false) /\
  none (default_bits 100) = true /\
  any (default_bits 100) = false /\
  count 100 (default_bits 100) = 0.
Proof. apply (default_constructed_empty 100); lia. Defined.

(** X2: for a size of at most 64 whose mask computation is defined, the
    constructor from one word succeeds, the result satisfies the MSB
    invariant, and [test(q)] reads bit [q] of the argument for every [q]
    below the size; the argument's bits from [NBits] upwards are
    dropped. *)
Theorem from_word_reads_back (NBits v : Z) :
  0 < NBits -> NBits <= 64 ->
  NBits mod bits_per_word NBits < 31 ->
  exists b, from_word NBits v = Ok b /\
    Z.of_nat (length b) = arr_size NBits /\
    msb_invariant NBits b /\
    forall q, 0 <= q < NBits -> test NBits b q = Ok (Z.testbit v q).
Proof.
  intros Hpos Hsmall Hmask.
  assert (Hmax : NBits + 63 < 2 ^ 64) by lia.
  pose proof (arr_size_small NBits Hpos Hmax Hsmall) as Ha.
  assert (Hrep : replicate (Z.to_nat (arr_size NBits - 1)) 0 = [])
    by (rewrite Ha; reflexivity).
  unfold from_word. rewrite Hrep.
  destruct (mask_msb_word_bits NBits Hpos Hmax Hmask [v]) as (b & Hb & Hlen & Hbits);
    [rewrite Ha; reflexivity|].
  exists b. split; [exact Hb|].
  assert (Hshape : Z.of_nat (length b) = arr_size NBits) by (rewrite Hlen, Ha; reflexivity).
  split; [exact Hshape|]. split.
  - apply (mask_msb_word_invariant NBits Hpos Hmax [v]); [rewrite Ha; reflexivity | exact Hmask | exact Hb].
  - intros q Hq.
    rewrite (test_storage_bit NBits Hpos Hmax b Hshape q Hq), Hbits by lia.
    destruct (Z.ltb_spec q NBits); [|lia]. rewrite andb_true_r.
    rewrite storage_bit_cons_low; [reflexivity|].
    destruct (bits_per_word_cases NBits) as [[? E]|[[? E]|[[? E]|[? E]]]]; lia.
Qed.

Lemma from_word_reads_back_witness :
  exists b, from_word 12 0xFABC = Ok b /\
    Z.of_nat (length b) = arr_size 12 /\
    msb_invariant 12 b /\
    forall q, 0 <= q < 12 -> test 12 b q = Ok (Z.testbit 0xFABC q).
Proof. apply (from_word_reads_back 12 0xFABC); [lia | lia | reflexivity]. Defined.

(** X3: for a size above 64 whose mask computation is defined, the
    constructor from a word array in reading order succeeds, the result
    satisfies the MSB invariant, and [test(q)] reads bit [q mod 64] of the
    array element counted [q / 64] places back from the last one. *)
Theorem from_array_reads_back (NBits : Z) (a : list Z) :
  64 < NBits -> NBits + 63 < 2 ^ 64 ->
  Z.of_nat (length a) = arr_size NBits ->
  NBits mod 64 < 31 ->
  exists b, from_array NBits a = Ok b /\
    Z.of_nat (length b) = arr_size NBits /\
    msb_invariant NBits b /\
    forall q, 0 <= q < NBits ->
      test NBits b q
      = Ok (Z.testbit (nth (length a - 1 - Z.to_nat (q / 64)) a 0) (q mod 64)).
Proof.
  intros Hbig Hmax Hshape Hmask.
  assert (Hpos : 0 < NBits) by lia.
  assert (Hbw : bits_per_word NBits = 64).
  { destruct (bits_per_word_cases NBits) as [[? E]|[[? E]|[[? E]|[? E]]]]; lia. }
  pose proof (arr_size_ceil NBits Hpos Hmax) as Hceil.
  assert (Hmask' : NBits mod bits_per_word NBits < 31) by (rewrite Hbw; exact Hmask).
  assert (Hrev : Z.of_nat (length (reverse a)) = arr_size NBits)
    by (rewrite length_reverse; exact Hshape).
  unfold from_array.
  destruct (mask_msb_word_bits NBits Hpos Hmax Hmask' (reverse a) Hrev)
    as (b & Hb & Hlen & Hbits).
  exists b. split; [exact Hb|].
  assert (Hshape' : Z.of_nat (length b) = arr_size NBits) by congruence.
  split; [exact Hshape'|]. split.
  - apply (mask_msb_word_invariant NBits Hpos Hmax (reverse a) Hrev b Hmask' Hb).
  - intros q Hq.
    rewrite (test_storage_bit NBits Hpos Hmax b Hshape' q Hq), Hbits by lia.
    destruct (Z.ltb_spec q NBits); [|lia]. rewrite andb_true_r.
    unfold storage_bit. rewrite Hbw.
    assert (0 <= q / 64 < arr_size NBits)
      by (split; [apply Z.div_pos; lia | apply Z.div_lt_upper_bound; lia]).
    rewrite reverse_lookup by lia.
    replace (length a - S (Z.to_nat (q / 64)))%nat
      with (length a - 1 - Z.to_nat (q / 64))%nat by lia.
    destruct (lookup_lt_is_Some_2 a (length a - 1 - Z.to_nat (q / 64)) ltac:(lia)) as [w Hl].
    rewrite Hl. simpl. f_equal. f_equal.
    symmetry. apply nth_lookup_Some with (d := 0). exact Hl.
Qed.

Lemma from_array_reads_back_witness :
  exists b, from_array 70 [0x2A; 0x8000000000000001] = Ok b /\
    Z.of_nat (length b) = arr_size 70 /\
    msb_invariant 70 b /\
    forall q, 0 <= q < 70 ->
      test 70 b q
      = Ok (Z.testbit (nth (length [0x2A; 0x8000000000000001] - 1 - Z.to_nat (q / 64))
                         [0x2A; 0x8000000000000001] 0) (q mod 64)).
Proof.
  apply (from_array_reads_back 70 [0x2A; 0x8000000000000001]);
    [lia | lia | reflexivity | reflexivity].
Defined.

(** ** Bulk set, counting and the whole-array queries *)

Lemma msb_invariantb_sound NBits (bits : list Z) :
  0 < NBits -> NBits + 63 < 2 ^ 64 ->
  Z.of_nat (length bits) = arr_size NBits ->
  msb_invariantb NBits bits = true -> msb_invariant NBits bits.
Proof.
  intros Hpos Hmax Hshape Hb p Hp.
  destruct (Z.lt_ge_cases p (bits_in_storage NBits)) as [Hin|Hout].
  - unfold msb_invariantb in Hb. rewrite forallb_forall in Hb.
    specialize (Hb p). rewrite negb_true_iff in Hb. apply Hb.
    apply list_elem_of_In, elem_of_seqZ. lia.
  - apply storage_bit_out_of_range.
    rewrite Hshape, <- bits_in_storage_eq by assumption. exact Hout.
Qed.

Lemma none_false_of_bit NBits (bits : list Z) p :
  storage_bit NBits bits p = true -> none bits = false.
Proof.
  intros Hp. destruct (none bits) eqn:Hn; [|reflexivity].
  rewrite (bits_of_none NBits bits p Hn) in Hp. discriminate.
Qed.

(** X4: where the mask computation is defined, [set()] succeeds and
    leaves exactly the logical bits set: the MSB invariant holds, every
    [test(q)] is true, [count()] equals the size, [any()] holds and
    [none()] does not. *)
Theorem set_all_sets_every_bit (NBits : Z) (bits : list Z) :
  0 < NBits -> NBits + 63 < 2 ^ 64 ->
  NBits mod bits_per_word NBits < 31 ->
  Z.of_nat (length bits) = arr_size NBits ->
  exists b, set_all NBits bits = Ok b /\
    well_formed NBits b /\
    msb_invariant NBits b /\
    (forall q, 0 <= q < NBits -> test NBits b q = Ok true) /\
    count NBits b = NBits /\
    any b = true /\ none b = false.
Proof.
  intros Hpos Hmax Hmask Hshape.
  destruct (set_all_bits NBits Hpos Hmax bits Hshape Hmask) as (b & Hb & Hlen & Hbits).
  assert (Hshape' : Z.of_nat (length b) = arr_size NBits) by congruence.
  assert (Hinv : msb_invariant NBits b).
  { intros p Hp. rewrite Hbits by lia. apply Z.ltb_ge. lia. }
  assert (Hnone : none b = false).
  { apply (none_false_of_bit NBits b 0). rewrite Hbits by lia. apply Z.ltb_lt. lia. }
  exists b. split; [exact Hb|].
  split; [split; [exact Hshape' | exact (set_all_range NBits Hpos Hmax Hmask bits Hshape b Hb)]|].
  split; [exact Hinv|]. split.
  { intros q Hq. rewrite (test_storage_bit NBits Hpos Hmax b Hshape' q Hq), Hbits by lia.
    f_equal. apply Z.ltb_lt. lia. }
  split.
  { rewrite (count_logical NBits Hpos Hmax b Hshape' Hinv).
    rewrite count_true_every; [lia|]. intros j Hj.
    rewrite (test_true_storage_bit NBits Hpos Hmax b Hshape') by lia.
    rewrite Hbits by lia. apply Z.ltb_lt. lia. }
  split; [rewrite any_negb_none, Hnone; reflexivity | exact Hnone].
Qed.

Lemma set_all_sets_every_bit_witness :
  exists b, set_all 70 [5; 9] = Ok b /\
    well_formed 70 b /\
    msb_invariant 70 b /\
    (forall q, 0 <= q < 70 -> test 70 b q = Ok true) /\
    count 70 b = 70 /\
    any b = true /\ none b = false.
Proof.
  apply (set_all_sets_every_bit 70 [5; 9]); [lia | lia | reflexivity | reflexivity].
Defined.

(** X5: on a state that satisfies the MSB invariant, [count()] is the
    number of positions below the size at which [test] answers true, so
    it never exceeds the size. *)
Theorem count_counts_logical_bits (NBits : Z) (bits : list Z) :
  0 < NBits -> NBits + 63 < 2 ^ 64 ->
  Z.of_nat (length bits) = arr_size NBits ->
  msb_invariant NBits bits ->
  count NBits bits = count_true (test_true NBits bits) 0 (Z.to_nat NBits) /\
  0 <= count NBits bits <= NBits.
Proof.
  intros Hpos Hmax Hshape Hinv.
  rewrite (count_logical NBits Hpos Hmax bits Hshape Hinv).
  split; [reflexivity|].
  pose proof (count_true_bounds (test_true NBits bits) (Z.to_nat NBits) 0). lia.
Qed.

Lemma count_counts_logical_bits_witness :
  count 9 [0x0155] = count_true (test_true 9 [0x0155]) 0 (Z.to_nat 9) /\
  0 <= count 9 [0x0155] <= 9.
Proof.
  apply (count_counts_logical_bits 9 [0x0155]); [lia | lia | reflexivity |].
  apply msb_invariantb_sound; [lia | lia | reflexivity | reflexivity].
Defined.

(** X6: every state reached from a constructor through operations
    other than [flip()], each of them with defined behaviour, has
    [arr_size] words, satisfies the MSB invariant, and has a [count()] of
    at most the size.  Where the mask computation is defined
    ([NBits mod bits_per_word < 31]) both converting constructors,
    [set()], [reset()] and the single-bit operations at positions below
    the size are defined on every such state, so that the statement
    covers every use of the class without [flip()]; for the other sizes
    [set()] and the converting constructors are undefined and nothing is
    said about what they leave behind. *)
Theorem reachable_without_flip_sound (NBits : Z) (bits : list Z) :
  0 < NBits -> NBits + 63 < 2 ^ 64 ->
  reachable NBits false bits ->
  (Z.of_nat (length bits) = arr_size NBits /\
   msb_invariant NBits bits /\
   0 <= count NBits bits <= NBits) /\
  (NBits mod bits_per_word NBits < 31 ->
   (forall v, NBits <= 64 ->
      exists b, from_word NBits v = Ok b /\ reachable NBits false b) /\
   (forall a, 64 < NBits -> Z.of_nat (length a) = arr_size NBits ->
      exists b, from_array NBits a = Ok b /\ reachable NBits false b) /\
   (exists b, set_all NBits bits = Ok b /\ reachable NBits false b) /\
   (exists b, reset_all bits = Ok b /\ reachable NBits false b) /\
   (forall pos, 0 <= pos < NBits ->
      (forall value, exists b,
         set_bit NBits bits pos value = Ok b /\ reachable NBits false b) /\
      (exists b, reset_bit NBits bits pos = Ok b /\ reachable NBits false b) /\
      (exists b, flip_bit NBits bits pos = Ok b /\ reachable NBits false b))).
Proof.
  intros Hpos Hmax Hreach.
  pose proof (reachable_shape NBits false bits Hpos Hmax Hreach) as Hshape.
  pose proof (reachable_without_flip_invariant NBits bits Hpos Hmax Hreach) as Hinv.
  split.
  { split; [exact Hshape|]. split; [exact Hinv|].
    rewrite (count_logical NBits Hpos Hmax bits Hshape Hinv).
    pose proof (count_true_bounds (test_true NBits bits) (Z.to_nat NBits) 0). lia. }
  intros Hmask.
  pose proof (arr_size_pos NBits Hpos Hmax) as Hsize.
  split; [|split; [|split; [|split]]].
  - intros v Hsmall. unfold from_word.
    destruct (mask_msb_word_spec NBits Hpos Hmax Hmask
                (v :: replicate (Z.to_nat (arr_size NBits - 1)) 0))
      as (w & _ & Hrun).
    { simpl length. rewrite length_replicate. lia. }
    eexists. split; [exact Hrun|].
    apply (reach_from_word NBits false v); [exact Hsmall | exact Hrun].
  - intros a Hlarge Hlen. unfold from_array.
    destruct (mask_msb_word_spec NBits Hpos Hmax Hmask (reverse a)) as (w & _ & Hrun).
    { rewrite length_reverse. exact Hlen. }
    eexists. split; [exact Hrun|].
    apply (reach_from_array NBits false a); [exact Hlarge | exact Hlen | exact Hrun].
  - destruct (set_all_bits NBits Hpos Hmax bits Hshape Hmask) as (b & Hb & _).
    exists b. split; [exact Hb|]. exact (reach_set_all NBits false bits b Hreach Hb).
  - eexists. split; [reflexivity|].
    apply (reach_reset_all NBits false bits); [exact Hreach | reflexivity].
  - intros pos Hp. split; [|split].
    + intros value.
      destruct (set_bit_spec NBits Hpos Hmax bits Hshape pos value Hp) as (b & Hb & _).
      exists b. split; [exact Hb|].
      apply (reach_set_bit NBits false bits pos value); [exact Hreach | lia | exact Hb].
    + destruct (set_bit_spec NBits Hpos Hmax bits Hshape pos false Hp) as (b & Hb & _).
      exists b. split; [exact Hb|].
      apply (reach_reset_bit NBits false bits pos); [exact Hreach | lia | exact Hb].
    + destruct (flip_bit_spec NBits Hpos Hmax bits Hshape pos Hp) as (b & Hb & _).
      exists b. split; [exact Hb|].
      apply (reach_flip_bit NBits false bits pos); [exact Hreach | lia | exact Hb].
Qed.

Lemma reachable_without_flip_sound_witness :
  (Z.of_nat (length [0x01F7]) = arr_size 9 /\
   msb_invariant 9 [0x01F7] /\
   0 <= count 9 [0x01F7] <= 9) /\
  exists b, set_all 9 [0x01F7] = Ok b /\ reachable 9 false b.
Proof.
  destruct (reachable_without_flip_sound 9 [0x01F7]) as [Hsound Htotal]; [lia | lia | |].
  - apply (reach_reset_bit 9 false [0x01FF] 3); [| lia | reflexivity].
    apply (reach_set_all 9 false (default_bits 9)); [apply reach_default | reflexivity].
  - split; [exact Hsound|].
    destruct (Htotal ltac:(reflexivity)) as (_ & _ & Hset & _). exact Hset.
Defined.

(** X7: a single-bit mutator changes [count()] by the bit it changes:
    after [set(pos, value)] the count is the old count, minus one if the
    bit was set, plus one if [value] is true; [flip(pos)] moves it by one
    up or down. *)
Theorem count_after_single_bit (NBits : Z) (bits : list Z) (pos : Z) :
  0 < NBits -> NBits + 63 < 2 ^ 64 ->
  Z.of_nat (length bits) = arr_size NBits ->
  0 <= pos < NBits ->
  (forall value, exists b, set_bit NBits bits pos value = Ok b /\
     count NBits b
     = count NBits bits - Z.b2z (test_true NBits bits pos) + Z.b2z value) /\
  (exists b, flip_bit NBits bits pos = Ok b /\
     count NBits b
     = count NBits bits + 1 - 2 * Z.b2z (test_true NBits bits pos)).
Proof.
  intros Hpos Hmax Hshape Hp.
  pose proof (storage_covers NBits Hpos Hmax) as Hcov.
  rewrite (test_true_storage_bit NBits Hpos Hmax bits Hshape pos Hp).
  split.
  - intros value.
    destruct (set_bit_spec NBits Hpos Hmax bits Hshape pos value Hp) as (b & Hb & Hlen & Hbits).
    exists b. split; [exact Hb|].
    rewrite (count_storage NBits Hpos Hmax b ltac:(congruence)).
    rewrite (count_storage NBits Hpos Hmax bits Hshape).
    rewrite (count_true_update (storage_bit NBits bits) (storage_bit NBits b) pos); [| lia |].
    + rewrite (Hbits pos) by lia. rewrite Z.eqb_refl. reflexivity.
    + intros j Hj Hne. rewrite Hbits by lia. destruct (Z.eqb_spec j pos); [contradiction|reflexivity].
  - destruct (flip_bit_spec NBits Hpos Hmax bits Hshape pos Hp) as (b & Hb & Hlen & Hbits).
    exists b. split; [exact Hb|].
    rewrite (count_storage NBits Hpos Hmax b ltac:(congruence)).
    rewrite (count_storage NBits Hpos Hmax bits Hshape).
    rewrite (count_true_update (storage_bit NBits bits) (storage_bit NBits b) pos); [| lia |].
    + rewrite (Hbits pos) by lia. rewrite Z.eqb_refl.
      destruct (storage_bit NBits bits pos); simpl; lia.
    + intros j Hj Hne. rewrite Hbits by lia. destruct (Z.eqb_spec j pos); [contradiction|reflexivity].
Qed.

Lemma count_after_single_bit_witness :
  (forall value, exists b, set_bit 65 [0xF0; 1] 4 value = Ok b /\
     count 65 b = count 65 [0xF0; 1] - Z.b2z (test_true 65 [0xF0; 1] 4) + Z.b2z value) /\
  (exists b, flip_bit 65 [0xF0; 1] 4 = Ok b /\
     count 65 b = count 65 [0xF0; 1] + 1 - 2 * Z.b2z (test_true 65 [0xF0; 1] 4)).
Proof.
  apply (count_after_single_bit 65 [0xF0; 1] 4); [lia | lia | reflexivity | lia].
Defined.

Lemma flip_bit_range NBits (bits bits' : list Z) pos :
  Forall (word_ok NBits) bits ->
  flip_bit NBits bits pos = Ok bits' ->
  Forall (word_ok NBits) bits'.
Proof.
  intros Hok. unfold flip_bit.
  destruct (get_word NBits bits pos) as [w| |]; try discriminate.
  rewrite result_bind_Ok. unfold store_index.
  destruct (_ && _); [|discriminate].
  intros [= <-]. apply Forall_insert; [exact Hok | apply to_word_range].
Qed.

Lemma flip_all_body_range NBits (bits : list Z) :
  Forall (word_ok NBits) (flip_all_body NBits bits).
Proof.
  apply Forall_forall. intros x Hin.
  apply list_elem_of_In, in_map_iff in Hin as (w & <- & _). apply to_word_range.
Qed.

(** X8: the body of [flip()] inverts every logical bit and every padding
    bit alike: [test(q)] is negated for each [q] below the size, the
    count becomes the storage width minus the old count, and applying the
    body twice gives back the original words. *)
Theorem flip_all_body_complements (NBits : Z) (bits : list Z) :
  0 < NBits -> NBits + 63 < 2 ^ 64 ->
  well_formed NBits bits ->
  (forall q, 0 <= q < NBits ->
     test NBits (flip_all_body NBits bits) q = Ok (negb (test_true NBits bits q))) /\
  count NBits (flip_all_body NBits bits) = bits_in_storage NBits - count NBits bits /\
  flip_all_body NBits (flip_all_body NBits bits) = bits.
Proof.
  intros Hpos Hmax [Hshape Hrange].
  pose proof (storage_covers NBits Hpos Hmax) as Hcov.
  assert (Hshape' : Z.of_nat (length (flip_all_body NBits bits)) = arr_size NBits)
    by (unfold flip_all_body; rewrite length_map; exact Hshape).
  assert (Hshape'' : Z.of_nat (length (flip_all_body NBits (flip_all_body NBits bits)))
                     = arr_size NBits)
    by (unfold flip_all_body at 1; rewrite length_map; exact Hshape').
  split; [|split].
  - intros q Hq.
    rewrite (test_storage_bit NBits Hpos Hmax _ Hshape' q Hq).
    rewrite (flip_all_body_bits NBits Hpos Hmax bits Hshape) by lia.
    rewrite (test_true_storage_bit NBits Hpos Hmax bits Hshape q Hq). reflexivity.
  - rewrite (count_storage NBits Hpos Hmax _ Hshape').
    rewrite (count_storage NBits Hpos Hmax bits Hshape).
    rewrite (count_true_ext _ (fun j => negb (storage_bit NBits bits j))).
    + rewrite count_true_negb. lia.
    + intros j Hj. apply (flip_all_body_bits NBits Hpos Hmax bits Hshape). lia.
  - apply (storage_ext NBits); [lia | apply flip_all_body_range | exact Hrange |].
    intros p Hp.
    destruct (Z.lt_ge_cases p (bits_in_storage NBits)) as [Hin|Hout].
    + rewrite (flip_all_body_bits NBits Hpos Hmax _ Hshape') by lia.
      rewrite (flip_all_body_bits NBits Hpos Hmax bits Hshape) by lia.
      apply negb_involutive.
    + rewrite !storage_bit_out_of_range; [reflexivity | |];
        rewrite ?Hshape, ?Hshape'', <- bits_in_storage_eq by assumption; exact Hout.
Qed.

Lemma flip_all_body_complements_witness :
  (forall q, 0 <= q < 9 ->
     test 9 (flip_all_body 9 [0x0155]) q = Ok (negb (test_true 9 [0x0155] q))) /\
  count 9 (flip_all_body 9 [0x0155]) = bits_in_storage 9 - count 9 [0x0155] /\
  flip_all_body 9 (flip_all_body 9 [0x0155]) = [0x0155].
Proof.
  apply (flip_all_body_complements 9 [0x0155]); [lia | lia |].
  split; [reflexivity | repeat constructor; unfold word_ok; simpl; lia].
Defined.

Section Queries.
Context (NBits : Z) (NBits_pos : 0 < NBits) (NBits_max : NBits + 63 < 2 ^ 64).
Context (bits : list Z) (shape : Z.of_nat (length bits) = arr_size NBits).
Context (range : Forall (word_ok NBits) bits).

Lemma none_iff_storage :
  none bits = true <-> forall p, 0 <= p -> storage_bit NBits bits p = false.
Proof using range.
  split.
  - intros Hn p _. apply bits_of_none, Hn.
  - intros Hb. apply (none_of_bits NBits); [exact range|]. intros p Hp. apply Hb. lia.
Qed.

Lemma storage_clear_of_logical :
  msb_invariant NBits bits ->
  (forall q, 0 <= q < NBits -> storage_bit NBits bits q = false) ->
  forall p, 0 <= p -> storage_bit NBits bits p = false.
Proof using Type.
  intros Hinv Hlog p Hp.
  destruct (Z.lt_ge_cases p NBits); [apply Hlog | apply Hinv]; lia.
Qed.

Lemma find_first_one_cases :
  msb_invariant NBits bits ->
  (find_first_one NBits bits = NBits /\
   forall q, 0 <= q < NBits -> storage_bit NBits bits q = false) \/
  (0 <= find_first_one NBits bits < NBits /\
   storage_bit NBits bits (find_first_one NBits bits) = true /\
   forall q, 0 <= q < find_first_one NBits bits -> storage_bit NBits bits q = false).
Proof using NBits_pos NBits_max range.
  intros Hinv.
  destruct (least_position (storage_bit NBits bits) (Z.to_nat NBits))
    as [Hnone|(k & Hk & Hset & Hlow)].
  - left. split; [|intros q Hq; apply Hnone; lia].
    apply find_first_one_from_zeros, none_iff_storage.
    apply storage_clear_of_logical; [exact Hinv|]. intros q Hq. apply Hnone. lia.
  - right. unfold find_first_one.
    rewrite (find_first_one_from_spec NBits bits 0 k); [| exact range | lia | lia | lia | exact Hset | exact Hlow].
    rewrite Z.mul_0_l, Z.add_0_l. split; [lia|]. split; assumption.
Qed.

Lemma find_first_zero_cases :
  msb_invariant NBits bits ->
  (find_first_zero NBits bits = NBits /\
   forall q, 0 <= q < NBits -> storage_bit NBits bits q = true) \/
  (0 <= find_first_zero NBits bits < NBits /\
   storage_bit NBits bits (find_first_zero NBits bits) = false /\
   forall q, 0 <= q < find_first_zero NBits bits -> storage_bit NBits bits q = true).
Proof using NBits_pos NBits_max shape range.
  intros Hinv.
  pose proof (storage_covers NBits NBits_pos NBits_max) as Hcov.
  rewrite bits_in_storage_eq in Hcov by assumption.
  destruct (least_position (fun j => negb (storage_bit NBits bits j)) (Z.to_nat NBits))
    as [Hall|(k & Hk & Hclear & Hlow)].
  - left.
    assert (Hlog : forall q, 0 <= q < NBits -> storage_bit NBits bits q = true).
    { intros q Hq. specialize (Hall q ltac:(lia)). apply negb_false_iff in Hall. exact Hall. }
    split; [|exact Hlog]. unfold find_first_zero.
    destruct (Z.eq_dec NBits (arr_size NBits * bits_per_word NBits)) as [Hfull|Hpart].
    + apply find_first_zero_from_ones, all_of_bits; [exact range|].
      intros p Hp. apply Hlog. rewrite shape in Hp. lia.
    + rewrite (find_first_zero_from_spec NBits bits 0 NBits);
        [lia | exact range | lia | lia | lia | rewrite shape; lia | apply Hinv; lia | exact Hlog].
  - right. apply negb_true_iff in Hclear. unfold find_first_zero.
    rewrite (find_first_zero_from_spec NBits bits 0 k);
      [| exact range | lia | lia | lia | rewrite shape; lia | exact Hclear |].
    + rewrite Z.mul_0_l, Z.add_0_l. split; [lia|]. split; [exact Hclear|].
      intros q Hq. specialize (Hlow q Hq). apply negb_false_iff in Hlow. exact Hlow.
    + intros q Hq. specialize (Hlow q Hq). apply negb_false_iff in Hlow. exact Hlow.
Qed.
End Queries.

(** X9: on a well-formed state that satisfies the MSB invariant,
    [none()] holds exactly when every [test(q)] is false, [any()] holds
    exactly when some [test(q)] is true, and [any()] is the negation of
    [none()]. *)
Theorem any_none_logical (NBits : Z) (bits : list Z) :
  0 < NBits -> NBits + 63 < 2 ^ 64 ->
  well_formed NBits bits -> msb_invariant NBits bits ->
  (none bits = true <-> forall q, 0 <= q < NBits -> test NBits bits q = Ok false) /\
  (any bits = true <-> exists q, 0 <= q < NBits /\ test NBits bits q = Ok true) /\
  any bits = negb (none bits).
Proof.
  intros Hpos Hmax [Hshape Hrange] Hinv.
  assert (Htest : forall q, 0 <= q < NBits ->
            test NBits bits q = Ok (storage_bit NBits bits q))
    by (intros q Hq; apply (test_storage_bit NBits Hpos Hmax bits Hshape q Hq)).
  assert (Hnone : none bits = true <->
            forall q, 0 <= q < NBits -> test NBits bits q = Ok false).
  { split.
    - intros Hn q Hq. rewrite Htest by assumption. f_equal. apply bits_of_none, Hn.
    - intros Hq. apply (none_iff_storage NBits bits Hrange).
      apply storage_clear_of_logical; [exact Hinv|].
      intros q Hq'. specialize (Hq q Hq'). rewrite Htest in Hq by assumption. congruence. }
  split; [exact Hnone|]. split; [|apply any_negb_none].
  rewrite any_negb_none, negb_true_iff. split.
  - intros Hn.
    destruct (least_position (storage_bit NBits bits) (Z.to_nat NBits))
      as [Hall|(k & Hk & Hset & _)].
    + exfalso. assert (none bits = true); [|congruence].
      apply Hnone. intros q Hq. rewrite Htest by assumption. f_equal. apply Hall. lia.
    + exists k. split; [lia|]. rewrite Htest by lia. f_equal. exact Hset.
  - intros (q & Hq & Ht). rewrite Htest in Ht by assumption.
    apply (none_false_of_bit NBits bits q). congruence.
Qed.

Lemma any_none_logical_witness :
  (none [0x0100] = true <-> forall q, 0 <= q < 9 -> test 9 [0x0100] q = Ok false) /\
  (any [0x0100] = true <-> exists q, 0 <= q < 9 /\ test 9 [0x0100] q = Ok true) /\
  any [0x0100] = negb (none [0x0100]).
Proof.
  apply (any_none_logical 9 [0x0100]); [lia | lia | |].
  - split; [reflexivity | repeat constructor; unfold word_ok; simpl; lia].
  - apply msb_invariantb_sound; [lia | lia | reflexivity | reflexivity].
Defined.

(** X10: when the size fills the storage exactly (8, 16, 32 or a
    multiple of 64), [all()] holds exactly when every [test(q)] is
    true. *)
Theorem all_when_storage_full (NBits : Z) (bits : list Z) :
  0 < NBits -> NBits + 63 < 2 ^ 64 ->
  NBits = bits_in_storage NBits ->
  well_formed NBits bits ->
  (all NBits bits = true <-> forall q, 0 <= q < NBits -> test NBits bits q = Ok true).
Proof.
  intros Hpos Hmax Hfull [Hshape Hrange].
  rewrite bits_in_storage_eq in Hfull by assumption.
  split.
  - intros Hall q Hq. rewrite (test_storage_bit NBits Hpos Hmax bits Hshape q Hq).
    f_equal. apply bits_of_all; [exact Hall | rewrite Hshape; lia].
  - intros Ht. apply all_of_bits; [exact Hrange|]. intros p Hp.
    rewrite Hshape, <- Hfull in Hp. specialize (Ht p Hp).
    rewrite (test_storage_bit NBits Hpos Hmax bits Hshape p Hp) in Ht. congruence.
Qed.

Lemma all_when_storage_full_witness :
  all 16 [0xFFFF] = true <-> forall q, 0 <= q < 16 -> test 16 [0xFFFF] q = Ok true.
Proof.
  apply (all_when_storage_full 16 [0xFFFF]); [lia | lia | reflexivity |].
  split; [reflexivity | repeat constructor; unfold word_ok; simpl; lia].
Defined.

(** X11: on a well-formed state that satisfies the MSB invariant,
    [find_first_one()] returns either the size, and then no bit is set, or
    a position below the size whose bit is set while every lower bit is
    clear. *)
Theorem find_first_one_least (NBits : Z) (bits : list Z) :
  0 < NBits -> NBits + 63 < 2 ^ 64 ->
  well_formed NBits bits -> msb_invariant NBits bits ->
  (find_first_one NBits bits = NBits /\
   forall q, 0 <= q < NBits -> test NBits bits q = Ok false) \/
  (0 <= find_first_one NBits bits < NBits /\
   test NBits bits (find_first_one NBits bits) = Ok true /\
   forall q, 0 <= q < find_first_one NBits bits -> test NBits bits q = Ok false).
Proof.
  intros Hpos Hmax [Hshape Hrange] Hinv.
  destruct (find_first_one_cases NBits Hpos Hmax bits Hrange Hinv)
    as [[Hr Hnone]|(Hr & Hset & Hlow)]; [left | right].
  - split; [exact Hr|]. intros q Hq.
    rewrite (test_storage_bit NBits Hpos Hmax bits Hshape q Hq). f_equal. apply Hnone, Hq.
  - split; [exact Hr|]. split.
    + rewrite (test_storage_bit NBits Hpos Hmax bits Hshape _ Hr). f_equal. exact Hset.
    + intros q Hq.
      rewrite (test_storage_bit NBits Hpos Hmax bits Hshape q ltac:(lia)). f_equal.
      apply Hlow, Hq.
Qed.

Lemma find_first_one_least_witness :
  (find_first_one 9 [0x0150] = 9 /\
   forall q, 0 <= q < 9 -> test 9 [0x0150] q = Ok false) \/
  (0 <= find_first_one 9 [0x0150] < 9 /\
   test 9 [0x0150] (find_first_one 9 [0x0150]) = Ok true /\
   forall q, 0 <= q < find_first_one 9 [0x0150] -> test 9 [0x0150] q = Ok false).
Proof.
  apply (find_first_one_least 9 [0x0150]); [lia | lia | |].
  - split; [reflexivity | repeat constructor; unfold word_ok; simpl; lia].
  - apply msb_invariantb_sound; [lia | lia | reflexivity | reflexivity].
Defined.

(** X12: on a well-formed state that satisfies the MSB invariant,
    [find_first_zero()] returns either the size, and then every bit is
    set, or a position below the size whose bit is clear while every lower
    bit is set.  No call of [set()] is involved. *)
Theorem find_first_zero_least (NBits : Z) (bits : list Z) :
  0 < NBits -> NBits + 63 < 2 ^ 64 ->
  well_formed NBits bits -> msb_invariant NBits bits ->
  (find_first_zero NBits bits = NBits /\
   forall q, 0 <= q < NBits -> test NBits bits q = Ok true) \/
  (0 <= find_first_zero NBits bits < NBits /\
   test NBits bits (find_first_zero NBits bits) = Ok false /\
   forall q, 0 <= q < find_first_zero NBits bits -> test NBits bits q = Ok true).
Proof.
  intros Hpos Hmax [Hshape Hrange] Hinv.
  destruct (find_first_zero_cases NBits Hpos Hmax bits Hshape Hrange Hinv)
    as [[Hr Hall]|(Hr & Hclear & Hlow)]; [left | right].
  - split; [exact Hr|]. intros q Hq.
    rewrite (test_storage_bit NBits Hpos Hmax bits Hshape q Hq). f_equal. apply Hall, Hq.
  - split; [exact Hr|]. split.
    + rewrite (test_storage_bit NBits Hpos Hmax bits Hshape _ Hr). f_equal. exact Hclear.
    + intros q Hq.
      rewrite (test_storage_bit NBits Hpos Hmax bits Hshape q ltac:(lia)). f_equal.
      apply Hlow, Hq.
Qed.

Lemma find_first_zero_least_witness :
  (find_first_zero 9 [0x01FF] = 9 /\
   forall q, 0 <= q < 9 -> test 9 [0x01FF] q = Ok true) \/
  (0 <= find_first_zero 9 [0x01FF] < 9 /\
   test 9 [0x01FF] (find_first_zero 9 [0x01FF]) = Ok false /\
   forall q, 0 <= q < find_first_zero 9 [0x01FF] -> test 9 [0x01FF] q = Ok true).
Proof.
  apply (find_first_zero_least 9 [0x01FF]); [lia | lia | |].
  - split; [reflexivity | repeat constructor; unfold word_ok; simpl; lia].
  - apply msb_invariantb_sound; [lia | lia | reflexivity | reflexivity].
Defined.

(** ** Single-bit mutators: reading back and composing *)

(** X13: for a position below the size, [test(pos)] after
    [set(pos, value)] is [value], after [reset(pos)] it is false, and
    after [flip(pos)] it is the negation of what it was. *)
Theorem single_bit_read_back (NBits : Z) (bits : list Z) (pos : Z) :
  0 < NBits -> NBits + 63 < 2 ^ 64 ->
  Z.of_nat (length bits) = arr_size NBits ->
  0 <= pos < NBits ->
  (forall value, exists b, set_bit NBits bits pos value = Ok b /\
                           test NBits b pos = Ok value) /\
  (exists b, reset_bit NBits bits pos = Ok b /\ test NBits b pos = Ok false) /\
  (exists b, flip_bit NBits bits pos = Ok b /\
             test NBits b pos = Ok (negb (test_true NBits bits pos))).
Proof.
  intros Hpos Hmax Hshape Hp.
  assert (Hset : forall value, exists b, set_bit NBits bits pos value = Ok b /\
                                         test NBits b pos = Ok value).
  { intros value.
    destruct (set_bit_spec NBits Hpos Hmax bits Hshape pos value Hp) as (b & Hb & Hlen & Hbits).
    exists b. split; [exact Hb|].
    rewrite (test_storage_bit NBits Hpos Hmax b ltac:(congruence) pos Hp), Hbits by lia.
    rewrite Z.eqb_refl. reflexivity. }
  split; [exact Hset|]. split; [apply Hset|].
  destruct (flip_bit_spec NBits Hpos Hmax bits Hshape pos Hp) as (b & Hb & Hlen & Hbits).
  exists b. split; [exact Hb|].
  rewrite (test_storage_bit NBits Hpos Hmax b ltac:(congruence) pos Hp), Hbits by lia.
  rewrite Z.eqb_refl, (test_true_storage_bit NBits Hpos Hmax bits Hshape pos Hp). reflexivity.
Qed.

Lemma single_bit_read_back_witness :
  (forall value, exists b, set_bit 65 [0xF0; 1] 64 value = Ok b /\
                           test 65 b 64 = Ok value) /\
  (exists b, reset_bit 65 [0xF0; 1] 64 = Ok b /\ test 65 b 64 = Ok false) /\
  (exists b, flip_bit 65 [0xF0; 1] 64 = Ok b /\
             test 65 b 64 = Ok (negb (test_true 65 [0xF0; 1] 64))).
Proof.
  apply (single_bit_read_back 65 [0xF0; 1] 64); [lia | lia | reflexivity | lia].
Defined.

Section Composition.
Context (NBits : Z) (NBits_pos : 0 < NBits) (NBits_max : NBits + 63 < 2 ^ 64).
Context (bits : list Z) (shape : Z.of_nat (length bits) = arr_size NBits).
Context (range : Forall (word_ok NBits) bits).

(** A mutator whose result has the same storage bits as [target] returns
    [target]. *)
Lemma set_bit_result_eq pos value b target :
  set_bit NBits bits pos value = Ok b ->
  length target = length bits -> Forall (word_ok NBits) target ->
  (forall p, 0 <= p -> storage_bit NBits b p = storage_bit NBits target p) ->
  b = target.
Proof using range.
  intros Hb Hlen Hok Hbits.
  apply (storage_ext NBits); [| | exact Hok | exact Hbits].
  - rewrite (set_bit_length NBits bits b pos value Hb). lia.
  - exact (set_bit_range NBits bits b pos value range Hb).
Qed.

Lemma set_bit_twice pos value :
  0 <= pos < NBits ->
  (set_bit NBits bits pos value ≫= fun b => set_bit NBits b pos value)
  = set_bit NBits bits pos value.
Proof using NBits_pos NBits_max shape range.
  intros Hp.
  destruct (set_bit_spec NBits NBits_pos NBits_max bits shape pos value Hp)
    as (b & Hb & Hlen & Hbits).
  rewrite Hb, result_bind_Ok.
  destruct (set_bit_spec NBits NBits_pos NBits_max b ltac:(congruence) pos value Hp)
    as (b2 & Hb2 & Hlen2 & Hbits2).
  rewrite Hb2. f_equal.
  apply (storage_ext NBits); [congruence | | |].
  - exact (set_bit_range NBits b b2 pos value
             (set_bit_range NBits bits b pos value range Hb) Hb2).
  - exact (set_bit_range NBits bits b pos value range Hb).
  - intros p Hp0. rewrite Hbits2, Hbits by lia.
    destruct (Z.eqb_spec p pos); reflexivity.
Qed.

Lemma set_bit_same pos value :
  0 <= pos < NBits ->
  test NBits bits pos = Ok value -> set_bit NBits bits pos value = Ok bits.
Proof using NBits_pos NBits_max shape range.
  intros Hp Ht.
  rewrite (test_storage_bit NBits NBits_pos NBits_max bits shape pos Hp) in Ht.
  destruct (set_bit_spec NBits NBits_pos NBits_max bits shape pos value Hp)
    as (b & Hb & Hlen & Hbits).
  rewrite Hb. f_equal.
  apply (storage_ext NBits); [exact Hlen | | exact range |].
  - exact (set_bit_range NBits bits b pos value range Hb).
  - intros p Hp0. rewrite Hbits by lia.
    destruct (Z.eqb_spec p pos) as [->|]; congruence.
Qed.

Lemma flip_bit_twice pos :
  0 <= pos < NBits ->
  (flip_bit NBits bits pos ≫= fun b => flip_bit NBits b pos) = Ok bits.
Proof using NBits_pos NBits_max shape range.
  intros Hp.
  destruct (flip_bit_spec NBits NBits_pos NBits_max bits shape pos Hp)
    as (b & Hb & Hlen & Hbits).
  rewrite Hb, result_bind_Ok.
  destruct (flip_bit_spec NBits NBits_pos NBits_max b ltac:(congruence) pos Hp)
    as (b2 & Hb2 & Hlen2 & Hbits2).
  rewrite Hb2. f_equal.
  apply (storage_ext NBits); [congruence | | exact range |].
  - exact (flip_bit_range NBits b b2 pos
             (flip_bit_range NBits bits b pos range Hb) Hb2).
  - intros p Hp0. rewrite Hbits2, Hbits by lia.
    destruct (Z.eqb_spec p pos); [apply negb_involutive | reflexivity].
Qed.

Lemma set_bit_commute p q u v :
  0 <= p < NBits -> 0 <= q < NBits -> p <> q ->
  (set_bit NBits bits p u ≫= fun b => set_bit NBits b q v)
  = (set_bit NBits bits q v ≫= fun b => set_bit NBits b p u).
Proof using NBits_pos NBits_max shape range.
  intros Hp Hq Hne.
  destruct (set_bit_spec NBits NBits_pos NBits_max bits shape p u Hp)
    as (b1 & Hb1 & Hlen1 & Hbits1).
  destruct (set_bit_spec NBits NBits_pos NBits_max bits shape q v Hq)
    as (c1 & Hc1 & Hlenc1 & Hbitsc1).
  rewrite Hb1, Hc1, !result_bind_Ok.
  destruct (set_bit_spec NBits NBits_pos NBits_max b1 ltac:(congruence) q v Hq)
    as (b2 & Hb2 & Hlen2 & Hbits2).
  destruct (set_bit_spec NBits NBits_pos NBits_max c1 ltac:(congruence) p u Hp)
    as (c2 & Hc2 & Hlenc2 & Hbitsc2).
  rewrite Hb2, Hc2. f_equal.
  apply (storage_ext NBits); [congruence | | |].
  - exact (set_bit_range NBits b1 b2 q v (set_bit_range NBits bits b1 p u range Hb1) Hb2).
  - exact (set_bit_range NBits c1 c2 p u (set_bit_range NBits bits c1 q v range Hc1) Hc2).
  - intros x Hx. rewrite Hbits2, Hbits1, Hbitsc2, Hbitsc1 by lia.
    destruct (Z.eqb_spec x q), (Z.eqb_spec x p); try reflexivity. lia.
Qed.
End Composition.

(** X14: on a well-formed state the single-bit mutators compose as
    expected on the stored words themselves: [flip(pos)] twice restores
    the array, [set(pos, value)] twice equals once, [set(pos, value)]
    leaves the array untouched when the bit already has that value, and
    [set] calls on different positions commute. *)
Theorem single_bit_composition (NBits : Z) (bits : list Z) (pos other : Z) (u v : bool) :
  0 < NBits -> NBits + 63 < 2 ^ 64 ->
  well_formed NBits bits ->
  0 <= pos < NBits -> 0 <= other < NBits -> pos <> other ->
  (flip_bit NBits bits pos ≫= fun b => flip_bit NBits b pos) = Ok bits /\
  (set_bit NBits bits pos u ≫= fun b => set_bit NBits b pos u)
    = set_bit NBits bits pos u /\
  (test NBits bits pos = Ok u -> set_bit NBits bits pos u = Ok bits) /\
  (set_bit NBits bits pos u ≫= fun b => set_bit NBits b other v)
    = (set_bit NBits bits other v ≫= fun b => set_bit NBits b pos u).
Proof.
  intros Hpos Hmax [Hshape Hrange] Hp Hq Hne.
  split; [apply flip_bit_twice; assumption|].
  split; [apply set_bit_twice; assumption|].
  split; [apply set_bit_same; assumption|].
  apply set_bit_commute; assumption.
Qed.

Lemma single_bit_composition_witness :
  (flip_bit 65 [0xF0; 1] 64 ≫= fun b => flip_bit 65 b 64) = Ok [0xF0; 1] /\
  (set_bit 65 [0xF0; 1] 64 true ≫= fun b => set_bit 65 b 64 true)
    = set_bit 65 [0xF0; 1] 64 true /\
  (test 65 [0xF0; 1] 64 = Ok true -> set_bit 65 [0xF0; 1] 64 true = Ok [0xF0; 1]) /\
  (set_bit 65 [0xF0; 1] 64 true ≫= fun b => set_bit 65 b 3 false)
    = (set_bit 65 [0xF0; 1] 3 false ≫= fun b => set_bit 65 b 64 true).
Proof.
  apply (single_bit_composition 65 [0xF0; 1] 64 3 true false); [lia | lia | | lia | lia | lia].
  split; [reflexivity | repeat constructor; unfold word_ok; simpl; lia].
Defined.

(** ** Where the mask is defined *)

(** X15: [get_msb_mask] has a defined value exactly when
    [NBits mod bits_per_word] is below 31, and the value then has exactly
    the low [NBits - (arr_size - 1) * bits_per_word] bits set.  For every
    other size (31, 33..63, and sizes above 64 whose remainder modulo 64
    is 31 or more) the mask, [set()] and both converting constructors are
    undefined. *)
Theorem get_msb_mask_domain (NBits : Z) :
  0 < NBits -> NBits + 63 < 2 ^ 64 ->
  (NBits mod bits_per_word NBits < 31 ->
     get_msb_mask NBits = Ok (Z.ones (msb_word_bits NBits)) /\
     0 < msb_word_bits NBits <= bits_per_word NBits) /\
  (31 <= NBits mod bits_per_word NBits ->
     get_msb_mask NBits = Undefined /\
     (forall bits, set_all NBits bits = Undefined) /\
     (forall v, from_word NBits v = Undefined) /\
     (forall a, from_array NBits a = Undefined)).
Proof.
  intros Hpos Hmax. split.
  - intros Hlt. split; [apply get_msb_mask_defined; assumption|].
    apply msb_word_bits_range; assumption.
  - intros Hge.
    pose proof (get_msb_mask_undefined NBits Hpos Hmax Hge) as Hm.
    assert (Hmask : forall bits, mask_msb_word NBits bits = Undefined)
      by (intros bits; unfold mask_msb_word; rewrite Hm; reflexivity).
    split; [exact Hm|]. split; [|split]; intros x; apply Hmask.
Qed.

Lemma get_msb_mask_domain_witness :
  (get_msb_mask 70 = Ok (Z.ones (msb_word_bits 70)) /\
   0 < msb_word_bits 70 <= bits_per_word 70) /\
  (get_msb_mask 100 = Undefined /\
   (forall bits, set_all 100 bits = Undefined) /\
   (forall v, from_word 100 v = Undefined) /\
   (forall a, from_array 100 a = Undefined)).
Proof.
  split.
  - apply (get_msb_mask_domain 70); [lia | lia | reflexivity].
  - apply (get_msb_mask_domain 100); [lia | lia | vm_compute; discriminate].
Defined.

(** * The UTF-8 glyph reader *)

Lemma lor_add_disjoint a b k :
  0 <= k -> 0 <= b < 2 ^ k -> a mod 2 ^ k = 0 -> Z.lor a b = a + b.
Proof.
  intros Hk Hb Ha.
  enough (Z.land a b = 0) by (pose proof (Z.add_lor_land a b); lia).
  apply Z.bits_inj'. intros n Hn. rewrite Z.land_spec, Z.bits_0.
  destruct (Z.lt_ge_cases n k).
  - rewrite <- (Z.mod_pow2_bits_low a k n), Ha, Z.bits_0 by lia. reflexivity.
  - rewrite <- (Z.mod_small b (2 ^ k)), Z.mod_pow2_bits_high by lia. apply andb_false_r.
Qed.

Lemma land_low_bits m k x : m = Z.ones k -> 0 <= k -> Z.land m x = x mod 2 ^ k.
Proof. intros -> Hk. rewrite Z.land_comm. apply Z.land_ones, Hk. Qed.

Lemma utf8_char_round_trip s x :
  0 <= x < 256 -> Utf8.to_uchar (Utf8.char_value s x) = x.
Proof.
  intros Hx. unfold Utf8.to_uchar, Utf8.char_value.
  destruct (s && (128 <=? x)).
  - replace (x - 256) with (x + (-1) * 256) by lia.
    rewrite Z.mod_add, Z.mod_small by lia. reflexivity.
  - apply Z.mod_small. lia.
Qed.

(** Masking a [char] with [0x3f] gives the low six bits of its byte,
    whatever the signedness of [char]. *)
Lemma utf8_low_six s x : Z.land 0x3f (Utf8.char_value s x) = x mod 64.
Proof.
  rewrite (land_low_bits 0x3f 6) by (reflexivity || lia).
  unfold Utf8.char_value. destruct (s && (128 <=? x)); [|reflexivity].
  replace (x - 256) with (x + (-4) * 2 ^ 6) by lia.
  apply Z.mod_add. lia.
Qed.

Lemma utf8_cursor_eq (m m' : list Z) b b' e e' :
  m = m' -> b = b' -> e = e' ->
  {| Utf8.mem := m; Utf8.begin_ := b; Utf8.end_ := e |}
  = {| Utf8.mem := m'; Utf8.begin_ := b'; Utf8.end_ := e' |}.
Proof. intros -> -> ->. reflexivity. Qed.

Lemma utf8_cursor_at_snoc (pre seen post : list Z) x :
  Utf8.cursor_at (pre ++ [x]) seen post
  = {| Utf8.mem := pre ++ (x :: seen) ++ post;
       Utf8.begin_ := Z.of_nat (length pre) + 1;
       Utf8.end_ := Z.of_nat (length pre) + Z.of_nat (length (x :: seen)) |}.
Proof.
  unfold Utf8.cursor_at. apply utf8_cursor_eq.
  - rewrite <- app_assoc. reflexivity.
  - rewrite length_app. simpl. lia.
  - rewrite length_app. simpl. lia.
Qed.

Lemma utf8_remaining_at (pre seen post : list Z) :
  Z.of_nat (length (pre ++ seen ++ post)) < 2 ^ 63 ->
  Utf8.remaining (Utf8.cursor_at pre seen post) = Z.of_nat (length seen).
Proof.
  intros Hlen. unfold Utf8.remaining, Utf8.cursor_at, to_size_t. simpl.
  rewrite !length_app in Hlen. rewrite Z.mod_small; lia.
Qed.

Lemma utf8_next_at (pre seen post : list Z) x :
  Utf8.next (Utf8.cursor_at pre (x :: seen) post)
  = Ok (x, Utf8.cursor_at (pre ++ [x]) seen post).
Proof.
  rewrite utf8_cursor_at_snoc. unfold Utf8.next, Utf8.cursor_at.
  cbn [Utf8.mem Utf8.begin_ Utf8.end_].
  assert (Hlen : Z.of_nat (length (pre ++ (x :: seen) ++ post))
                 = Z.of_nat (length pre) + 1 + Z.of_nat (length seen) + Z.of_nat (length post)).
  { rewrite !length_app. simpl. lia. }
  assert (Hseen : Z.of_nat (length (x :: seen)) = 1 + Z.of_nat (length seen))
    by (simpl length; lia).
  destruct (Z.ltb_spec (Z.of_nat (length (pre ++ (x :: seen) ++ post)))
              (Z.of_nat (length pre) + 1)) as [|_]; [lia|].
  destruct (Z.leb_spec (Z.of_nat (length pre) + 1)
              (Z.of_nat (length pre) + Z.of_nat (length (x :: seen)))) as [_|]; [|lia].
  unfold at_index.
  destruct (Z.leb_spec 0 (Z.of_nat (length pre))) as [_|]; [|lia].
  destruct (Z.ltb_spec (Z.of_nat (length pre))
              (Z.of_nat (length (pre ++ (x :: seen) ++ post)))) as [_|]; [|lia].
  cbn [andb]. rewrite Nat2Z.id.
  change ((x :: seen) ++ post) with (x :: seen ++ post).
  rewrite (list_lookup_middle pre (seen ++ post) x (length pre) eq_refl).
  reflexivity.
Qed.

(** On an exhausted cursor [next] does not return. *)
Lemma utf8_next_at_end (pre post : list Z) :
  Utf8.next (Utf8.cursor_at pre [] post)
  = match post with [] => Undefined | _ => AssertFail end.
Proof.
  unfold Utf8.next, Utf8.cursor_at. cbn [Utf8.mem Utf8.begin_ Utf8.end_].
  change ([] ++ post) with post.
  assert (Hlen : Z.of_nat (length (pre ++ post))
                 = Z.of_nat (length pre) + Z.of_nat (length post))
    by (rewrite length_app; lia).
  change (Z.of_nat (@length Z [])) with 0.
  destruct post as [|y post].
  - destruct (Z.ltb_spec (Z.of_nat (length (pre ++ []))) (Z.of_nat (length pre) + 1)) as [_|];
      [reflexivity | simpl length in Hlen; lia].
  - assert (Z.of_nat (length (y :: post)) = 1 + Z.of_nat (length post)) by (simpl length; lia).
    destruct (Z.ltb_spec (Z.of_nat (length (pre ++ y :: post))) (Z.of_nat (length pre) + 1))
      as [|_]; [lia|].
    destruct (Z.leb_spec (Z.of_nat (length pre) + 1) (Z.of_nat (length pre) + 0)) as [|_];
      [lia | reflexivity].
Qed.

Lemma utf8_two_bytes b1 y :
  Z.lor (Z.shiftl (Z.land 0x1f b1) 6) (y mod 64) = (b1 mod 32) * 64 + y mod 64.
Proof.
  rewrite (land_low_bits 0x1f 5) by (reflexivity || lia).
  rewrite Z.shiftl_mul_pow2 by lia. change (2 ^ 5) with 32. change (2 ^ 6) with 64.
  apply (lor_add_disjoint _ _ 6); [lia | apply Z.mod_pos_bound; lia | apply Z.mod_mul; lia].
Qed.

Lemma utf8_three_bytes b1 y z :
  Z.lor (Z.lor (Z.shiftl (Z.land 0x0f b1) 12) (Z.shiftl (y mod 64) 6)) (z mod 64)
  = ((b1 mod 16) * 64 + y mod 64) * 64 + z mod 64.
Proof.
  rewrite (land_low_bits 0x0f 4) by (reflexivity || lia).
  rewrite !Z.shiftl_mul_pow2 by lia.
  change (2 ^ 4) with 16. change (2 ^ 6) with 64. change (2 ^ 12) with (64 * 64).
  pose proof (Z.mod_pos_bound y 64 ltac:(lia)).
  pose proof (Z.mod_pos_bound z 64 ltac:(lia)).
  rewrite (lor_add_disjoint _ (y mod 64 * 64) 12);
    [| lia | change (2 ^ 12) with 4096; lia
     | change (2 ^ 12) with (64 * 64); apply Z.mod_mul; lia].
  replace (b1 mod 16 * (64 * 64) + y mod 64 * 64)
    with ((b1 mod 16 * 64 + y mod 64) * 64) by lia.
  rewrite (lor_add_disjoint _ _ 6);
    [reflexivity | lia | change (2 ^ 6) with 64; lia
     | change (2 ^ 6) with 64; apply Z.mod_mul; lia].
Qed.

Lemma utf8_four_bytes b1 y z t :
  Z.lor (Z.lor (Z.lor (Z.shiftl (Z.land 0x07 b1) 18) (Z.shiftl (y mod 64) 12))
               (Z.shiftl (z mod 64) 6)) (t mod 64)
  = (((b1 mod 8) * 64 + y mod 64) * 64 + z mod 64) * 64 + t mod 64.
Proof.
  rewrite (land_low_bits 0x07 3) by (reflexivity || lia).
  rewrite !Z.shiftl_mul_pow2 by lia.
  change (2 ^ 3) with 8. change (2 ^ 6) with 64. change (2 ^ 12) with (64 * 64).
  change (2 ^ 18) with (64 * (64 * 64)).
  pose proof (Z.mod_pos_bound y 64 ltac:(lia)).
  pose proof (Z.mod_pos_bound z 64 ltac:(lia)).
  pose proof (Z.mod_pos_bound t 64 ltac:(lia)).
  rewrite (lor_add_disjoint _ (y mod 64 * (64 * 64)) 18);
    [| lia | change (2 ^ 18) with 262144; lia |].
  2:{ change (2 ^ 18) with (64 * (64 * 64)). apply Z.mod_mul. lia. }
  replace (b1 mod 8 * (64 * (64 * 64)) + y mod 64 * (64 * 64))
    with ((b1 mod 8 * 64 + y mod 64) * (64 * 64)) by lia.
  rewrite (lor_add_disjoint _ (z mod 64 * 64) 12);
    [| lia | change (2 ^ 12) with 4096; lia
     | change (2 ^ 12) with (64 * 64); apply Z.mod_mul; lia].
  replace ((b1 mod 8 * 64 + y mod 64) * (64 * 64) + z mod 64 * 64)
    with (((b1 mod 8 * 64 + y mod 64) * 64 + z mod 64) * 64) by lia.
  rewrite (lor_add_disjoint _ _ 6);
    [reflexivity | lia | change (2 ^ 6) with 64; lia
     | change (2 ^ 6) with 64; apply Z.mod_mul; lia].
Qed.
Ltac decide_cmp :=
  repeat (cbv iota; cbn [orb andb negb];
          match goal with
          | |- context [Z.leb ?a ?b] => destruct (Z.leb_spec a b); [try lia | try lia]
          | |- context [Z.ltb ?a ?b] => destruct (Z.ltb_spec a b); [try lia | try lia]
          | |- context [Z.eqb ?a ?b] => destruct (Z.eqb_spec a b); [try lia | try lia]
          end);
  cbv iota; cbn [orb andb negb].

Lemma utf8_decode_glyph_at s in0 (pre seen post : list Z) :
  Forall (fun b => 0 <= b < 256) seen ->
  Z.of_nat (length (pre ++ seen ++ post)) < 2 ^ 63 ->
  Utf8.decode_glyph s in0 (Utf8.cursor_at pre seen post)
  = let '(ok, v, n) := Utf8.decode_outcome seen in
    Ok (ok, Some v, Utf8.cursor_at (pre ++ take n seen) (drop n seen) post).
Proof.
  intros Hrange Hlen. unfold Utf8.decode_glyph.
  rewrite utf8_remaining_at by exact Hlen.
  destruct seen as [|b1 rest].
  - simpl. rewrite app_nil_r. reflexivity.
  - apply Forall_cons in Hrange as [Hb1 Hrest].
    assert (Hlen1 : Z.of_nat (length ((pre ++ [b1]) ++ rest ++ post)) < 2 ^ 63).
    { rewrite <- app_assoc. exact Hlen. }
    destruct (Z.eqb_spec (Z.of_nat (length (b1 :: rest))) 0) as [E|_]; [simpl in E; lia|].
    rewrite utf8_next_at, result_bind_Ok. cbv beta iota zeta.
    rewrite utf8_char_round_trip by exact Hb1.
    rewrite utf8_remaining_at by exact Hlen1.
    assert (Hfit : to_size_t (Z.of_nat (length rest) + 1) = Z.of_nat (length rest) + 1).
    { unfold to_size_t. rewrite !length_app in Hlen1. apply Z.mod_small. lia. }
    rewrite Hfit. clear Hfit Hlen Hlen1.
    unfold Utf8.decode_outcome, Utf8.utf8_sequence_length, Utf8.glyph_value.
    destruct rest as [|b2 [|b3 [|b4 rest]]]; simpl length;
      decide_cmp;
      rewrite ?utf8_next_at, ?result_bind_Ok; cbv beta iota;
      rewrite ?utf8_next_at, ?result_bind_Ok; cbv beta iota;
      rewrite ?utf8_next_at, ?result_bind_Ok; cbv beta iota;
      rewrite ?utf8_low_six, ?utf8_two_bytes, ?utf8_three_bytes, ?utf8_four_bytes;
      change (Z.to_nat 1) with 1%nat; change (Z.to_nat 2) with 2%nat;
      change (Z.to_nat 3) with 3%nat; change (Z.to_nat 4) with 4%nat;
      cbn [take drop nth]; rewrite <- ?app_assoc; reflexivity.
Qed.

Lemma utf8_decode_outcome_consumed (seen : list Z) ok v n :
  Utf8.decode_outcome seen = (ok, v, n) ->
  (n <= length seen)%nat /\
  (ok = true -> (1 <= n <= 4)%nat) /\
  (ok = false -> v = Utf8.replacement /\ (n <= 1)%nat).
Proof.
  unfold Utf8.decode_outcome, Utf8.utf8_sequence_length.
  destruct seen as [|b1 rest]; [intros [= <- <- <-]; simpl; repeat split; try lia; discriminate|].
  simpl length. decide_cmp; intros [= <- <- <-];
    change (Z.to_nat 1) with 1%nat; change (Z.to_nat 2) with 2%nat;
    change (Z.to_nat 3) with 3%nat; change (Z.to_nat 4) with 4%nat;
    (repeat split; try lia; try discriminate).
Qed.

Lemma utf8_glyph_value_range b1 (rest : list Z) :
  0 <= b1 < 256 -> 0 <= Utf8.glyph_value b1 rest < 2 ^ 21.
Proof.
  intros Hb. unfold Utf8.glyph_value.
  pose proof (Z.mod_pos_bound (nth 0 rest 0) 64 ltac:(lia)).
  pose proof (Z.mod_pos_bound (nth 1 rest 0) 64 ltac:(lia)).
  pose proof (Z.mod_pos_bound (nth 2 rest 0) 64 ltac:(lia)).
  pose proof (Z.mod_pos_bound b1 32 ltac:(lia)).
  pose proof (Z.mod_pos_bound b1 16 ltac:(lia)).
  pose proof (Z.mod_pos_bound b1 8 ltac:(lia)).
  change (2 ^ 21) with 2097152.
  decide_cmp; lia.
Qed.

(** X16: [decode_glyph] never trips the cursor's assertion and never
    reads outside the bytes before the end pointer.  On an exhausted
    cursor it returns false, stores U+FFFD and moves nothing; on a lead
    byte of length 0, or with fewer bytes left than the length asks for,
    it returns false, stores U+FFFD and has consumed the lead byte only;
    otherwise it returns true, has consumed exactly
    [utf8_sequence_length] bytes and stores a value below [2^21] built
    from the low bits of those bytes.  The outcome depends neither on the
    signedness of [char] nor on what [in] held before. *)
Theorem decode_glyph_behaviour (s : bool) (in0 : option Z) (pre seen post : list Z) :
  Forall (fun b => 0 <= b < 256) seen ->
  Z.of_nat (length (pre ++ seen ++ post)) < 2 ^ 63 ->
  exists ok v n,
    Utf8.decode_outcome seen = (ok, v, n) /\
    Utf8.decode_glyph s in0 (Utf8.cursor_at pre seen post)
      = Ok (ok, Some v, Utf8.cursor_at (pre ++ take n seen) (drop n seen) post) /\
    (n <= length seen)%nat /\
    (ok = true -> (1 <= n <= 4)%nat /\ 0 <= v < 2 ^ 21) /\
    (ok = false -> v = Utf8.replacement /\ (n <= 1)%nat) /\
    Utf8.decode_glyph s in0 (Utf8.cursor_at pre seen post)
      = Utf8.decode_glyph (negb s) None (Utf8.cursor_at pre seen post).
Proof.
  intros Hrange Hlen.
  destruct (Utf8.decode_outcome seen) as [[ok v] n] eqn:E.
  exists ok, v, n. split; [reflexivity|].
  pose proof (utf8_decode_outcome_consumed seen ok v n E) as (Hn & Htrue & Hfalse).
  split; [rewrite utf8_decode_glyph_at, E by assumption; reflexivity|].
  split; [exact Hn|]. split; [|split; [exact Hfalse|]].
  - intros Hok. split; [apply Htrue, Hok|]. subst ok.
    unfold Utf8.decode_outcome in E. destruct seen as [|b1 rest]; [discriminate|].
    apply Forall_cons in Hrange as [Hb1 _].
    destruct (_ || _); [discriminate|]. injection E as <- _.
    apply utf8_glyph_value_range, Hb1.
  - rewrite !utf8_decode_glyph_at by assumption. reflexivity.
Qed.

Lemma decode_glyph_behaviour_witness :
  exists ok v n,
    Utf8.decode_outcome [0xE4; 0xB8; 0xAD; 0x21] = (ok, v, n) /\
    Utf8.decode_glyph true None (Utf8.cursor_at [0x48] [0xE4; 0xB8; 0xAD; 0x21] [])
      = Ok (ok, Some v,
            Utf8.cursor_at ([0x48] ++ take n [0xE4; 0xB8; 0xAD; 0x21])
              (drop n [0xE4; 0xB8; 0xAD; 0x21]) []) /\
    (n <= length [0xE4; 0xB8; 0xAD; 0x21])%nat /\
    (ok = true -> (1 <= n <= 4)%nat /\ 0 <= v < 2 ^ 21) /\
    (ok = false -> v = Utf8.replacement /\ (n <= 1)%nat) /\
    Utf8.decode_glyph true None (Utf8.cursor_at [0x48] [0xE4; 0xB8; 0xAD; 0x21] [])
      = Utf8.decode_glyph (negb true) None
          (Utf8.cursor_at [0x48] [0xE4; 0xB8; 0xAD; 0x21] []).
Proof.
  apply (decode_glyph_behaviour true None [0x48] [0xE4; 0xB8; 0xAD; 0x21] []).
  - repeat constructor; lia.
  - simpl. lia.
Defined.

(** X17: [Cursor::next] returns the element under the begin pointer and
    advances by one, so [remaining()] drops by one; a cursor made from a
    span starts at its first element; on an exhausted cursor [ended()]
    holds and [next] does not return (the assertion fires, or the pointer
    would leave the array). *)
Theorem cursor_next_contract (pre seen post : list Z) (x : Z) :
  Z.of_nat (length (pre ++ (x :: seen) ++ post)) < 2 ^ 63 ->
  Utf8.next (Utf8.cursor_at pre (x :: seen) post)
    = Ok (x, Utf8.cursor_at (pre ++ [x]) seen post) /\
  Utf8.remaining (Utf8.cursor_at (pre ++ [x]) seen post)
    = Utf8.remaining (Utf8.cursor_at pre (x :: seen) post) - 1 /\
  Utf8.ended (Utf8.cursor_at pre (x :: seen) post) = false /\
  Utf8.ended (Utf8.cursor_at pre [] post) = true /\
  (forall r, Utf8.next (Utf8.cursor_at pre [] post) <> Ok r) /\
  Utf8.of_span (x :: seen) = Utf8.cursor_at [] (x :: seen) [].
Proof.
  intros Hlen.
  assert (Hlen1 : Z.of_nat (length ((pre ++ [x]) ++ seen ++ post)) < 2 ^ 63)
    by (rewrite <- app_assoc; exact Hlen).
  assert (Hlen0 : Z.of_nat (length (pre ++ [] ++ post)) < 2 ^ 63).
  { rewrite !length_app in *. simpl length in *. lia. }
  split; [apply utf8_next_at|].
  split; [rewrite !utf8_remaining_at by assumption; simpl length; lia|].
  split; [unfold Utf8.ended; rewrite utf8_remaining_at by assumption; reflexivity|].
  split; [unfold Utf8.ended; rewrite utf8_remaining_at by assumption; reflexivity|].
  split.
  - intros r. rewrite utf8_next_at_end. destruct post; discriminate.
  - unfold Utf8.of_span, Utf8.cursor_at. apply utf8_cursor_eq; [|reflexivity|reflexivity].
    simpl. rewrite app_nil_r. reflexivity.
Qed.

Lemma cursor_next_contract_witness :
  Utf8.next (Utf8.cursor_at [1] (2 :: [3]) [4]) = Ok (2, Utf8.cursor_at ([1] ++ [2]) [3] [4]) /\
  Utf8.remaining (Utf8.cursor_at ([1] ++ [2]) [3] [4])
    = Utf8.remaining (Utf8.cursor_at [1] (2 :: [3]) [4]) - 1 /\
  Utf8.ended (Utf8.cursor_at [1] (2 :: [3]) [4]) = false /\
  Utf8.ended (Utf8.cursor_at [1] [] [4]) = true /\
  (forall r, Utf8.next (Utf8.cursor_at [1] [] [4]) <> Ok r) /\
  Utf8.of_span (2 :: [3]) = Utf8.cursor_at [] (2 :: [3]) [].
Proof. apply (cursor_next_contract [1] [3] [4] 2). simpl. lia. Defined.

(** X18: a multi-byte UTF-8 sequence that ends the input is rejected: for
    a lead byte in [0xC0..0xF7] followed by exactly the continuation
    bytes RFC 3629 prescribes and nothing more before the end pointer,
    [decode_glyph] returns false with U+FFFD and has consumed the lead
    byte only, because [utf8_sequence_length] asks for one byte more than
    RFC 3629 does (and for none at all from [0xF0] on). *)
Theorem decode_glyph_rejects_final_sequence (s : bool) (in0 : option Z)
    (pre conts post : list Z) (b1 : Z) :
  0xC0 <= b1 <= 0xF7 ->
  Forall (fun b => 0 <= b < 256) conts ->
  Z.of_nat (length (b1 :: conts)) = Utf8.rfc3629_length b1 ->
  Z.of_nat (length (pre ++ (b1 :: conts) ++ post)) < 2 ^ 63 ->
  Utf8.decode_glyph s in0 (Utf8.cursor_at pre (b1 :: conts) post)
    = Ok (false, Some Utf8.replacement, Utf8.cursor_at (pre ++ [b1]) conts post) /\
  (b1 < 0xF0 -> Utf8.utf8_sequence_length b1 = Utf8.rfc3629_length b1 + 1) /\
  (0xF0 <= b1 -> Utf8.utf8_sequence_length b1 = 0).
Proof.
  intros Hb Hconts Hn Hlen.
  split; [|unfold Utf8.utf8_sequence_length, Utf8.rfc3629_length; split; intros; decide_cmp; lia].
  rewrite utf8_decode_glyph_at; [| constructor; [lia | exact Hconts] | exact Hlen].
  unfold Utf8.decode_outcome, Utf8.utf8_sequence_length.
  unfold Utf8.rfc3629_length in Hn. revert Hn.
  decide_cmp; intros Hn; try lia; reflexivity.
Qed.

Lemma decode_glyph_rejects_final_sequence_witness :
  Utf8.decode_glyph true None (Utf8.cursor_at [0x61] (0xD0 :: [0xB4]) [])
    = Ok (false, Some Utf8.replacement, Utf8.cursor_at ([0x61] ++ [0xD0]) [0xB4] []) /\
  (0xD0 < 0xF0 -> Utf8.utf8_sequence_length 0xD0 = Utf8.rfc3629_length 0xD0 + 1) /\
  (0xF0 <= 0xD0 -> Utf8.utf8_sequence_length 0xD0 = 0).
Proof.
  apply (decode_glyph_rejects_final_sequence true None [0x61] [0xB4] [] 0xD0).
  - lia.
  - repeat constructor; lia.
  - reflexivity.
  - simpl. lia.
Defined.

Lemma utf8_grapheme_next_at s (pre seen post : list Z) :
  Forall (fun b => 0 <= b < 256) seen ->
  Z.of_nat (length (pre ++ seen ++ post)) < 2 ^ 63 ->
  Utf8.grapheme_next s (Utf8.cursor_at pre seen post)
  = let '(ok, v, n) := Utf8.decode_outcome seen in
    Ok (if ok then Some v else None,
        Utf8.cursor_at (pre ++ take n seen) (drop n seen) post).
Proof.
  intros Hrange Hlen. unfold Utf8.grapheme_next.
  rewrite utf8_decode_glyph_at by assumption.
  destruct (Utf8.decode_outcome seen) as [[[|] v] n]; reflexivity.
Qed.

Lemma utf8_graphemes_run s : forall fuel (pre seen post : list Z),
  Forall (fun b => 0 <= b < 256) seen ->
  Z.of_nat (length (pre ++ seen ++ post)) < 2 ^ 63 ->
  (length seen < fuel)%nat ->
  exists l, Utf8.run_stream (Utf8.grapheme_next s) fuel (Utf8.cursor_at pre seen post)
            = Some (Ok l) /\
            (length l <= length seen)%nat /\
            Forall (fun v => 0 <= v < 2 ^ 21) l.
Proof.
  induction fuel as [|fuel IH]; intros pre seen post Hrange Hlen Hfuel; [lia|].
  simpl Utf8.run_stream. rewrite utf8_grapheme_next_at by assumption.
  destruct (Utf8.decode_outcome seen) as [[ok v] n] eqn:E.
  pose proof (utf8_decode_outcome_consumed seen ok v n E) as (Hn & Htrue & _).
  destruct ok.
  - specialize (Htrue eq_refl).
    destruct (IH (pre ++ take n seen) (drop n seen) post) as (l & Hl & Hlenl & Hvals).
    + apply Forall_drop, Hrange.
    + rewrite <- app_assoc, (app_assoc (take n seen)), take_drop. exact Hlen.
    + rewrite length_drop. lia.
    + rewrite Hl. exists (v :: l). split; [reflexivity|]. split.
      * rewrite length_drop in Hlenl. simpl. lia.
      * constructor; [|exact Hvals].
        unfold Utf8.decode_outcome in E. destruct seen as [|b1 rest]; [discriminate|].
        apply Forall_cons in Hrange as [Hb1 _].
        destruct (_ || _); [discriminate|]. injection E as <- _.
        apply utf8_glyph_value_range, Hb1.
  - exists []. split; [reflexivity|]. split; [simpl; lia | constructor].
Qed.

Lemma utf8_graphemes_ascii s : forall (seen pre post : list Z) fuel,
  Forall (fun b => 0 <= b <= 127) seen ->
  Z.of_nat (length (pre ++ seen ++ post)) < 2 ^ 63 ->
  (length seen < fuel)%nat ->
  Utf8.run_stream (Utf8.grapheme_next s) fuel (Utf8.cursor_at pre seen post)
  = Some (Ok seen).
Proof.
  induction seen as [|b rest IH]; intros pre post fuel Hascii Hlen Hfuel;
    (destruct fuel as [|fuel]; [simpl in Hfuel; lia|]).
  - simpl Utf8.run_stream. rewrite utf8_grapheme_next_at by (assumption || constructor).
    reflexivity.
  - apply Forall_cons in Hascii as [Hb Hrest].
    simpl Utf8.run_stream. rewrite utf8_grapheme_next_at; [| | exact Hlen].
    2:{ constructor; [lia|]. eapply Forall_impl; [exact Hrest|]. simpl. intros; lia. }
    assert (E : Utf8.decode_outcome (b :: rest) = (true, b, 1%nat)).
    { unfold Utf8.decode_outcome, Utf8.utf8_sequence_length, Utf8.glyph_value.
      simpl length. decide_cmp. reflexivity. }
    rewrite E. change (take 1 (b :: rest)) with [b]. change (drop 1 (b :: rest)) with rest.
    rewrite (IH (pre ++ [b]) post fuel Hrest); [reflexivity | | simpl in Hfuel; lia].
    rewrite <- app_assoc. exact Hlen.
Qed.

(** X19: iterating [iterGraphemes] over any string ends without tripping
    an assertion or reading an indeterminate value; it yields at most as
    many glyphs as the string has bytes, each below [2^21], and for a
    string of ASCII bytes it yields exactly those bytes.  A fuel of one
    more than the length is enough. *)
Theorem iterGraphemes_terminates (s : bool) (str : list Z) :
  Forall (fun b => 0 <= b < 256) str ->
  Z.of_nat (length str) < 2 ^ 63 ->
  (exists l, Utf8.iterGraphemes s (S (length str)) str = Some (Ok l) /\
             (length l <= length str)%nat /\
             Forall (fun v => 0 <= v < 2 ^ 21) l) /\
  (Forall (fun b => 0 <= b <= 127) str ->
   Utf8.iterGraphemes s (S (length str)) str = Some (Ok str)).
Proof.
  intros Hrange Hlen.
  assert (Hspan : Utf8.of_span str = Utf8.cursor_at [] str []).
  { unfold Utf8.of_span, Utf8.cursor_at. apply utf8_cursor_eq; [|reflexivity|reflexivity].
    simpl. rewrite app_nil_r. reflexivity. }
  assert (Hlen' : Z.of_nat (length ([] ++ str ++ [])) < 2 ^ 63)
    by (simpl; rewrite app_nil_r; exact Hlen).
  unfold Utf8.iterGraphemes. rewrite Hspan. split.
  - apply utf8_graphemes_run; [exact Hrange | exact Hlen' | lia].
  - intros Hascii. apply utf8_graphemes_ascii; [exact Hascii | exact Hlen' | lia].
Qed.

Lemma iterGraphemes_terminates_witness :
  (exists l, Utf8.iterGraphemes true (S (length [0x48; 0x69; 0xD0; 0x90])) [0x48; 0x69; 0xD0; 0x90]
             = Some (Ok l) /\
             (length l <= length [0x48; 0x69; 0xD0; 0x90])%nat /\
             Forall (fun v => 0 <= v < 2 ^ 21) l) /\
  (Forall (fun b => 0 <= b <= 127) [0x48; 0x69; 0xD0; 0x90] ->
   Utf8.iterGraphemes true (S (length [0x48; 0x69; 0xD0; 0x90])) [0x48; 0x69; 0xD0; 0x90]
   = Some (Ok [0x48; 0x69; 0xD0; 0x90])).
Proof.
  apply (iterGraphemes_terminates true [0x48; 0x69; 0xD0; 0x90]).
  - repeat constructor; lia.
  - simpl. lia.
Defined.

Lemma utf8_char_next_at (pre seen post : list Z) :
  Z.of_nat (length (pre ++ seen ++ post)) < 2 ^ 63 ->
  Utf8.char_next (Utf8.cursor_at pre seen post)
  = match seen with
    | [] => Ok (None, Utf8.cursor_at pre [] post)
    | b :: rest => Ok (Some b, Utf8.cursor_at (pre ++ [b]) rest post)
    end.
Proof.
  intros Hlen. unfold Utf8.char_next, Utf8.ended.
  rewrite utf8_remaining_at by exact Hlen.
  destruct seen as [|b rest]; [reflexivity|].
  change (Z.of_nat (length (b :: rest)) =? 0) with false. cbn [negb].
  rewrite utf8_next_at, result_bind_Ok. reflexivity.
Qed.

Lemma utf8_chars_run : forall (seen pre post : list Z) fuel,
  Z.of_nat (length (pre ++ seen ++ post)) < 2 ^ 63 ->
  (length seen < fuel)%nat ->
  Utf8.run_stream Utf8.char_next fuel (Utf8.cursor_at pre seen post) = Some (Ok seen).
Proof.
  induction seen as [|b rest IH]; intros pre post fuel Hlen Hfuel;
    (destruct fuel as [|fuel]; [simpl in Hfuel; lia|]);
    simpl Utf8.run_stream; rewrite utf8_char_next_at by exact Hlen.
  - reflexivity.
  - rewrite (IH (pre ++ [b]) post fuel); [reflexivity | | simpl in Hfuel; lia].
    rewrite <- app_assoc. exact Hlen.
Qed.

(** X20: iterating [iterChars] over a string yields every byte of the
    string, in order, and then ends; a fuel of one more than the length is
    enough. *)
Theorem iterChars_yields_all (str : list Z) :
  Z.of_nat (length str) < 2 ^ 63 ->
  Utf8.iterChars (S (length str)) str = Some (Ok str).
Proof.
  intros Hlen. unfold Utf8.iterChars.
  assert (Hspan : Utf8.of_span str = Utf8.cursor_at [] str []).
  { unfold Utf8.of_span, Utf8.cursor_at. apply utf8_cursor_eq; [|reflexivity|reflexivity].
    simpl. rewrite app_nil_r. reflexivity. }
  rewrite Hspan. apply utf8_chars_run; [|lia].
  simpl. rewrite app_nil_r. exact Hlen.
Qed.

Lemma iterChars_yields_all_witness :
  Utf8.iterChars (S (length [0x48; 0xD0; 0x90])) [0x48; 0xD0; 0x90]
  = Some (Ok [0x48; 0xD0; 0x90]).
Proof. apply (iterChars_yields_all [0x48; 0xD0; 0x90]). simpl. lia. Defined.

(** * The level generator's index arithmetic *)

Lemma level_rem_plus_rem x m :
  0 < m -> Z.rem (Z.rem x m + m) m = x mod m.
Proof.
  intros Hm.
  pose proof (Z.rem_bound_abs x m ltac:(lia)) as Hb.
  assert (Hr : 0 <= Z.rem x m + m < 2 * m) by lia.
  rewrite Z.rem_mod_nonneg by lia.
  pose proof (Z.quot_rem' x m) as Hq.
  apply (Z.mod_unique x m (Z.quot x m + (Z.rem x m + m) / m - 1)).
  - left. apply Z.mod_pos_bound. lia.
  - pose proof (Z.div_mod (Z.rem x m + m) m ltac:(lia)). lia.
Qed.

Lemma level_mod_ok x m :
  0 < m <= 2 ^ 30 -> int_min <= x <= int_max ->
  Level.mod_ x m = Ok (x mod m).
Proof.
  intros Hm Hx. unfold Level.mod_, Level.int_rem, Level.int_add, in_int, int_min, int_max in *.
  pose proof (Z.rem_bound_abs x m ltac:(lia)) as Hb.
  destruct (Z.eqb_spec m 0); [lia|].
  destruct (Z.eqb_spec m (-1)); [lia|]. rewrite !andb_false_r.
  rewrite result_bind_Ok.
  destruct (Z.leb_spec (- 2 ^ 31) (Z.rem x m + m)); [|lia].
  destruct (Z.leb_spec (Z.rem x m + m) (2 ^ 31 - 1)); [|lia].
  cbn [andb]. rewrite result_bind_Ok.
  rewrite andb_false_r, level_rem_plus_rem by lia. reflexivity.
Qed.

(** X21: for a modulus between 1 and [2^30], [mod] returns the
    mathematical remainder, which lies in [[0, m)] also for negative [x];
    for a zero modulus it is undefined. *)
Theorem mod_is_euclidean (x m : Z) :
  int_min <= x <= int_max ->
  (0 < m <= 2 ^ 30 -> Level.mod_ x m = Ok (x mod m) /\ 0 <= x mod m < m) /\
  Level.mod_ x 0 = Undefined.
Proof.
  intros Hx. split; [|reflexivity].
  intros Hm. split; [apply level_mod_ok; assumption | apply Z.mod_pos_bound; lia].
Qed.

Lemma mod_is_euclidean_witness :
  (0 < 128 <= 2 ^ 30 -> Level.mod_ (-16) 128 = Ok ((-16) mod 128) /\ 0 <= (-16) mod 128 < 128) /\
  Level.mod_ (-16) 0 = Undefined.
Proof. apply (mod_is_euclidean (-16) 128). unfold int_min, int_max. lia. Defined.

Lemma level_to_int_u32 a :
  - 2 ^ 31 <= a < 2 ^ 31 -> Level.to_int (Level.to_u32 a) = a.
Proof.
  intros Ha. unfold Level.to_int, Level.to_u32, wrap_int.
  rewrite Zplus_mod_idemp_l, Z.mod_small by lia. lia.
Qed.

Lemma level_to_int_small w : 0 <= w < 2 ^ 31 -> Level.to_int w = w.
Proof. intros Hw. unfold Level.to_int, wrap_int. rewrite Z.mod_small by lia. lia. Qed.

Lemma level_sample_index_eq (w h a b : Z) :
  0 < w <= 2 ^ 30 -> 0 < h <= 2 ^ 30 -> w * h < 2 ^ 32 ->
  - 2 ^ 31 <= a < 2 ^ 31 -> - 2 ^ 31 <= b < 2 ^ 31 ->
  Level.sample_index w h (Level.to_u32 a) (Level.to_u32 b)
  = Ok (a mod w + (b mod h) * w).
Proof.
  intros Hw Hh Hwh Ha Hb. unfold Level.sample_index.
  rewrite !level_to_int_u32, !level_to_int_small by lia.
  rewrite !level_mod_ok by (unfold int_min, int_max; lia).
  rewrite !result_bind_Ok.
  pose proof (Z.mod_pos_bound a w ltac:(lia)).
  pose proof (Z.mod_pos_bound b h ltac:(lia)).
  assert (0 <= b mod h * w <= (h - 1) * w) by nia.
  unfold Level.to_u32. f_equal.
  rewrite (Z.mod_small (a mod w)), (Z.mod_small (b mod h)) by lia.
  rewrite (Z.mod_small (b mod h * w)) by nia.
  apply Z.mod_small. nia.
Qed.

(** X22: for a grid of [w] by [h] cells with both sides at most [2^30]
    and [w * h] below [2^32], the index [sample] and [setSample] compute
    for coordinates [a], [b] (negative ones arrive wrapped to
    [uint32_t]) is [a mod w + (b mod h) * w]: it lies inside the [w * h]
    values, and coordinates that agree modulo [w] and [h] name the same
    cell. *)
Theorem sample_index_on_torus (w h a b : Z) :
  0 < w <= 2 ^ 30 -> 0 < h <= 2 ^ 30 -> w * h < 2 ^ 32 ->
  - 2 ^ 31 <= a < 2 ^ 31 -> - 2 ^ 31 <= b < 2 ^ 31 ->
  exists i,
    Level.sample_index w h (Level.to_u32 a) (Level.to_u32 b) = Ok i /\
    i = a mod w + (b mod h) * w /\
    0 <= i < w * h /\
    forall a' b', - 2 ^ 31 <= a' < 2 ^ 31 -> - 2 ^ 31 <= b' < 2 ^ 31 ->
      (Level.sample_index w h (Level.to_u32 a') (Level.to_u32 b') = Ok i
       <-> a' mod w = a mod w /\ b' mod h = b mod h).
Proof.
  intros Hw Hh Hwh Ha Hb.
  exists (a mod w + (b mod h) * w).
  pose proof (Z.mod_pos_bound a w ltac:(lia)).
  pose proof (Z.mod_pos_bound b h ltac:(lia)).
  split; [apply level_sample_index_eq; assumption|]. split; [reflexivity|].
  split; [nia|].
  intros a' b' Ha' Hb'. rewrite level_sample_index_eq by assumption.
  pose proof (Z.mod_pos_bound a' w ltac:(lia)).
  pose proof (Z.mod_pos_bound b' h ltac:(lia)).
  split.
  - intros [= E]. assert (b' mod h = b mod h) by nia. split; [nia | assumption].
  - intros [-> ->]. reflexivity.
Qed.

Lemma sample_index_on_torus_witness :
  exists i,
    Level.sample_index 128 128 (Level.to_u32 (-16)) (Level.to_u32 130) = Ok i /\
    i = (-16) mod 128 + (130 mod 128) * 128 /\
    0 <= i < 128 * 128 /\
    forall a' b', - 2 ^ 31 <= a' < 2 ^ 31 -> - 2 ^ 31 <= b' < 2 ^ 31 ->
      (Level.sample_index 128 128 (Level.to_u32 a') (Level.to_u32 b') = Ok i
       <-> a' mod 128 = (-16) mod 128 /\ b' mod 128 = 130 mod 128).
Proof. apply (sample_index_on_torus 128 128 (-16) 130); lia. Defined.

(** X23: on a grid whose [values] hold [w * h] elements, [setSample]
    succeeds and keeps the size, and a following [sample] returns the
    stored value at every coordinate pair that agrees with the written one
    modulo [w] and [h], and the old content everywhere else. *)
Theorem setSample_then_sample (A : Type) (values : list A) (w h a b a' b' : Z) (v : A) :
  0 < w <= 2 ^ 30 -> 0 < h <= 2 ^ 30 -> w * h < 2 ^ 32 ->
  Z.of_nat (length values) = w * h ->
  - 2 ^ 31 <= a < 2 ^ 31 -> - 2 ^ 31 <= b < 2 ^ 31 ->
  - 2 ^ 31 <= a' < 2 ^ 31 -> - 2 ^ 31 <= b' < 2 ^ 31 ->
  exists values',
    Level.setSample A values w h (Level.to_u32 a) (Level.to_u32 b) v = Ok values' /\
    length values' = length values /\
    Level.sample A values' w h (Level.to_u32 a') (Level.to_u32 b')
    = if (a' mod w =? a mod w) && (b' mod h =? b mod h) then Ok v
      else Level.sample A values w h (Level.to_u32 a') (Level.to_u32 b').
Proof.
  intros Hw Hh Hwh Hlen Ha Hb Ha' Hb'.
  pose proof (Z.mod_pos_bound a w ltac:(lia)).
  pose proof (Z.mod_pos_bound b h ltac:(lia)).
  pose proof (Z.mod_pos_bound a' w ltac:(lia)).
  pose proof (Z.mod_pos_bound b' h ltac:(lia)).
  set (i := a mod w + b mod h * w). set (j := a' mod w + b' mod h * w).
  assert (Hi : 0 <= i < w * h) by (unfold i; nia).
  assert (Hj : 0 <= j < w * h) by (unfold j; nia).
  unfold Level.setSample, Level.sample.
  rewrite !level_sample_index_eq by assumption. fold i j.
  rewrite !result_bind_Ok. unfold Level.vec_store.
  destruct (Z.leb_spec 0 i); [|lia].
  destruct (Z.ltb_spec i (Z.of_nat (length values))); [|lia]. cbn [andb].
  eexists. split; [reflexivity|]. split; [apply length_insert|].
  rewrite !result_bind_Ok. unfold Level.vec_at. rewrite length_insert.
  destruct (Z.leb_spec 0 j); [|lia].
  destruct (Z.ltb_spec j (Z.of_nat (length values))); [|lia]. cbn [andb].
  destruct (Z.eqb_spec (a' mod w) (a mod w)) as [Ea|Ea];
    [destruct (Z.eqb_spec (b' mod h) (b mod h)) as [Eb|Eb]|]; cbn [andb].
  - assert (Eij : Z.to_nat j = Z.to_nat i) by (unfold i, j; congruence).
    rewrite Eij, list_lookup_insert_eq by lia. reflexivity.
  - rewrite list_lookup_insert_ne; [reflexivity|].
    unfold i, j. intros E. apply Z2Nat.inj in E; [|nia|nia]. apply Eb. nia.
  - rewrite list_lookup_insert_ne; [reflexivity|].
    unfold i, j. intros E. apply Z2Nat.inj in E; [|nia|nia].
    assert (b' mod h = b mod h) by nia. apply Ea. nia.
Qed.

Lemma setSample_then_sample_witness :
  exists values',
    Level.setSample Z [10; 11; 12; 13; 14; 15] 3 2 (Level.to_u32 (-1)) (Level.to_u32 3) 99
      = Ok values' /\
    length values' = length [10; 11; 12; 13; 14; 15] /\
    Level.sample Z values' 3 2 (Level.to_u32 2) (Level.to_u32 1)
    = if (2 mod 3 =? (-1) mod 3) && (1 mod 2 =? 3 mod 2) then Ok 99
      else Level.sample Z [10; 11; 12; 13; 14; 15] 3 2 (Level.to_u32 2) (Level.to_u32 1).
Proof.
  apply (setSample_then_sample Z [10; 11; 12; 13; 14; 15] 3 2 (-1) 3 2 1 99);
    try lia; reflexivity.
Defined.

(** * The byte streams *)

Lemma bytestream_read_at (T : Type) (n : Z) (to : list Z -> T) (from : T -> list Z)
    (pre post : list Z) (t : T) (b e : Z) :
  Z.of_nat (length (from t)) = n -> to (from t) = t ->
  Z.of_nat (length pre) + n <= e <= Z.of_nat (length (pre ++ from t ++ post)) ->
  ByteStream.read T n to
    {| ByteStream.data := pre ++ from t ++ post; ByteStream.begin_ := b;
       ByteStream.current_ := Z.of_nat (length pre); ByteStream.end_ := e |}
  = Ok (t, {| ByteStream.data := pre ++ from t ++ post; ByteStream.begin_ := b;
              ByteStream.current_ := Z.of_nat (length pre) + n; ByteStream.end_ := e |}).
Proof.
  intros Hn Hrt He. unfold ByteStream.read.
  cbn [ByteStream.data ByteStream.begin_ ByteStream.current_ ByteStream.end_].
  destruct (Z.ltb_spec (Z.of_nat (length (pre ++ from t ++ post))) (Z.of_nat (length pre) + n));
    [lia|].
  destruct (Z.leb_spec (Z.of_nat (length pre) + n) e); [|lia].
  rewrite Nat2Z.id, drop_app_length.
  rewrite <- Hn, Nat2Z.id, take_app_length.
  unfold ByteStream.fromBytesTo. rewrite Z.ltb_irrefl, Nat2Z.id, Nat.sub_diag.
  simpl replicate. rewrite app_nil_r, Hrt. reflexivity.
Qed.

(** X24: what an [OByteStream] writes, an [IByteStream] reads back: after
    clearing a buffer and writing a value of one type and then a value of
    another, the buffer holds as many bytes as the two types take, and a
    stream over the buffer yields the first value, then the second, and
    ends exactly at its end pointer.  ([std::bit_cast] is assumed to give
    [sizeof(T)] bytes and to invert itself.) *)
Theorem stream_round_trip (T1 T2 : Type) (n1 n2 : Z)
    (to1 : list Z -> T1) (from1 : T1 -> list Z)
    (to2 : list Z -> T2) (from2 : T2 -> list Z)
    (b0 : ByteStream.ByteBuffer) (a : T1) (b : T2) :
  (forall t, Z.of_nat (length (from1 t)) = n1) -> (forall t, to1 (from1 t) = t) ->
  (forall t, Z.of_nat (length (from2 t)) = n2) -> (forall t, to2 (from2 t) = t) ->
  let buf := ByteStream.write T2 from2
               (ByteStream.write T1 from1 (ByteStream.clear b0) a) b in
  ByteStream.size buf = n1 + n2 /\
  ('(x, s1) ← ByteStream.read T1 n1 to1 (ByteStream.of_buffer buf);
   '(y, s2) ← ByteStream.read T2 n2 to2 s1;
   Ok (x, y, ByteStream.current_ s2, ByteStream.end_ s2))
  = Ok (a, b, n1 + n2, n1 + n2).
Proof.
  intros Hn1 Hrt1 Hn2 Hrt2 buf.
  assert (Hbuf : ByteStream.bytes_ buf = from1 a ++ from2 b) by reflexivity.
  assert (Hsize : ByteStream.size buf = n1 + n2).
  { unfold ByteStream.size. rewrite Hbuf, length_app, <- (Hn1 a), <- (Hn2 b). lia. }
  split; [exact Hsize|].
  unfold ByteStream.of_buffer, ByteStream.of_span. rewrite Hbuf.
  pose proof (bytestream_read_at T1 n1 to1 from1 [] (from2 b) a 0
                (Z.of_nat (length (from1 a ++ from2 b))) (Hn1 a) (Hrt1 a)) as R1.
  change ([] ++ from1 a ++ from2 b) with (from1 a ++ from2 b) in R1.
  change (Z.of_nat (length (@nil Z))) with 0 in R1. rewrite R1.
  2:{ rewrite length_app, <- (Hn1 a). lia. }
  rewrite result_bind_Ok. cbv beta iota.
  pose proof (bytestream_read_at T2 n2 to2 from2 (from1 a) [] b 0
                (Z.of_nat (length (from1 a ++ from2 b))) (Hn2 b) (Hrt2 b)) as R2.
  rewrite app_nil_r in R2. rewrite (Hn1 a) in R2. rewrite Z.add_0_l. rewrite R2.
  2:{ rewrite length_app, <- (Hn2 b), <- (Hn1 a). lia. }
  rewrite result_bind_Ok. cbv beta iota.
  cbn [ByteStream.current_ ByteStream.end_].
  rewrite length_app, <- (Hn1 a), <- (Hn2 b). do 2 f_equal. lia.
Qed.

Lemma stream_round_trip_witness :
  let to1 := fun l : list Z => match l with [1] => true | _ => false end in
  let from1 := fun t : bool => [Z.b2z t] in
  let to2 := fun l : list Z => match l with [x; y] => (x, y) | _ => (0, 0) end in
  let from2 := fun t : Z * Z => [fst t; snd t] in
  let buf := ByteStream.write (Z * Z) from2
               (ByteStream.write bool from1
                  (ByteStream.clear {| ByteStream.bytes_ := [7; 7; 7] |}) true) (5, 6) in
  ByteStream.size buf = 1 + 2 /\
  ('(x, s1) ← ByteStream.read bool 1 to1 (ByteStream.of_buffer buf);
   '(y, s2) ← ByteStream.read (Z * Z) 2 to2 s1;
   Ok (x, y, ByteStream.current_ s2, ByteStream.end_ s2))
  = Ok (true, (5, 6), 1 + 2, 1 + 2).
Proof.
  intros to1 from1 to2 from2.
  apply (stream_round_trip bool (Z * Z) 1 2 to1 from1 to2 from2
           {| ByteStream.bytes_ := [7; 7; 7] |} true (5, 6)).
  - intros t. reflexivity.
  - intros [|]; reflexivity.
  - intros t. reflexivity.
  - intros [x y]. reflexivity.
Defined.

(** X25: [operator>>] returns exactly when at least [sizeof(T)] bytes lie
    between the current and the end pointer: then the stream advances by
    [sizeof(T)] and the value is the conversion of those bytes; with fewer
    bytes it does not return (the assertion fires, or the pointer would
    leave the array). *)
Theorem read_needs_bytes (T : Type) (n : Z) (to : list Z -> T) (s : ByteStream.IByteStream) :
  0 <= n ->
  0 <= ByteStream.current_ s <= ByteStream.end_ s ->
  ByteStream.end_ s <= Z.of_nat (length (ByteStream.data s)) ->
  (ByteStream.end_ s - ByteStream.current_ s < n ->
     forall r, ByteStream.read T n to s <> Ok r) /\
  (n <= ByteStream.end_ s - ByteStream.current_ s ->
     ByteStream.read T n to s
     = Ok (to (take (Z.to_nat n)
                 (drop (Z.to_nat (ByteStream.current_ s)) (ByteStream.data s))),
           {| ByteStream.data := ByteStream.data s;
              ByteStream.begin_ := ByteStream.begin_ s;
              ByteStream.current_ := ByteStream.current_ s + n;
              ByteStream.end_ := ByteStream.end_ s |})).
Proof.
  intros Hn Hc He. unfold ByteStream.read. split.
  - intros Hshort r.
    destruct (Z.ltb_spec (Z.of_nat (length (ByteStream.data s))) (ByteStream.current_ s + n));
      [discriminate|].
    destruct (Z.leb_spec (ByteStream.current_ s + n) (ByteStream.end_ s)); [lia | discriminate].
  - intros Henough.
    destruct (Z.ltb_spec (Z.of_nat (length (ByteStream.data s))) (ByteStream.current_ s + n));
      [lia|].
    destruct (Z.leb_spec (ByteStream.current_ s + n) (ByteStream.end_ s)); [|lia].
    assert (Hlen : length (take (Z.to_nat n)
                     (drop (Z.to_nat (ByteStream.current_ s)) (ByteStream.data s)))
                   = Z.to_nat n).
    { rewrite length_take, length_drop. lia. }
    unfold ByteStream.fromBytesTo. rewrite Hlen.
    destruct (Z.ltb_spec n (Z.of_nat (Z.to_nat n))); [lia|].
    rewrite Nat.sub_diag. simpl replicate. rewrite app_nil_r. reflexivity.
Qed.

Lemma read_needs_bytes_witness :
  (ByteStream.end_ (ByteStream.of_span [1; 2; 3]) - ByteStream.current_ (ByteStream.of_span [1; 2; 3]) < 4 ->
     forall r, ByteStream.read (list Z) 4 (fun l => l) (ByteStream.of_span [1; 2; 3]) <> Ok r) /\
  (4 <= ByteStream.end_ (ByteStream.of_span [1; 2; 3]) - ByteStream.current_ (ByteStream.of_span [1; 2; 3]) ->
     ByteStream.read (list Z) 4 (fun l => l) (ByteStream.of_span [1; 2; 3])
     = Ok ((fun l => l)
             (take (Z.to_nat 4)
                (drop (Z.to_nat (ByteStream.current_ (ByteStream.of_span [1; 2; 3])))
                   (ByteStream.data (ByteStream.of_span [1; 2; 3])))),
           {| ByteStream.data := ByteStream.data (ByteStream.of_span [1; 2; 3]);
              ByteStream.begin_ := ByteStream.begin_ (ByteStream.of_span [1; 2; 3]);
              ByteStream.current_ := ByteStream.current_ (ByteStream.of_span [1; 2; 3]) + 4;
              ByteStream.end_ := ByteStream.end_ (ByteStream.of_span [1; 2; 3]) |})).
Proof.
  apply (read_needs_bytes (list Z) 4 (fun l => l) (ByteStream.of_span [1; 2; 3]));
    simpl; lia.
Defined.

(** * Type names cut out of a function signature *)






(** What [main] prints, on GCC's wording of the signatures:
    [nameOf<unsigned int>] is the specialisation too. *)
Example nameOf_main :
  map (NameOf.nameOf NameOf.gcc_functionName NameOf.ty_unsigned_int)
    [NameOf.ty_void; NameOf.ty_int;
     NameOf.ty_class (list_ascii_of_string "Meow");
     NameOf.ty_class (list_ascii_of_string "BauBau");
     NameOf.ty_class (list_ascii_of_string "Bau");
     NameOf.ty_float; NameOf.ty_double;
     NameOf.ty_unsigned_int; NameOf.ty_unsigned_int; NameOf.ty_unsigned_long]
  = map (fun n => Some (list_ascii_of_string n))
      ["void"; "int"; "Meow"; "BauBau"; "Bau"; "float"; "double";
       "uint32_t"; "uint32_t"; "long unsigned int"]%string.
Proof. vm_compute. reflexivity. Qed.
